(** * himawari: the tile fetcher and mosaic assembler of [himawari.go]

    A shallow embedding of the Go package [himawari] (file [himawari.go]):
    the URL of a chunk ([ChunkUrl]), the chunk fetcher ([Chunk]) and the
    assembler ([Image], [LatestImage]) with its three paths: the single
    chunk of level 1, the sequential double loop, and the pool of worker
    goroutines fed through an unbuffered channel.

    Conventions of the embedding.
    - Go's [int] is modelled by [Z].  Every product the package computes
      ([level*level], [level*Width], [(x+1)*Width], ...) is bounded by the
      side of the canvas that [image.NewRGBA] allocates, so for every level
      whose canvas fits in memory no product wraps ([products_fit] below).
    - The network is an oracle: [http_png url] is what [http.Get] followed
      by [png.Decode] yields for [url].
    - Goroutines are a transition system ([pool_step]); the scheduler's
      choices are an explicit list of actions handed to [Image]. *)

From Stdlib Require Import ZArith List String Ascii Bool Lia Permutation Finite.
Import ListNotations.
Open Scope Z_scope.

(** ** Constants *)

Definition DefaultLevel : Z := 4.
Definition Width : Z := 550.
Definition Height : Z := Width.
Definition Levels : list Z := [1; 2; 4; 8; 16; 20].

(** ** Formatting: the fragments of [fmt.Sprintf] and [time.Format] in use *)

Module Fmt.

Open Scope string_scope.

Definition digit (d : Z) : ascii := ascii_of_nat (48 + Z.to_nat d).

(** Decimal digits of a non-negative number, most significant first
    (the loop [for u >= 10 { ...; u /= 10 }] of the formatter). *)
Fixpoint utoa_aux (fuel : nat) (u : Z) (acc : string) : string :=
  match fuel with
  | O => acc
  | S fuel' =>
      let acc' := String (digit (u mod 10)) acc in
      if (u <? 10)%Z then acc' else utoa_aux fuel' (u / 10) acc'
  end.

Definition utoa (u : Z) : string :=
  utoa_aux (S (Z.to_nat (Z.log2 u))) u "".

(** The verb [%d] on an [int]. *)
Definition itoa (x : Z) : string :=
  if (x <? 0)%Z then "-" ++ utoa (- x) else utoa x.

Fixpoint zeros (n : nat) : string :=
  match n with
  | O => ""
  | S n' => String "0" (zeros n')
  end.

(** [appendInt] of package [time]: sign, then the digits padded with zeros
    to [width]. *)
Definition appendInt (x : Z) (width : nat) : string :=
  let ds := utoa (Z.abs x) in
  (if (x <? 0)%Z then "-" else "") ++ zeros (width - String.length ds) ++ ds.

Inductive arg : Type :=
| AInt (x : Z)
| AStr (s : string).

Definition bad_verb (v : string) (a : arg) : string :=
  match a with
  | AInt x => "%!" ++ v ++ "(int=" ++ itoa x ++ ")"
  | AStr s => "%!" ++ v ++ "(string=" ++ s ++ ")"
  end.

Definition extra_arg (a : arg) : string :=
  match a with
  | AInt x => "int=" ++ itoa x
  | AStr s => "string=" ++ s
  end.

Definition extra (args : list arg) : string :=
  match args with
  | [] => ""
  | _ => "%!(EXTRA " ++ String.concat ", " (map extra_arg args) ++ ")"
  end.

(** [fmt.Sprintf] for the verbs [%d], [%s] and [%%]. *)
Fixpoint Sprintf (format : string) (args : list arg) : string :=
  match format with
  | EmptyString => extra args
  | String "%" (String "d" rest) =>
      match args with
      | [] => "%!d(MISSING)" ++ Sprintf rest []
      | AInt x :: args' => itoa x ++ Sprintf rest args'
      | a :: args' => bad_verb "d" a ++ Sprintf rest args'
      end
  | String "%" (String "s" rest) =>
      match args with
      | [] => "%!s(MISSING)" ++ Sprintf rest []
      | AStr s :: args' => s ++ Sprintf rest args'
      | a :: args' => bad_verb "s" a ++ Sprintf rest args'
      end
  | String "%" (String "%" rest) => String "%" (Sprintf rest args)
  | String c rest => String c (Sprintf rest args)
  end.

End Fmt.

(** ** Time *)

Module Time.

(** A location gives the offset (seconds east of UTC) in force at an
    instant. *)
Record Location : Type := { lookup : Z -> Z }.

Definition UTCLoc : Location := {| lookup := fun _ => 0 |}.

(** [time.Time]: an instant (seconds since the Unix epoch and nanoseconds)
    presented in a location. *)
Record Time : Type := { unix : Z; nsec : Z; loc : Location }.

Definition UTC (t : Time) : Time :=
  {| unix := unix t; nsec := nsec t; loc := UTCLoc |}.

Definition Add (t : Time) (seconds : Z) : Time :=
  {| unix := unix t + seconds; nsec := nsec t; loc := loc t |}.

(** Seconds on the wall clock of the time's location. *)
Definition wall (t : Time) : Z := unix t + lookup (loc t) (unix t).

(** Civil date of a day number (days since 1970-01-01), proleptic
    Gregorian calendar. *)
Definition civil (days : Z) : Z * Z * Z :=
  let z := days + 719468 in
  let era := z / 146097 in
  let doe := z - era * 146097 in
  let yoe := (doe - doe / 1460 + doe / 36524 - doe / 146096) / 365 in
  let doy := doe - (365 * yoe + yoe / 4 - yoe / 100) in
  let mp := (5 * doy + 2) / 153 in
  let d := doy - (153 * mp + 2) / 5 + 1 in
  let m := if mp <? 10 then mp + 3 else mp - 9 in
  let y := yoe + era * 400 + (if m <=? 2 then 1 else 0) in
  (y, m, d).

Definition year (t : Time) : Z := fst (fst (civil (wall t / 86400))).
Definition month (t : Time) : Z := snd (fst (civil (wall t / 86400))).
Definition day (t : Time) : Z := snd (civil (wall t / 86400)).
Definition hour (t : Time) : Z := (wall t mod 86400) / 3600.
Definition minute (t : Time) : Z := (wall t mod 3600) / 60.
Definition second (t : Time) : Z := wall t mod 60.

Open Scope string_scope.

(** [Time.Format] for the reference-time elements [2006], [01], [02],
    [15], [04], [05]; every other character of these layouts is
    literal. *)
Fixpoint Format (t : Time) (layout : string) : string :=
  match layout with
  | EmptyString => ""
  | String "2" (String "0" (String "0" (String "6" rest))) =>
      Fmt.appendInt (year t) 4 ++ Format t rest
  | String "0" (String "1" rest) => Fmt.appendInt (month t) 2 ++ Format t rest
  | String "0" (String "2" rest) => Fmt.appendInt (day t) 2 ++ Format t rest
  | String "1" (String "5" rest) => Fmt.appendInt (hour t) 2 ++ Format t rest
  | String "0" (String "4" rest) => Fmt.appendInt (minute t) 2 ++ Format t rest
  | String "0" (String "5" rest) => Fmt.appendInt (second t) 2 ++ Format t rest
  | String c rest => String c (Format t rest)
  end.

End Time.

(** ** ChunkUrl *)

Open Scope string_scope.

Definition ChunkUrl (t : Time.Time) (level width x y : Z) : string :=
  Fmt.Sprintf "http://himawari8.nict.go.jp/img/D531106/%dd/%d/%s_%d_%d.png"
    [Fmt.AInt level; Fmt.AInt width;
     Fmt.AStr (Time.Format (Time.UTC t) "2006/01/02/150405");
     Fmt.AInt x; Fmt.AInt y].

Close Scope string_scope.

(** ** Package [image] and [draw.Draw] *)

Module image.

Record Point : Type := { X : Z; Y : Z }.

Record Rectangle : Type := { Min : Point; Max : Point }.

Definition ZP : Point := {| X := 0; Y := 0 |}.

(** [image.Rect]: the rectangle with the given corners, put in canonical
    order. *)
Definition Rect (x0 y0 x1 y1 : Z) : Rectangle :=
  let xs := if x1 <? x0 then (x1, x0) else (x0, x1) in
  let ys := if y1 <? y0 then (y1, y0) else (y0, y1) in
  {| Min := {| X := fst xs; Y := fst ys |};
     Max := {| X := snd xs; Y := snd ys |} |}.

Definition Dx (r : Rectangle) : Z := X (Max r) - X (Min r).
Definition Dy (r : Rectangle) : Z := Y (Max r) - Y (Min r).

(** [p.In(r)] for the point [(px, py)]. *)
Definition In (px py : Z) (r : Rectangle) : bool :=
  (X (Min r) <=? px) && (px <? X (Max r)) &&
  (Y (Min r) <=? py) && (py <? Y (Max r)).

(** An image: its bounds and the colour at each point. *)
Record Image (color : Type) : Type :=
  { Bounds : Rectangle; At : Z -> Z -> color }.

Arguments Bounds {color} _.
Arguments At {color} _ _ _.

(** [image.NewRGBA]: every pixel is the zero colour. *)
Definition NewRGBA {color : Type} (zero : color) (r : Rectangle)
  : Image color :=
  {| Bounds := r; At := fun _ _ => zero |}.

End image.

(** [draw.Draw(dst, r, src, sp, draw.Src)]: [r.Min] in [dst] is aligned
    with [sp] in [src]; the points of [r] that lie in the bounds of [dst]
    and whose aligned point lies in the bounds of [src] take the colour of
    [src], converted to the colour model of [dst]; the other points keep
    theirs. *)
Definition draw_Draw {color : Type} (conv : color -> color)
    (dst : image.Image color) (r : image.Rectangle)
    (src : image.Image color) (sp : image.Point) : image.Image color :=
  {| image.Bounds := image.Bounds dst;
     image.At := fun px py =>
       let sx := px - image.X (image.Min r) + image.X sp in
       let sy := py - image.Y (image.Min r) + image.Y sp in
       if image.In px py r && image.In px py (image.Bounds dst)
          && image.In sx sy (image.Bounds src)
       then conv (image.At src sx sy)
       else image.At dst px py |}.

(** ** The environment of the package

    What the package reads from outside: the pixels' colours, the answer
    of the image server to each URL, the answer of [Latest], and the zone
    offsets [TimeWithOffset] reads from the clock and the zone database. *)

Class Env : Type := {
  color : Type;
  (** colour of a fresh RGBA canvas *)
  transparent : color;
  (** conversion of a colour to the RGBA model of the canvas *)
  toRGBA : color -> color;
  error : Type;
  (** [http.Get url] followed by [png.Decode] *)
  http_png : string -> image.Image color + error;
  (** result of [Latest()] *)
  latest_json : Time.Time + error;
  (** offset of the local zone *)
  localOff : Z;
  (** offset of Australia/Sydney; [None] when [LoadLocation] fails *)
  sydneyOff : option Z
}.

(** What a call does: it returns, it panics, or (for a pool of goroutines)
    the given schedule stops before the return. *)
Inductive exec (A : Type) : Type :=
| Returns (a : A)
| Panics
| Unfinished.

Arguments Returns {A} a.
Arguments Panics {A}.
Arguments Unfinished {A}.

(** Replace the [i]-th element of a list. *)
Fixpoint set_nth {A : Type} (i : nat) (a : A) (l : list A) : list A :=
  match l, i with
  | [], _ => []
  | _ :: l', O => a :: l'
  | b :: l', S i' => b :: set_nth i' a l'
  end.

Section Model.

Context {E : Env}.

Definition Img : Type := image.Image color.

Definition Latest : Time.Time + error := latest_json.

Definition TimeWithOffset (latest : Time.Time) : option Time.Time :=
  match sydneyOff with
  | None => None
  | Some himaOff => Some (Time.Add latest (localOff - himaOff))
  end.

Definition Chunk (t : Time.Time) (level x y : Z) : Img + error :=
  http_png (ChunkUrl t level Width x y).

(** What happens during a call of [Image], in order of occurrence. *)
Inductive event : Type :=
| EFetch (x y : Z)               (* Chunk(t, level, x, y) is called *)
| EDraw (x y : Z)                (* draw(x, y, img) is called *)
| EHandoff (x y : Z)             (* chunks <- [2]int{x, y} is received *)
| EReport (x y : Z) (e : error). (* errc <- err of chunk (x, y) *)

(** The closure [draw] of [Image], on the canvas it captures. *)
Definition draw (canvas : Img) (x y : Z) (img : Img) : Img :=
  draw_Draw toRGBA canvas
    (image.Rect (x * Width) (y * Height) ((x + 1) * Width) ((y + 1) * Height))
    img image.ZP.

(** The values [Image] returns: an image (or nil) and an error (or nil). *)
Definition retval : Type := option Img * option error.

(** *** The sequential path: a state and early-return monad *)

Record store : Type := { st_canvas : Img; st_trace : list event }.

Definition M (A : Type) : Type := store -> (A + retval) * store.

Definition ret {A : Type} (a : A) : M A := fun s => (inl a, s).

Definition bind {A B : Type} (m : M A) (k : A -> M B) : M B :=
  fun s =>
    match m s with
    | (inl a, s') => k a s'
    | (inr r, s') => (inr r, s')
    end.

Definition return_with {A : Type} (r : store -> retval) : M A :=
  fun s => (inr (r s), s).

Definition emit (e : event) : M unit :=
  fun s => (inl tt, {| st_canvas := st_canvas s; st_trace := st_trace s ++ [e] |}).

Definition call_Chunk (t : Time.Time) (level x y : Z) : M (Img + error) :=
  bind (emit (EFetch x y)) (fun _ => ret (Chunk t level x y)).

Definition call_draw (x y : Z) (img : Img) : M unit :=
  bind (emit (EDraw x y)) (fun _ s =>
    (inl tt, {| st_canvas := draw (st_canvas s) x y img; st_trace := st_trace s |})).

(** [for i := lo; i < hi; i++ { body }] *)
Fixpoint for_loop (n : nat) (i : Z) (body : Z -> M unit) : M unit :=
  match n with
  | O => ret tt
  | S n' => bind (body i) (fun _ => for_loop n' (i + 1) body)
  end.

Definition for_range (lo hi : Z) (body : Z -> M unit) : M unit :=
  for_loop (Z.to_nat (hi - lo)) lo body.

(** Lines 104-113 of [Image]. *)
Definition Image_sequential (t : Time.Time) (level : Z) : M unit :=
  bind (for_range 0 level (fun y =>
          for_range 0 level (fun x =>
            bind (call_Chunk t level x y) (fun r =>
              match r with
              | inr err => return_with (fun _ => (None, Some err))
              | inl img => call_draw x y img
              end))))
       (fun _ => return_with (fun s => (Some (st_canvas s), None))).

(** *** The pool: goroutines as a transition system *)

(** Where a worker goroutine stands. *)
Inductive worker : Type :=
| WIdle                          (* at [range chunks], ready to receive *)
| WHas (x y : Z)                 (* holds [x, y], about to call Chunk *)
| WImg (x y : Z) (img : Img)     (* Chunk succeeded, about to draw *)
| WErr (x y : Z) (e : error)     (* Chunk failed, about to send on errc *)
| WDone.                         (* returned; wg.Done() has run *)

(** Where the goroutine running [Image] stands. *)
Inductive main_pc : Type :=
| PSelect (x y : Z)              (* at the select of iteration (x, y) *)
| PFailed (e : error)            (* select received e; next close(chunks) *)
| PFailedClosed (e : error)      (* next: return canvas, err *)
| PLoopDone                      (* loops finished; next close(chunks) *)
| PWait                          (* at wg.Wait() *)
| PRetEarly (e : error)          (* returned canvas, err at line 140 *)
| PRetJoined (e : option error). (* returned canvas, <-errc at line 147 *)

Record pool : Type := {
  pc : main_pc;
  workers : list worker;
  chunks_closed : bool;
  errc : list error;             (* buffered channel, oldest first *)
  canvas : Img;                  (* the canvas all goroutines share *)
  trace : list event
}.

(** What the scheduler may let happen next. *)
Inductive action : Type :=
| Handoff (i : nat)   (* select sends [x, y] on chunks, worker i receives *)
| TakeErr             (* select receives from errc *)
| Main                (* the goroutine of Image runs its next statement *)
| Work (i : nat).     (* worker i runs its next statement *)

(** The loop counters after iteration [(x, y)]: [x++], the test of the
    inner loop, then [y++] and the test of the outer loop. *)
Definition next_select (level x y : Z) : main_pc :=
  if x + 1 <? level then PSelect (x + 1) y
  else if y + 1 <? level then
         if 0 <? level then PSelect 0 (y + 1) else PLoopDone
       else PLoopDone.

Definition first_select (level : Z) : main_pc :=
  if 0 <? level then PSelect 0 0 else PLoopDone.

Definition is_done (w : worker) : bool :=
  match w with WDone => true | _ => false end.

Definition set_worker (i : nat) (w : worker) (s : pool) : pool :=
  {| pc := pc s; workers := set_nth i w (workers s);
     chunks_closed := chunks_closed s; errc := errc s;
     canvas := canvas s; trace := trace s |}.

Definition set_pc (p : main_pc) (s : pool) : pool :=
  {| pc := p; workers := workers s;
     chunks_closed := chunks_closed s; errc := errc s;
     canvas := canvas s; trace := trace s |}.

Definition set_errc (q : list error) (s : pool) : pool :=
  {| pc := pc s; workers := workers s;
     chunks_closed := chunks_closed s; errc := q;
     canvas := canvas s; trace := trace s |}.

Definition set_canvas (c : Img) (s : pool) : pool :=
  {| pc := pc s; workers := workers s;
     chunks_closed := chunks_closed s; errc := errc s;
     canvas := c; trace := trace s |}.

Definition close_chunks (s : pool) : pool :=
  {| pc := pc s; workers := workers s;
     chunks_closed := true; errc := errc s;
     canvas := canvas s; trace := trace s |}.

Definition log (e : event) (s : pool) : pool :=
  {| pc := pc s; workers := workers s;
     chunks_closed := chunks_closed s; errc := errc s;
     canvas := canvas s; trace := trace s ++ [e] |}.

(** One step of the pool of [cap] workers (the capacity of [errc]). *)
Definition pool_step (cap : nat) (t : Time.Time) (level : Z)
    (a : action) (s : pool) : option pool :=
  match a with
  | Handoff i =>
      match pc s, nth_error (workers s) i with
      | PSelect x y, Some WIdle =>
          if chunks_closed s then None
          else Some (log (EHandoff x y)
                       (set_worker i (WHas x y)
                          (set_pc (next_select level x y) s)))
      | _, _ => None
      end
  | TakeErr =>
      match pc s, errc s with
      | PSelect _ _, err :: q => Some (set_errc q (set_pc (PFailed err) s))
      | _, _ => None
      end
  | Main =>
      match pc s with
      | PFailed err => Some (close_chunks (set_pc (PFailedClosed err) s))
      | PFailedClosed err => Some (set_pc (PRetEarly err) s)
      | PLoopDone => Some (close_chunks (set_pc PWait s))
      | PWait =>
          (* wg.Wait(); close(errc); return canvas, <-errc *)
          if forallb is_done (workers s)
          then Some (set_errc (tl (errc s))
                       (set_pc (PRetJoined (hd_error (errc s))) s))
          else None
      | PSelect _ _ | PRetEarly _ | PRetJoined _ => None
      end
  | Work i =>
      match nth_error (workers s) i with
      | Some WIdle =>
          (* the range over chunks ends once the channel is closed *)
          if chunks_closed s then Some (set_worker i WDone s) else None
      | Some (WHas x y) =>
          Some (log (EFetch x y)
                  (set_worker i
                     match Chunk t level x y with
                     | inl img => WImg x y img
                     | inr err => WErr x y err
                     end s))
      | Some (WImg x y img) =>
          Some (log (EDraw x y)
                  (set_worker i WIdle
                     (set_canvas (draw (canvas s) x y img) s)))
      | Some (WErr x y err) =>
          if (List.length (errc s) <? cap)%nat
          then Some (log (EReport x y err)
                       (set_worker i WDone (set_errc (errc s ++ [err]) s)))
          else None
      | Some WDone | None => None
      end
  end.

(** The pool when the loop of line 134 starts: [cap] workers spawned, each
    at its [range chunks]. *)
Definition pool_init (cap : nat) (level : Z) (c : Img) : pool :=
  {| pc := first_select level; workers := repeat WIdle cap;
     chunks_closed := false; errc := []; canvas := c; trace := [] |}.

(** Run a whole schedule; [None] when one of its actions is not enabled. *)
Fixpoint pool_run (cap : nat) (t : Time.Time) (level : Z)
    (sched : list action) (s : pool) : option pool :=
  match sched with
  | [] => Some s
  | a :: sched' =>
      match pool_step cap t level a s with
      | Some s' => pool_run cap t level sched' s'
      | None => None
      end
  end.

Definition returned (s : pool) : bool :=
  match pc s with PRetEarly _ | PRetJoined _ => true | _ => false end.

(** Run a schedule up to the return of [Image]; the rest of the schedule
    is what happens after the call. *)
Fixpoint run_to_return (cap : nat) (t : Time.Time) (level : Z)
    (sched : list action) (s : pool) : option pool :=
  if returned s then Some s
  else match sched with
       | [] => None
       | a :: sched' =>
           match pool_step cap t level a s with
           | Some s' => run_to_return cap t level sched' s'
           | None => None
           end
       end.

(** *** Image *)

(** What a caller and an observer see of one call: the returned values,
    the events up to the return, and where the worker goroutines stand at
    the return ([[]] when none was spawned). *)
Record outcome : Type := {
  out_img : option Img;
  out_err : option error;
  out_trace : list event;
  out_workers : list worker
}.

Definition norm_level (level : Z) : Z :=
  if level <=? 0 then DefaultLevel else level.

(** Lines 92-97. *)
Definition norm_workers (Workers level : Z) : Z :=
  if Workers <=? 0 then 1
  else let total := level * level in
       if total <? Workers then total else Workers.

Definition outcome_of_pool (s : pool) : outcome :=
  {| out_img := Some (canvas s);
     out_err := match pc s with
                | PRetEarly e => Some e
                | PRetJoined e => e
                | _ => None
                end;
     out_trace := trace s;
     out_workers := workers s |}.

Definition Image (Workers : Z) (t : Time.Time) (level : Z)
    (sched : list action) : exec outcome :=
  let level := norm_level level in
  if level =? 1 then
    Returns
      match Chunk t level 0 0 with
      | inl img => {| out_img := Some img; out_err := None;
                      out_trace := [EFetch 0 0]; out_workers := [] |}
      | inr err => {| out_img := None; out_err := Some err;
                      out_trace := [EFetch 0 0]; out_workers := [] |}
      end
  else
    let workers := norm_workers Workers level in
    let canvas :=
      image.NewRGBA transparent
        (image.Rect 0 0 (level * Width) (level * Height)) in
    if workers =? 1 then
      match Image_sequential t level {| st_canvas := canvas; st_trace := [] |} with
      | (inr (img, err), s) =>
          Returns {| out_img := img; out_err := err;
                     out_trace := st_trace s; out_workers := [] |}
      | (inl _, _) => Unfinished
      end
    else
      match run_to_return (Z.to_nat workers) t level sched
              (pool_init (Z.to_nat workers) level canvas) with
      | Some s => Returns (outcome_of_pool s)
      | None => Unfinished
      end.

Definition LatestImage (Workers : Z) (level : Z) (offsetTime : bool)
    (sched : list action) : exec outcome :=
  let level := norm_level level in
  match Latest with
  | inr err => Returns {| out_img := None; out_err := Some err;
                          out_trace := []; out_workers := [] |}
  | inl t =>
      if offsetTime then
        match TimeWithOffset t with
        | None => Panics
        | Some t' => Image Workers t' level sched
        end
      else Image Workers t level sched
  end.

End Model.

(** ** The URL of a chunk, as the documentation of the server states it *)

Open Scope string_scope.

(** The date and time of an instant (seconds since the epoch) in UTC,
    written as [2006/01/02/150405]. *)
Definition utc_stamp (secs : Z) : string :=
  let ymd := Time.civil (secs / 86400) in
  Fmt.appendInt (fst (fst ymd)) 4 ++ "/" ++
  Fmt.appendInt (snd (fst ymd)) 2 ++ "/" ++
  Fmt.appendInt (snd ymd) 2 ++ "/" ++
  Fmt.appendInt ((secs mod 86400) / 3600)%Z 2 ++
  Fmt.appendInt ((secs mod 3600) / 60)%Z 2 ++
  Fmt.appendInt (secs mod 60)%Z 2.

Definition url_template (level width secs x y : Z) : string :=
  "http://himawari8.nict.go.jp/img/D531106/" ++ Fmt.itoa level ++ "d/" ++
  Fmt.itoa width ++ "/" ++ utc_stamp secs ++ "_" ++
  Fmt.itoa x ++ "_" ++ Fmt.itoa y ++ ".png".

Close Scope string_scope.

(** ** The grid and what a trace says *)

Abbreviation coord := (Z * Z)%type (only parsing).

Definition coord_eq_dec (a b : coord) : {a = b} + {a <> b}.
Proof. decide equality; apply Z.eq_dec. Defined.

(** The integers [lo], [lo+1], ..., [hi-1]. *)
Definition zrange (lo hi : Z) : list Z :=
  map (fun k => lo + Z.of_nat k) (seq 0 (Z.to_nat (hi - lo))).

(** The coordinates of row [y] from column [x0] on. *)
Definition row (level y x0 : Z) : list coord :=
  map (fun x => (x, y)) (zrange x0 level).

(** The grid in row-major order: [y] outside, [x] inside. *)
Definition grid (level : Z) : list coord :=
  flat_map (fun y => row level y 0) (zrange 0 level).

(** The coordinates from [(x, y)] on, in row-major order. *)
Definition remaining (level x y : Z) : list coord :=
  row level y x ++ flat_map (fun y' => row level y' 0) (zrange (y + 1) level).

Definition count (c : coord) (l : list coord) : nat :=
  count_occ coord_eq_dec l c.

(** The rectangle of chunk [(x, y)]. *)
Definition in_tile (x y px py : Z) : Prop :=
  x * Width <= px < (x + 1) * Width /\ y * Height <= py < (y + 1) * Height.

Section Spec.

Context {E : Env}.

Definition handoffs (tr : list event) : list coord :=
  flat_map (fun e => match e with EHandoff x y => [(x, y)] | _ => [] end) tr.

Definition fetches (tr : list event) : list coord :=
  flat_map (fun e => match e with EFetch x y => [(x, y)] | _ => [] end) tr.

Definition draws (tr : list event) : list coord :=
  flat_map (fun e => match e with EDraw x y => [(x, y)] | _ => [] end) tr.

Definition reports (tr : list event) : list coord :=
  flat_map (fun e => match e with EReport x y _ => [(x, y)] | _ => [] end) tr.

(** The errors sent on [errc], first sent first. *)
Definition report_errs (tr : list event) : list error :=
  flat_map (fun e => match e with EReport _ _ err => [err] | _ => [] end) tr.


(** The events of fetching and drawing one chunk. *)
Definition fetch_draw (c : coord) : list event :=
  [EFetch (fst c) (snd c); EDraw (fst c) (snd c)].

(** The sequential path, told as one pass over a list of coordinates. *)
Fixpoint seq_pass (t : Time.Time) (level : Z) (cs : list coord) (s : store)
  : retval * store :=
  match cs with
  | [] => ((Some (st_canvas s), None), s)
  | (x, y) :: cs' =>
      let tr := st_trace s ++ [EFetch x y] in
      match Chunk t level x y with
      | inr err => ((None, Some err), {| st_canvas := st_canvas s; st_trace := tr |})
      | inl img =>
          seq_pass t level cs'
            {| st_canvas := draw (st_canvas s) x y img;
               st_trace := tr ++ [EDraw x y] |}
      end
  end.

(** Every chunk of [cs] is served. *)
Definition served (t : Time.Time) (level : Z) (cs : list coord) : Prop :=
  forall c, List.In c cs -> exists img, Chunk t level (fst c) (snd c) = inl img.

(** The canvas of line 98 and the empty trace. *)
Definition fresh (level : Z) : store :=
  {| st_canvas := image.NewRGBA transparent
                    (image.Rect 0 0 (level * Width) (level * Height));
     st_trace := [] |}.

(** The body of the inner loop, lines 106-110. *)
Definition seq_body (t : Time.Time) (level x y : Z) : M unit :=
  bind (call_Chunk t level x y) (fun r =>
    match r with
    | inr err => return_with (fun _ => (None, Some err))
    | inl img => call_draw x y img
    end).

(** A loop body run over a list. *)
Fixpoint iter_list {A : Type} (l : list A) (body : A -> M unit) : M unit :=
  match l with
  | [] => ret tt
  | a :: l' => bind (body a) (fun _ => iter_list l' body)
  end.


(** A canvas of the level that holds the chunks of [drawn] and nothing
    else. *)
Record canvas_ok (t : Time.Time) (level : Z) (cv : Img)
    (drawn : list coord) : Prop := {
  cv_bounds :
    image.Bounds cv = image.Rect 0 0 (level * Width) (level * Height);
  cv_tile :
    forall x y img px py,
      List.In (x, y) drawn ->
      Chunk t level x y = inl img ->
      in_tile x y px py ->
      image.In px py (image.Bounds cv) = true ->
      image.In (px - x * Width) (py - y * Height) (image.Bounds img) = true ->
      image.At cv px py
      = toRGBA (image.At img (px - x * Width) (py - y * Height));
  cv_blank :
    forall px py,
      (forall x y, List.In (x, y) drawn -> ~ in_tile x y px py) ->
      image.At cv px py = transparent
}.

(** *** What the workers hold, counted *)

Definition wsum (g : worker -> nat) (ws : list worker) : nat :=
  list_sum (map g ws).

Definition hit (c : coord) (x y : Z) : nat :=
  if coord_eq_dec (x, y) c then 1%nat else 0%nat.

(** Worker holds [c], not yet fetched. *)
Definition has (c : coord) (w : worker) : nat :=
  match w with WHas x y => hit c x y | _ => 0%nat end.

(** Worker holds the result of fetching [c]. *)
Definition got (c : coord) (w : worker) : nat :=
  match w with
  | WImg x y _ | WErr x y _ => hit c x y
  | _ => 0%nat
  end.

Definition done_n (w : worker) : nat :=
  if is_done w then 1%nat else 0%nat.

(** Steps a worker can still take without a new chunk. *)
Definition weight (w : worker) : nat :=
  match w with
  | WHas _ _ => 4%nat
  | WImg _ _ _ | WErr _ _ _ => 3%nat
  | WIdle => 1%nat
  | WDone => 0%nat
  end.

(** The number of goroutines of the pool. *)
Definition pool_size (Workers level : Z) : nat :=
  Z.to_nat (norm_workers Workers level).

(** Worker is between receiving a chunk and finishing with it. *)
Definition busy (w : worker) : bool :=
  match w with
  | WHas _ _ | WImg _ _ _ | WErr _ _ _ => true
  | WIdle | WDone => false
  end.

Definition todo (level : Z) (p : main_pc) : list coord :=
  match p with PSelect x y => remaining level x y | _ => [] end.

Definition phase (level : Z) (p : main_pc) : nat :=
  match p with
  | PSelect x y => 3 + 4 * List.length (remaining level x y)
  | PFailed _ | PLoopDone => 2
  | PFailedClosed _ | PWait => 1
  | PRetEarly _ | PRetJoined _ => 0
  end%nat.

(** A bound on the steps the pool can still take. *)
Definition measure (level : Z) (s : pool) : nat :=
  (phase level (pc s) + wsum weight (workers s))%nat.

Definition worker_ok (t : Time.Time) (level : Z) (w : worker) : Prop :=
  match w with
  | WImg x y img => Chunk t level x y = inl img
  | WErr x y err => Chunk t level x y = inr err
  | _ => True
  end.

Definition event_ok (t : Time.Time) (level : Z) (e : event) : Prop :=
  match e with
  | EDraw x y => exists img, Chunk t level x y = inl img
  | EReport x y err => Chunk t level x y = inr err
  | _ => True
  end.

(** The invariant of the pool. *)
Record Inv (cap : nat) (t : Time.Time) (level : Z) (s : pool) : Prop := {
  inv_len : List.length (workers s) = cap;
  inv_pc : match pc s with
           | PSelect x y => 0 <= x < level /\ 0 <= y < level
           | _ => True
           end;
  inv_sent : exists rest,
      handoffs (trace s) ++ rest = grid level /\
      match pc s with
      | PSelect x y => rest = remaining level x y
      | PLoopDone | PWait | PRetJoined _ => rest = []
      | PFailed _ | PFailedClosed _ | PRetEarly _ => rest <> []
      end;
  inv_has : forall c,
      count c (handoffs (trace s))
      = (wsum (has c) (workers s) + count c (fetches (trace s)))%nat;
  inv_got : forall c,
      count c (fetches (trace s))
      = (count c (draws (trace s)) + wsum (got c) (workers s)
         + count c (reports (trace s)))%nat;
  inv_workers : Forall (worker_ok t level) (workers s);
  inv_events : Forall (event_ok t level) (trace s);
  inv_errc : match pc s with
             | PSelect _ _ | PLoopDone | PWait =>
                 errc s = report_errs (trace s)
             | PFailed e | PFailedClosed e | PRetEarly e =>
                 e :: errc s = report_errs (trace s)
             | PRetJoined eo =>
                 eo = hd_error (report_errs (trace s))
                 /\ errc s = tl (report_errs (trace s))
             end;
  inv_closed : chunks_closed s
               = match pc s with
                 | PSelect _ _ | PFailed _ | PLoopDone => false
                 | _ => true
                 end;
  inv_done : (List.length (report_errs (trace s))
              <= wsum done_n (workers s))%nat
             /\ (chunks_closed s = false ->
                 List.length (report_errs (trace s))
                 = wsum done_n (workers s));
  inv_joined : match pc s with
               | PRetJoined _ => Forall (fun w => w = WDone) (workers s)
               | _ => True
               end;
  inv_canvas : canvas_ok t level (canvas s) (draws (trace s))
}.

End Spec.

(** ** Test environments *)

Module Demo.

Open Scope string_scope.

(** A chunk of one colour. *)
Definition solid (c : Z) : image.Image Z :=
  {| image.Bounds := image.Rect 0 0 Width Height;
     image.At := fun px py =>
       if image.In px py (image.Rect 0 0 Width Height) then c else 0%Z |}.

(** A colour for a URL: the code of its character before [_y.png]. *)
Definition hue (url : string) : Z :=
  fold_right (fun ch acc => (Z.of_nat (nat_of_ascii ch) + 31 * acc) mod 1000)%Z
    0%Z (list_ascii_of_string url).

(** A server that fails for the URLs of [bad] and serves a chunk of one
    colour for every other URL. *)
Definition server (bad : list string) : Env :=
  {| color := Z;
     transparent := 0%Z;
     toRGBA := fun c => c;
     error := string;
     http_png := fun url =>
       if existsb (String.eqb url) bad
       then inr ("png: invalid format: " ++ url)
       else inl (solid (hue url));
     latest_json :=
       inl {| Time.unix := 1468834200; Time.nsec := 0;
              Time.loc := Time.UTCLoc |};
     localOff := 7200%Z;
     sydneyOff := Some 36000%Z |}.

Definition t0 : Time.Time :=
  {| Time.unix := 1468834200; Time.nsec := 0;
     Time.loc := {| Time.lookup := fun _ => 36000%Z |} |}.

Definition url (level x y : Z) : string := ChunkUrl t0 level Width x y.

(** Every chunk is served. *)
Definition good : Env := server [].

(** Chunk (0, 0) of level 2 fails. *)
Definition bad00 : Env := server [url 2 0 0].

(** Chunk (1, 0) of level 2 fails. *)
Definition bad10 : Env := server [url 2 1 0].

(** Chunk (0, 0) of level 1 fails. *)
Definition bad1 : Env := server [url 1 0 0].

Close Scope string_scope.

(** Two workers, level 2: every chunk is handed off, fetched and drawn,
    then the workers end and [Image] joins them. *)
Definition sched_good : list action :=
  [Handoff 0; Handoff 1; Work 0; Work 0; Work 1; Work 1;
   Handoff 1; Handoff 0; Work 0; Work 1; Work 0; Work 1;
   Main; Work 0; Work 1; Main].

(** Two workers, level 2: worker 0 fails on its chunk while worker 1
    receives the next one; [Image] takes the error and returns. *)
Definition sched_leak : list action :=
  [Handoff 0; Work 0; Handoff 1; Work 0; TakeErr; Main; Main].

Definition result_of {E : Env} (e : exec outcome) : outcome :=
  match e with
  | Returns o => o
  | _ => {| out_img := None; out_err := None;
            out_trace := []; out_workers := [] |}
  end.

Definition is_returns {A : Type} (e : exec A) : bool :=
  match e with Returns _ => true | _ => false end.

Definition state_of {E : Env} (d : pool) (o : option pool) : pool :=
  match o with Some s => s | None => d end.

Definition is_some {A : Type} (o : option A) : bool :=
  match o with Some _ => true | None => false end.

Definition out_good : @outcome good :=
  result_of (Image 2 t0 2 sched_good).

Definition out_leak : @outcome bad00 :=
  result_of (Image 2 t0 2 sched_leak).

Definition out_seq : @outcome bad10 :=
  result_of (Image 1 t0 2 []).

(** The pool of [out_leak] at the return of [Image]. *)
Definition s_leak : @pool bad00 :=
  state_of (pool_init 2 2 (st_canvas (fresh 2)))
    (run_to_return 2 t0 2 sched_leak (pool_init 2 2 (st_canvas (fresh 2)))).

(** The same pool after worker 1 has run to its end. *)
Definition s_after : @pool bad00 :=
  state_of s_leak (pool_run 2 t0 2 [Work 1; Work 1; Work 1] s_leak).


(** The instant of [t0], presented in UTC. *)
Definition t0_utc : Time.Time := Time.UTC t0.

(** The run of [sched_leak] to its end. *)
Definition s_run : @pool bad00 :=
  state_of (pool_init 2 2 (st_canvas (fresh 2)))
    (pool_run 2 t0 2 sched_leak (pool_init 2 2 (st_canvas (fresh 2)))).

(** The date of [t0] as [latest.json] gives it, and an error for a date
    that does not parse. *)
Definition date : string := "2016-07-18 09:30:00".
Definition bad_date : string := "parsing time: cannot parse".

End Demo.

(** * Further definitions *)

(** ** The pool of a call *)

Section Calls.

Context {E : Env}.

(** The pool as [Image] starts it for a level and a number of workers. *)
Definition pool_start (cap : nat) (level : Z) : pool :=
  pool_init cap level (st_canvas (fresh level)).

(** [s] is a state of the pool of the call [Image(t, level)] with the
    global [Workers]: the call takes the path of the pool, and some
    schedule leads from the start of the pool to [s] (before or after the
    return of [Image]). *)
Definition in_call (Workers : Z) (t : Time.Time) (level : Z) (s : pool)
  : Prop :=
  norm_level level <> 1
  /\ norm_workers Workers (norm_level level) <> 1
  /\ exists sched,
       pool_run (pool_size Workers (norm_level level)) t (norm_level level)
         sched (pool_start (pool_size Workers (norm_level level))
                  (norm_level level)) = Some s.

(** Some step of the pool is enabled. *)
Definition can_step (cap : nat) (t : Time.Time) (level : Z) (s : pool)
  : Prop :=
  exists a s', pool_step cap t level a s = Some s'.

Definition all_done (ws : list worker) : Prop :=
  Forall (fun w => w = WDone) ws.

(** Worker holds a chunk it has not fetched yet. *)
Definition holds (w : worker) : nat :=
  match w with WHas _ _ => 1%nat | _ => 0%nat end.

End Calls.

Section Rendering.

Context {E : Env}.



End Rendering.

(** ** Reading decimal numbers *)

Module Digits.

Definition is_digit (c : ascii) : bool :=
  (48 <=? nat_of_ascii c)%nat && (nat_of_ascii c <=? 57)%nat.

Fixpoint all_digits (s : string) : bool :=
  match s with
  | EmptyString => true
  | String c r => is_digit c && all_digits r
  end.

Definition digit_val (c : ascii) : Z := Z.of_nat (nat_of_ascii c) - 48.

(** The number a string of digits writes, most significant digit first. *)
Fixpoint val (s : string) : Z :=
  match s with
  | EmptyString => 0
  | String c r => digit_val c * 10 ^ Z.of_nat (String.length r) + val r
  end.

End Digits.

Section Requests.

Context {E : Env}.

(** The URLs asked of the server during a call, in order. *)
Definition requests (t : Time.Time) (level : Z) (tr : list event)
  : list string :=
  map (fun c => ChunkUrl t level Width (fst c) (snd c)) (fetches tr).

End Requests.

(** ** The date of [latest.json]: [time.Parse] *)

(** [time.Parse] of the standard library, for layouts made of the
    elements [2006], [01], [02], [15], [04], [05] and of literal
    characters, such as the layout of [Latest]; the result is in UTC, as
    for every layout without a zone.  A comma may stand for the period of
    a fraction of a second, as in the current releases of Go. *)

Module Parse.

Open Scope string_scope.

(** [getnum]: a number of one or two digits at the head of [s], and the
    rest; [fixed] asks for two digits. *)
Definition getnum (s : string) (fixed : bool) : option (Z * string) :=
  match s with
  | String a r =>
      if Digits.is_digit a then
        match r with
        | String b r' =>
            if Digits.is_digit b
            then Some (Digits.digit_val a * 10 + Digits.digit_val b, r')
            else if fixed then None else Some (Digits.digit_val a, r)
        | EmptyString => if fixed then None else Some (Digits.digit_val a, r)
        end
      else None
  | EmptyString => None
  end.

(** The element [2006]: four characters, all of them digits ([atoi] of
    [value[0:4]], whose first character is a digit). *)
Definition getyear (s : string) : option (Z * string) :=
  match s with
  | String a (String b (String c (String d r))) =>
      let p := String a (String b (String c (String d ""))) in
      if Digits.all_digits p then Some (Digits.val p, r) else None
  | _ => None
  end.

Fixpoint cutspace (s : string) : string :=
  match s with
  | String " " r => cutspace r
  | _ => s
  end.

(** The digits at the head of a string, and the rest. *)
Fixpoint span_digits (s : string) : string * string :=
  match s with
  | String c r =>
      if Digits.is_digit c
      then (String c (fst (span_digits r)), snd (span_digits r))
      else ("", s)
  | EmptyString => ("", "")
  end.

Definition commaOrPeriod (c : ascii) : bool :=
  Ascii.eqb c "." || Ascii.eqb c ",".

(** A fraction of a second in the value where the layout has none, after
    the seconds: a period or a comma and digits, of which the first nine
    count ([parseNanoseconds]).  Gives the nanoseconds and the rest. *)
Definition fraction (value : string) : Z * string :=
  match value with
  | String p (String d r) =>
      if commaOrPeriod p && Digits.is_digit d then
        let ds := substring 0 9 (fst (span_digits (String d r))) in
        (Digits.val ds * 10 ^ Z.of_nat (9 - String.length ds),
         snd (span_digits (String d r)))
      else (0, value)
  | _ => (0, value)
  end.

(** The fields of the time being built. *)
Record fields : Type :=
  { year : Z; month : Z; day : Z; hour : Z; min : Z; sec : Z; nsec : Z }.

Definition unset : fields :=
  {| year := 0; month := -1; day := -1; hour := 0; min := 0; sec := 0;
     nsec := 0 |}.

(** The loop of [parse] over the layout, for the elements [2006], [01],
    [02], [15], [04], [05] separated by literal characters; a space of the
    layout stands for any number of spaces of the value ([skip]). *)
Fixpoint scan (layout value : string) (f : fields) : option fields :=
  match layout with
  | EmptyString =>
      match value with
      | EmptyString => Some f
      | _ => None                                  (* extra text *)
      end
  | String "2" (String "0" (String "0" (String "6" rest))) =>
      match getyear value with
      | Some (n, v) =>
          scan rest v
            {| year := n; month := month f; day := day f; hour := hour f;
               min := min f; sec := sec f; nsec := nsec f |}
      | None => None
      end
  | String "0" (String "1" rest) =>
      match getnum value true with
      | Some (n, v) =>
          if ((n <=? 0) || (12 <? n))%Z then None      (* month out of range *)
          else scan rest v
                 {| year := year f; month := n; day := day f; hour := hour f;
                    min := min f; sec := sec f; nsec := nsec f |}
      | None => None
      end
  | String "0" (String "2" rest) =>
      match getnum value true with
      | Some (n, v) =>
          scan rest v
            {| year := year f; month := month f; day := n; hour := hour f;
               min := min f; sec := sec f; nsec := nsec f |}
      | None => None
      end
  | String "1" (String "5" rest) =>
      match getnum value false with
      | Some (n, v) =>
          if ((n <? 0) || (24 <=? n))%Z then None      (* hour out of range *)
          else scan rest v
                 {| year := year f; month := month f; day := day f; hour := n;
                    min := min f; sec := sec f; nsec := nsec f |}
      | None => None
      end
  | String "0" (String "4" rest) =>
      match getnum value true with
      | Some (n, v) =>
          if ((n <? 0) || (60 <=? n))%Z then None      (* minute out of range *)
          else scan rest v
                 {| year := year f; month := month f; day := day f;
                    hour := hour f; min := n; sec := sec f; nsec := nsec f |}
      | None => None
      end
  | String "0" (String "5" rest) =>
      match getnum value true with
      | Some (n, v) =>
          if ((n <? 0) || (60 <=? n))%Z then None      (* second out of range *)
          else scan rest (snd (fraction v))
                 {| year := year f; month := month f; day := day f;
                    hour := hour f; min := min f; sec := n;
                    nsec := fst (fraction v) |}
      | None => None
      end
  | String " " rest =>
      match value with
      | String c _ =>
          if Ascii.eqb c " " then scan rest (cutspace value) f else None
      | EmptyString => scan rest value f
      end
  | String c rest =>
      match value with
      | String c' v => if Ascii.eqb c' c then scan rest v f else None
      | EmptyString => None
      end
  end.

Definition isLeap (year : Z) : bool :=
  ((Z.rem year 4 =? 0)
   && (negb (Z.rem year 100 =? 0) || (Z.rem year 400 =? 0)))%Z.

(** [daysBefore[m]]: the days of a common year before month [m + 1]. *)
Definition daysBefore (m : Z) : Z :=
  nth (Z.to_nat m) [0; 31; 59; 90; 120; 151; 181; 212; 243; 273; 304; 334; 365]
    0.

Definition daysIn (m year : Z) : Z :=
  if (m =? 2)%Z && isLeap year then 29
  else daysBefore m - daysBefore (m - 1).

(** The days from 1970-01-01 to the first day of a year. *)
Definition daysSinceEpoch (year : Z) : Z :=
  let y := year - 1 in
  365 * y + y / 4 - y / 100 + y / 400 - 719162.

(** The days from 1970-01-01 to a day of a month of a year. *)
Definition daysTo (year month day : Z) : Z :=
  daysSinceEpoch year + daysBefore (month - 1)
  + (if isLeap year && (3 <=? month)%Z then 1 else 0)
  + (day - 1).

(** [time.Date] in UTC, for a month, a day and a time of day in their
    ranges, as [Parse] has checked them. *)
Definition Date (year month day hour min sec nsec : Z) : Time.Time :=
  {| Time.unix :=
       daysTo year month day * 86400 + hour * 3600 + min * 60 + sec;
     Time.nsec := nsec;
     Time.loc := Time.UTCLoc |}.

(** [time.Parse(layout, value)]; [None] stands for a [*ParseError]. *)
Definition Parse (layout value : string) : option Time.Time :=
  match scan layout value unset with
  | None => None
  | Some f =>
      let month := if (month f <? 0)%Z then 1 else month f in
      let day := if (day f <? 0)%Z then 1 else day f in
      if ((day <? 1) || (daysIn month (year f) <? day))%Z
      then None                                    (* day out of range *)
      else Some (Date (year f) month day (hour f) (min f) (sec f) (nsec f))
  end.

End Parse.

Open Scope string_scope.

(** The layout of the field [date] of [latest.json]. *)
Definition date_layout : string := "2006-01-02 15:04:05".

(** A date and a time of day written in that layout. *)
Definition date_string (y m d h mi s : Z) : string :=
  Fmt.appendInt y 4 ++ "-" ++ Fmt.appendInt m 2 ++ "-" ++
  Fmt.appendInt d 2 ++ " " ++ Fmt.appendInt h 2 ++ ":" ++
  Fmt.appendInt mi 2 ++ ":" ++ Fmt.appendInt s 2.

(** The same date and time as the URL of a chunk carries them. *)
Definition date_stamp (y m d h mi s : Z) : string :=
  Fmt.appendInt y 4 ++ "/" ++ Fmt.appendInt m 2 ++ "/" ++
  Fmt.appendInt d 2 ++ "/" ++ Fmt.appendInt h 2 ++
  Fmt.appendInt mi 2 ++ Fmt.appendInt s 2.

(** The URL of a chunk for a date and time written as [stamp]. *)
Definition url_with (level width : Z) (stamp : string) (x y : Z) : string :=
  "http://himawari8.nict.go.jp/img/D531106/" ++ Fmt.itoa level ++ "d/" ++
  Fmt.itoa width ++ "/" ++ stamp ++ "_" ++
  Fmt.itoa x ++ "_" ++ Fmt.itoa y ++ ".png".

Close Scope string_scope.

Section LatestDate.

Context {E : Env}.

(** [Latest] once the body is decoded (lines 43 to 47): [date] is the
    field [Date], [perr] the error of a date that does not parse. *)
Definition Latest_of (date : string) (perr : error) : Time.Time + error :=
  match Parse.Parse date_layout date with
  | Some t => inl t
  | None => inr perr
  end.

End LatestDate.

(** * Properties *)

Lemma append_assoc (a b c : string) :
  ((a ++ b) ++ c)%string = (a ++ (b ++ c))%string.
Proof.
  induction a as [|ch a IH]; simpl; [reflexivity|now rewrite IH].
Qed.

Lemma append_nil_r (a : string) : (a ++ "")%string = a.
Proof.
  induction a as [|ch a IH]; simpl; [reflexivity|now rewrite IH].
Qed.

Lemma wall_UTC (t : Time.Time) : Time.wall (Time.UTC t) = Time.unix t.
Proof. unfold Time.wall, Time.UTC; simpl. lia. Qed.

Lemma Format_stamp (t : Time.Time) :
  Time.Format (Time.UTC t) "2006/01/02/150405" = utc_stamp (Time.unix t).
Proof.
  cbn [Time.Format].
  unfold utc_stamp, Time.year, Time.month, Time.day, Time.hour, Time.minute,
    Time.second.
  rewrite wall_UTC.
  repeat (rewrite ?append_assoc; cbn [append]).
  now rewrite append_nil_r.
Qed.

(** C8. [ChunkUrl] is a function of its five arguments that returns the
    fixed template: the server's prefix, the level followed by [d], the
    width, the instant written in UTC as [2006/01/02/150405], the two
    coordinates, and [.png]; two times that denote the same instant,
    whatever their locations, give the same URL. *)
Theorem ChunkUrl_template :
  forall (t : Time.Time) (level width x y : Z),
    ChunkUrl t level width x y = url_template level width (Time.unix t) x y
    /\ (forall t' : Time.Time,
          Time.unix t' = Time.unix t ->
          ChunkUrl t' level width x y = ChunkUrl t level width x y).
Proof.
  assert (H : forall t level width x y,
             ChunkUrl t level width x y
             = url_template level width (Time.unix t) x y).
  { intros t level width x y. unfold ChunkUrl.
    rewrite Format_stamp. unfold url_template.
    cbn [Fmt.Sprintf Fmt.extra].
    repeat (rewrite ?append_assoc; cbn [append]).
    reflexivity. }
  intros t level width x y. split.
  - apply H.
  - intros t' Heq. now rewrite !H, Heq.
Qed.

(** ** Ranges and the grid *)

Lemma zrange_nil (lo hi : Z) : hi <= lo -> zrange lo hi = [].
Proof.
  intros H. unfold zrange.
  replace (Z.to_nat (hi - lo)) with O by lia. reflexivity.
Qed.

Lemma zrange_cons (lo hi : Z) :
  lo < hi -> zrange lo hi = lo :: zrange (lo + 1) hi.
Proof.
  intros H. unfold zrange.
  replace (Z.to_nat (hi - lo)) with (S (Z.to_nat (hi - (lo + 1)))) by lia.
  cbn [seq map]. f_equal; [lia|].
  rewrite <- seq_shift, map_map.
  apply map_ext. intros k. lia.
Qed.

Lemma in_zrange (lo hi k : Z) : List.In k (zrange lo hi) <-> lo <= k < hi.
Proof.
  unfold zrange. rewrite in_map_iff. split.
  - intros (n & <- & Hn). apply in_seq in Hn. lia.
  - intros Hk. exists (Z.to_nat (k - lo)). split; [lia|].
    apply in_seq. lia.
Qed.

Lemma NoDup_zrange (lo hi : Z) : NoDup (zrange lo hi).
Proof.
  unfold zrange. apply Finite.Injective_map_NoDup.
  - intros a b Hab. lia.
  - apply seq_NoDup.
Qed.

Lemma in_row (level y x0 x y' : Z) :
  List.In (x, y') (row level y x0) <-> y' = y /\ x0 <= x < level.
Proof.
  unfold row. rewrite in_map_iff. split.
  - intros (k & Hk & Hin). inversion Hk; subst.
    apply in_zrange in Hin. lia.
  - intros (-> & Hx). exists x. split; [reflexivity|].
    now apply in_zrange.
Qed.

Lemma NoDup_row (level y x0 : Z) : NoDup (row level y x0).
Proof.
  unfold row. apply Finite.Injective_map_NoDup.
  - intros a b Hab. now inversion Hab.
  - apply NoDup_zrange.
Qed.

Lemma in_rows (level : Z) (ys : list Z) (x y : Z) :
  List.In (x, y) (flat_map (fun y' => row level y' 0) ys)
  <-> List.In y ys /\ 0 <= x < level.
Proof.
  rewrite in_flat_map. split.
  - intros (y' & Hy' & Hin). apply in_row in Hin. destruct Hin as [-> Hx].
    now split.
  - intros (Hy & Hx). exists y. split; [assumption|].
    apply in_row. now split.
Qed.

Lemma NoDup_rows (level : Z) (ys : list Z) :
  NoDup ys -> NoDup (flat_map (fun y' => row level y' 0) ys).
Proof.
  induction 1 as [|y ys Hy Hnd IH]; cbn [flat_map]; [constructor|].
  apply NoDup_app; [apply NoDup_row|assumption|].
  intros [x y'] Hin Hin'.
  apply in_row in Hin. destruct Hin as [-> _].
  apply in_rows in Hin'. now destruct Hin'.
Qed.

Lemma in_grid (level x y : Z) :
  List.In (x, y) (grid level) <-> 0 <= x < level /\ 0 <= y < level.
Proof.
  unfold grid. rewrite in_rows, in_zrange. tauto.
Qed.

Lemma NoDup_grid (level : Z) : NoDup (grid level).
Proof. apply NoDup_rows, NoDup_zrange. Qed.

Lemma grid_remaining (level : Z) : 0 < level -> grid level = remaining level 0 0.
Proof.
  intros H. unfold grid, remaining.
  rewrite (zrange_cons 0 level) by lia. reflexivity.
Qed.

Lemma remaining_inner (level x y : Z) :
  x + 1 < level -> 0 <= x ->
  remaining level x y = (x, y) :: remaining level (x + 1) y.
Proof.
  intros H H0. unfold remaining, row.
  rewrite (zrange_cons x level) by lia. reflexivity.
Qed.

Lemma remaining_outer (level x y : Z) :
  x < level -> level <= x + 1 -> y + 1 < level ->
  remaining level x y = (x, y) :: remaining level 0 (y + 1).
Proof.
  intros H1 H2 H3. unfold remaining at 1. unfold row at 1.
  rewrite (zrange_cons x level) by lia.
  rewrite (zrange_nil (x + 1) level) by lia.
  rewrite (zrange_cons (y + 1) level) by lia. reflexivity.
Qed.

Lemma remaining_last (level x y : Z) :
  x < level -> level <= x + 1 -> level <= y + 1 ->
  remaining level x y = [(x, y)].
Proof.
  intros H1 H2 H3. unfold remaining, row.
  rewrite (zrange_cons x level) by lia.
  rewrite (zrange_nil (x + 1) level) by lia.
  rewrite (zrange_nil (y + 1) level) by lia. reflexivity.
Qed.

Lemma length_zrange (lo hi : Z) : List.length (zrange lo hi) = Z.to_nat (hi - lo).
Proof. unfold zrange. now rewrite length_map, length_seq. Qed.

Lemma count_app (c : coord) (l1 l2 : list coord) :
  count c (l1 ++ l2) = (count c l1 + count c l2)%nat.
Proof. apply count_occ_app. Qed.

Lemma count_in (c : coord) (l : list coord) :
  List.In c l <-> (0 < count c l)%nat.
Proof. apply count_occ_In. Qed.

Lemma count_NoDup (l : list coord) :
  NoDup l <-> forall c, (count c l <= 1)%nat.
Proof. apply NoDup_count_occ. Qed.

(** ** Rectangles and the canvas *)

Lemma Rect_canon (x0 y0 x1 y1 : Z) :
  x0 <= x1 -> y0 <= y1 ->
  image.Rect x0 y0 x1 y1
  = {| image.Min := {| image.X := x0; image.Y := y0 |};
       image.Max := {| image.X := x1; image.Y := y1 |} |}.
Proof.
  intros Hx Hy. unfold image.Rect.
  destruct (Z.ltb_spec x1 x0); [lia|].
  destruct (Z.ltb_spec y1 y0); [lia|]. reflexivity.
Qed.

Lemma In_Rect (x0 y0 x1 y1 px py : Z) :
  x0 <= x1 -> y0 <= y1 ->
  image.In px py (image.Rect x0 y0 x1 y1) = true
  <-> (x0 <= px < x1 /\ y0 <= py < y1).
Proof.
  intros Hx Hy. rewrite Rect_canon by assumption.
  unfold image.In; cbn.
  rewrite !andb_true_iff, !Z.leb_le, !Z.ltb_lt. lia.
Qed.

Lemma tile_rect_In (x y px py : Z) :
  image.In px py
    (image.Rect (x * Width) (y * Height) ((x + 1) * Width) ((y + 1) * Height))
  = true <-> in_tile x y px py.
Proof.
  unfold in_tile. apply In_Rect; unfold Height, Width; lia.
Qed.

Lemma in_tile_inj (x y x' y' px py : Z) :
  in_tile x y px py -> in_tile x' y' px py -> x = x' /\ y = y'.
Proof. unfold in_tile, Height, Width. lia. Qed.



Section CanvasFacts.

Context {E : Env}.

Lemma canvas_ok_new (t : Time.Time) (level : Z) :
  canvas_ok t level
    (image.NewRGBA transparent
       (image.Rect 0 0 (level * Width) (level * Height))) [].
Proof.
  split; cbn; [reflexivity| |reflexivity].
  intros x y img px py [].
Qed.

Lemma draw_At_in (cv : Img) (x y : Z) (img : Img) (px py : Z) :
  in_tile x y px py ->
  image.In px py (image.Bounds cv) = true ->
  image.In (px - x * Width) (py - y * Height) (image.Bounds img) = true ->
  image.At (draw cv x y img) px py
  = toRGBA (image.At img (px - x * Width) (py - y * Height)).
Proof.
  intros Ht Hcv Himg. unfold draw, draw_Draw. cbn [image.At].
  apply tile_rect_In in Ht. rewrite Ht, Hcv. cbn [andb].
  rewrite Rect_canon by (unfold Height, Width; lia). cbn.
  rewrite !Z.add_0_r, Himg. reflexivity.
Qed.

Lemma draw_At_out (cv : Img) (x y : Z) (img : Img) (px py : Z) :
  ~ in_tile x y px py ->
  image.At (draw cv x y img) px py = image.At cv px py.
Proof.
  intros Ht. unfold draw, draw_Draw. cbn [image.At].
  destruct (image.In px py _) eqn:Hin at 1.
  - apply tile_rect_In in Hin. contradiction.
  - reflexivity.
Qed.

Lemma canvas_ok_draw (t : Time.Time) (level : Z) (cv : Img)
    (drawn : list coord) (x y : Z) (img : Img) :
  canvas_ok t level cv drawn ->
  Chunk t level x y = inl img ->
  canvas_ok t level (draw cv x y img) (drawn ++ [(x, y)]).
Proof.
  intros [Hb Ht Hz] Hc. split.
  - exact Hb.
  - intros x' y' img' px py Hin Hc' Htile Hcv Himg.
    destruct (coord_eq_dec (x', y') (x, y)) as [Heq|Hne].
    + inversion Heq; subst. rewrite Hc in Hc'. inversion Hc'; subst.
      now apply draw_At_in.
    + rewrite draw_At_out.
      * apply Ht; try assumption.
        apply in_app_or in Hin. destruct Hin as [Hin|[Hin|[]]];
          [assumption|congruence].
      * intros Htile'. apply Hne.
        destruct (in_tile_inj _ _ _ _ _ _ Htile Htile'). congruence.
  - intros px py Hout. rewrite draw_At_out.
    + apply Hz. intros x' y' Hin. apply Hout, in_or_app. now left.
    + apply Hout, in_or_app. right. now left.
Qed.

End CanvasFacts.

(** ** Projections of a trace *)

Section TraceFacts.

Context {E : Env}.

Lemma handoffs_app (a b : list event) :
  handoffs (a ++ b) = handoffs a ++ handoffs b.
Proof. apply flat_map_app. Qed.

Lemma fetches_app (a b : list event) :
  fetches (a ++ b) = fetches a ++ fetches b.
Proof. apply flat_map_app. Qed.

Lemma draws_app (a b : list event) : draws (a ++ b) = draws a ++ draws b.
Proof. apply flat_map_app. Qed.

Lemma reports_app (a b : list event) :
  reports (a ++ b) = reports a ++ reports b.
Proof. apply flat_map_app. Qed.

Lemma report_errs_app (a b : list event) :
  report_errs (a ++ b) = report_errs a ++ report_errs b.
Proof. apply flat_map_app. Qed.

Lemma fetches_fetch_draw (cs : list coord) :
  fetches (flat_map fetch_draw cs) = cs.
Proof.
  induction cs as [|[x y] cs IH]; [reflexivity|].
  cbn [flat_map]. rewrite fetches_app, IH. reflexivity.
Qed.

Lemma draws_fetch_draw (cs : list coord) :
  draws (flat_map fetch_draw cs) = cs.
Proof.
  induction cs as [|[x y] cs IH]; [reflexivity|].
  cbn [flat_map]. rewrite draws_app, IH. reflexivity.
Qed.

Lemma report_errs_length (tr : list event) :
  List.length (report_errs tr) = List.length (reports tr).
Proof.
  induction tr as [|e tr IH]; [reflexivity|].
  change (e :: tr) with ([e] ++ tr).
  rewrite report_errs_app, reports_app, !length_app, IH.
  destruct e; reflexivity.
Qed.

Lemma report_errs_in (tr : list event) (err : error) :
  List.In err (report_errs tr) ->
  exists x y, List.In (EReport x y err) tr.
Proof.
  unfold report_errs. rewrite in_flat_map.
  intros (e & Hin & He). destruct e; cbn in He; try contradiction.
  destruct He as [<-|[]]. now exists x, y.
Qed.

Lemma reports_in (tr : list event) (x y : Z) (err : error) :
  List.In (EReport x y err) tr -> List.In (x, y) (reports tr).
Proof.
  intros Hin. unfold reports. apply in_flat_map.
  exists (EReport x y err). split; [assumption|now left].
Qed.

Lemma draws_in (tr : list event) (x y : Z) :
  List.In (x, y) (draws tr) -> List.In (EDraw x y) tr.
Proof.
  unfold draws. rewrite in_flat_map.
  intros (e & Hin & He). destruct e; cbn in He; try contradiction.
  destruct He as [He|[]]. now inversion He; subst.
Qed.

End TraceFacts.

(** ** The sequential path is one pass over the grid *)

Section SeqFacts.

Context {E : Env}.

Lemma for_loop_iter (n : nat) (i : Z) (body : Z -> M unit) (s : store) :
  for_loop n i body s = iter_list (zrange i (i + Z.of_nat n)) body s.
Proof.
  revert i s. induction n as [|n IH]; intros i s.
  - rewrite zrange_nil by lia. reflexivity.
  - rewrite zrange_cons by lia. cbn [for_loop iter_list]. unfold bind.
    destruct (body i s) as [[[]|r] s']; [|reflexivity].
    rewrite IH. do 2 f_equal. lia.
Qed.

Lemma for_range_iter (lo hi : Z) (body : Z -> M unit) (s : store) :
  for_range lo hi body s = iter_list (zrange lo hi) body s.
Proof.
  unfold for_range. rewrite for_loop_iter. f_equal.
  unfold zrange. do 2 f_equal. lia.
Qed.

Lemma iter_list_ext {A : Type} (l : list A) (b1 b2 : A -> M unit) :
  (forall a s, b1 a s = b2 a s) ->
  forall s, iter_list l b1 s = iter_list l b2 s.
Proof.
  intros Hb. induction l as [|a l IH]; intros s; [reflexivity|].
  cbn [iter_list]. unfold bind. rewrite Hb.
  destruct (b2 a s) as [[[]|r] s']; [apply IH|reflexivity].
Qed.

Lemma iter_list_app {A : Type} (l1 l2 : list A) (body : A -> M unit)
    (s : store) :
  iter_list (l1 ++ l2) body s
  = bind (iter_list l1 body) (fun _ => iter_list l2 body) s.
Proof.
  revert s. induction l1 as [|a l1 IH]; intros s; [reflexivity|].
  cbn [app iter_list]. unfold bind.
  destruct (body a s) as [[[]|r] s']; [|reflexivity].
  rewrite IH. reflexivity.
Qed.

Lemma iter_list_map {A B : Type} (g : A -> B) (l : list A)
    (body : B -> M unit) (s : store) :
  iter_list (map g l) body s = iter_list l (fun a => body (g a)) s.
Proof.
  revert s. induction l as [|a l IH]; intros s; [reflexivity|].
  cbn [map iter_list]. unfold bind.
  destruct (body (g a) s) as [[[]|r] s']; [apply IH|reflexivity].
Qed.

Lemma iter_rows (level : Z) (ys : list Z) (body : Z -> Z -> M unit)
    (s : store) :
  iter_list ys (fun y => iter_list (zrange 0 level) (fun x => body x y)) s
  = iter_list (flat_map (fun y => row level y 0) ys)
      (fun c => body (fst c) (snd c)) s.
Proof.
  revert s. induction ys as [|y ys IH]; intros s; [reflexivity|].
  cbn [flat_map iter_list]. rewrite iter_list_app. unfold bind.
  unfold row at 1. rewrite iter_list_map. cbn [fst snd].
  destruct (iter_list (zrange 0 level) (fun a => body a y) s)
    as [[[]|r] s']; [apply IH|reflexivity].
Qed.

Lemma loops_grid (t : Time.Time) (level : Z) (s : store) :
  for_range 0 level (fun y => for_range 0 level (fun x => seq_body t level x y)) s
  = iter_list (grid level) (fun c => seq_body t level (fst c) (snd c)) s.
Proof.
  rewrite for_range_iter.
  rewrite (iter_list_ext _ _
             (fun y => iter_list (zrange 0 level)
                         (fun x => seq_body t level x y))).
  - apply iter_rows.
  - intros y s'. apply for_range_iter.
Qed.

Lemma iter_seq_pass (t : Time.Time) (level : Z) (cs : list coord)
    (s : store) :
  bind (iter_list cs (fun c => seq_body t level (fst c) (snd c)))
       (fun _ => return_with (A := unit)
                   (fun s' => (Some (st_canvas s'), None))) s
  = (inr (fst (seq_pass t level cs s)), snd (seq_pass t level cs s)).
Proof.
  revert s. induction cs as [|[x y] cs IH]; intros s; [reflexivity|].
  cbn [iter_list seq_pass fst snd].
  specialize (IH {| st_canvas :=
                      match Chunk t level x y with
                      | inl img => draw (st_canvas s) x y img
                      | inr _ => st_canvas s
                      end;
                    st_trace := (st_trace s ++ [EFetch x y]) ++ [EDraw x y] |}).
  unfold bind, seq_body, call_Chunk, call_draw, emit, ret, return_with in *.
  cbn in *.
  destruct (Chunk t level x y) as [img|err]; cbn in *; [|reflexivity].
  exact IH.
Qed.

Lemma Image_sequential_pass (t : Time.Time) (level : Z) (s : store) :
  Image_sequential t level s
  = (inr (fst (seq_pass t level (grid level) s)),
     snd (seq_pass t level (grid level) s)).
Proof.
  rewrite <- iter_seq_pass.
  change (Image_sequential t level s)
    with (bind (for_range 0 level (fun y =>
                  for_range 0 level (fun x => seq_body t level x y)))
               (fun _ => return_with (A := unit)
                           (fun s' => (Some (st_canvas s'), None))) s).
  unfold bind. rewrite loops_grid. reflexivity.
Qed.

End SeqFacts.

Section SeqPass.

Context {E : Env}.

Variables (t : Time.Time) (level : Z).

Lemma first_failure (cs : list coord) :
  served t level cs \/
  exists pre x y err post,
    cs = pre ++ (x, y) :: post /\ served t level pre /\ Chunk t level x y = inr err.
Proof.
  induction cs as [|[x y] cs IH].
  - left. intros c [].
  - destruct (Chunk t level x y) as [img|err] eqn:Hc.
    + destruct IH as [IH|(pre & x' & y' & err & post & -> & Hpre & Hc')].
      * left. intros c [<-|Hin]; [now exists img|now apply IH].
      * right. exists ((x, y) :: pre), x', y', err, post.
        split; [reflexivity|]. split; [|assumption].
        intros c [<-|Hin]; [now exists img|now apply Hpre].
    + right. exists [], x, y, err, cs.
      split; [reflexivity|]. split; [intros c []|assumption].
Qed.




Lemma seq_pass_served (cs : list coord) (s : store) (d : list coord) :
  served t level cs ->
  canvas_ok t level (st_canvas s) d ->
  exists cv,
    seq_pass t level cs s
    = ((Some cv, None),
       {| st_canvas := cv;
          st_trace := st_trace s ++ flat_map fetch_draw cs |})
    /\ canvas_ok t level cv (d ++ cs).
Proof.
  revert s d. induction cs as [|[x y] cs IH]; intros s d Hs Hok.
  - exists (st_canvas s). cbn. rewrite !app_nil_r. destruct s. now split.
  - destruct (Hs (x, y) (or_introl eq_refl)) as [img Hc]. cbn [fst snd] in Hc.
    cbn [seq_pass]. rewrite Hc.
    destruct (IH {| st_canvas := draw (st_canvas s) x y img;
                    st_trace := (st_trace s ++ [EFetch x y]) ++ [EDraw x y] |}
                 (d ++ [(x, y)])) as (cv & Heq & Hcv).
    + intros c Hin. apply Hs. now right.
    + now apply canvas_ok_draw.
    + exists cv. rewrite Heq. cbn [st_trace st_canvas flat_map fetch_draw fst snd].
      rewrite <- !app_assoc in *. cbn [app] in *. now split.
Qed.

Lemma seq_pass_failed (pre post : list coord) (x y : Z) (err : error)
    (s : store) :
  served t level pre -> Chunk t level x y = inr err ->
  exists cv,
    seq_pass t level (pre ++ (x, y) :: post) s
    = ((None, Some err),
       {| st_canvas := cv;
          st_trace := st_trace s ++ flat_map fetch_draw pre ++ [EFetch x y] |}).
Proof.
  revert s. induction pre as [|[x' y'] pre IH]; intros s Hs Hc.
  - exists (st_canvas s). cbn. now rewrite Hc.
  - destruct (Hs (x', y') (or_introl eq_refl)) as [img Hc']. cbn [fst snd] in Hc'.
    cbn [app seq_pass]. rewrite Hc'.
    destruct (IH {| st_canvas := draw (st_canvas s) x' y' img;
                    st_trace := (st_trace s ++ [EFetch x' y']) ++ [EDraw x' y'] |})
      as (cv & Heq).
    + intros c Hin. apply Hs. now right.
    + assumption.
    + exists cv. rewrite Heq. cbn [st_trace flat_map fetch_draw fst snd].
      rewrite <- !app_assoc. reflexivity.
Qed.

End SeqPass.

Section ImagePaths.

Context {E : Env}.

Lemma norm_level_pos (level : Z) : 0 < level -> norm_level level = level.
Proof. unfold norm_level. destruct (Z.leb_spec level 0); lia. Qed.

Lemma norm_level_default (level : Z) :
  level <= 0 -> norm_level level = DefaultLevel.
Proof. unfold norm_level. destruct (Z.leb_spec level 0); lia. Qed.

Lemma norm_level_ge (level : Z) : 1 <= norm_level level.
Proof.
  unfold norm_level, DefaultLevel. destruct (Z.leb_spec level 0); lia.
Qed.

Lemma norm_workers_ge (Workers level : Z) :
  2 <= level -> 1 <= norm_workers Workers level.
Proof.
  intros H. unfold norm_workers.
  destruct (Z.leb_spec Workers 0); [lia|].
  destruct (Z.ltb_spec (level * level) Workers); nia.
Qed.

Lemma Image_direct (Workers : Z) (t : Time.Time) (level : Z)
    (sched : list action) :
  norm_level level = 1 ->
  Image Workers t level sched
  = Returns
      match Chunk t 1 0 0 with
      | inl img => {| out_img := Some img; out_err := None;
                      out_trace := [EFetch 0 0]; out_workers := [] |}
      | inr err => {| out_img := None; out_err := Some err;
                      out_trace := [EFetch 0 0]; out_workers := [] |}
      end.
Proof. intros H. unfold Image. rewrite H. reflexivity. Qed.

Lemma Image_seq (Workers : Z) (t : Time.Time) (level : Z)
    (sched : list action) :
  norm_level level <> 1 ->
  norm_workers Workers (norm_level level) = 1 ->
  Image Workers t level sched
  = Returns
      (let sp := seq_pass t (norm_level level) (grid (norm_level level))
                   (fresh (norm_level level)) in
       {| out_img := fst (fst sp); out_err := snd (fst sp);
          out_trace := st_trace (snd sp); out_workers := [] |}).
Proof.
  intros H1 Hw. unfold Image. apply Z.eqb_neq in H1. rewrite H1, Hw.
  cbn [Z.eqb Pos.eqb].
  change {| st_canvas := _; st_trace := [] |} with (fresh (norm_level level)).
  rewrite Image_sequential_pass.
  destruct (seq_pass _ _ _ _) as [[img err] s]. reflexivity.
Qed.

Lemma Image_pool (Workers : Z) (t : Time.Time) (level : Z)
    (sched : list action) :
  norm_level level <> 1 ->
  norm_workers Workers (norm_level level) <> 1 ->
  Image Workers t level sched
  = match run_to_return (Z.to_nat (norm_workers Workers (norm_level level)))
            t (norm_level level) sched
            (pool_init (Z.to_nat (norm_workers Workers (norm_level level)))
               (norm_level level) (st_canvas (fresh (norm_level level)))) with
    | Some s => Returns (outcome_of_pool s)
    | None => Unfinished
    end.
Proof.
  intros H1 Hw. unfold Image. apply Z.eqb_neq in H1, Hw. rewrite H1, Hw.
  reflexivity.
Qed.

End ImagePaths.

(** ** The pool: bookkeeping lemmas *)

Lemma length_set_nth {A : Type} (i : nat) (a : A) (l : list A) :
  List.length (set_nth i a l) = List.length l.
Proof.
  revert i. induction l as [|b l IH]; intros [|i]; cbn; auto.
Qed.

Lemma Forall_set_nth {A : Type} (P : A -> Prop) (i : nat) (a : A)
    (l : list A) :
  Forall P l -> P a -> Forall P (set_nth i a l).
Proof.
  intros Hl Ha. revert i. induction Hl as [|b l Hb Hl IH]; intros [|i]; cbn;
    auto.
Qed.

Section PoolFacts.

Context {E : Env}.

Lemma wsum_cons (g : worker -> nat) (w : worker) (ws : list worker) :
  wsum g (w :: ws) = (g w + wsum g ws)%nat.
Proof. reflexivity. Qed.

Lemma wsum_set_nth (g : worker -> nat) (i : nat) (w w0 : worker)
    (ws : list worker) :
  nth_error ws i = Some w0 ->
  (wsum g (set_nth i w ws) + g w0 = wsum g ws + g w)%nat.
Proof.
  revert i. induction ws as [|b ws IH]; intros [|i] H;
    cbn [nth_error set_nth] in *; try discriminate; rewrite !wsum_cons.
  - inversion H; subst. lia.
  - specialize (IH i H). lia.
Qed.

Lemma wsum_repeat (g : worker -> nat) (w : worker) (n : nat) :
  wsum g (repeat w n) = (n * g w)%nat.
Proof.
  induction n as [|n IH]; [reflexivity|].
  cbn [repeat]. rewrite wsum_cons, IH. lia.
Qed.

Lemma wsum_done_le (ws : list worker) :
  (wsum done_n ws <= List.length ws)%nat.
Proof.
  induction ws as [|w ws IH]; [cbn; lia|].
  rewrite wsum_cons. cbn [List.length].
  unfold done_n at 1. destruct (is_done w); lia.
Qed.

Lemma wsum_done_lt (ws : list worker) (i : nat) (w : worker) :
  nth_error ws i = Some w -> is_done w = false ->
  (wsum done_n ws < List.length ws)%nat.
Proof.
  revert i. induction ws as [|b ws IH]; intros [|i] H Hw;
    cbn [nth_error List.length] in *; try discriminate; rewrite wsum_cons.
  - inversion H; subst. unfold done_n at 1. rewrite Hw.
    pose proof (wsum_done_le ws). lia.
  - specialize (IH i H Hw). unfold done_n at 1. destruct (is_done b); lia.
Qed.

Lemma wsum_all_done (g : worker -> nat) (ws : list worker) :
  Forall (fun w => w = WDone) ws -> g WDone = 0%nat -> wsum g ws = 0%nat.
Proof.
  intros H Hg. induction H as [|w ws -> _ IH]; [reflexivity|].
  rewrite wsum_cons, Hg, IH. reflexivity.
Qed.

Lemma wsum_done_all (ws : list worker) :
  Forall (fun w => w = WDone) ws -> wsum done_n ws = List.length ws.
Proof.
  intros H. induction H as [|w ws -> _ IH]; [reflexivity|].
  rewrite wsum_cons, IH. reflexivity.
Qed.

Lemma forallb_done (ws : list worker) :
  forallb is_done ws = true <-> Forall (fun w => w = WDone) ws.
Proof.
  rewrite forallb_forall, Forall_forall. split; intros H w Hin.
  - specialize (H w Hin). now destruct w.
  - now rewrite (H w Hin).
Qed.

Lemma count_one (c : coord) (x y : Z) : count c [(x, y)] = hit c x y.
Proof.
  unfold count, hit. cbn. destruct (coord_eq_dec (x, y) c); reflexivity.
Qed.

Lemma todo_next (level x y : Z) :
  0 <= x < level -> 0 <= y < level ->
  remaining level x y = (x, y) :: todo level (next_select level x y).
Proof.
  intros Hx Hy. unfold next_select.
  destruct (Z.ltb_spec (x + 1) level).
  - cbn [todo]. apply remaining_inner; lia.
  - destruct (Z.ltb_spec (y + 1) level).
    + destruct (Z.ltb_spec 0 level); [|lia].
      cbn [todo]. apply remaining_outer; lia.
    + cbn [todo]. apply remaining_last; lia.
Qed.

Lemma next_select_cases (level x y : Z) :
  0 <= x < level -> 0 <= y < level ->
  (exists x' y', next_select level x y = PSelect x' y'
                 /\ 0 <= x' < level /\ 0 <= y' < level)
  \/ next_select level x y = PLoopDone.
Proof.
  intros Hx Hy. unfold next_select.
  destruct (Z.ltb_spec (x + 1) level).
  - left. exists (x + 1), y. repeat split; lia.
  - destruct (Z.ltb_spec (y + 1) level); [|now right].
    destruct (Z.ltb_spec 0 level); [|now right].
    left. exists 0, (y + 1). repeat split; lia.
Qed.

Lemma Inv_init (cap : nat) (t : Time.Time) (level : Z) :
  0 < level ->
  Inv cap t level
    (pool_init cap level (st_canvas (fresh level))).
Proof.
  intros Hl. unfold pool_init, first_select.
  destruct (Z.ltb_spec 0 level); [|lia].
  split; cbn [pc workers chunks_closed errc canvas trace].
  - apply repeat_length.
  - lia.
  - exists (grid level). split; [reflexivity|]. now apply grid_remaining.
  - intros c. rewrite wsum_repeat. cbn. lia.
  - intros c. rewrite wsum_repeat. cbn. lia.
  - apply Forall_forall. intros w Hin. apply repeat_spec in Hin. now subst.
  - constructor.
  - reflexivity.
  - reflexivity.
  - rewrite wsum_repeat. cbn. split; [lia|intros _; lia].
  - exact I.
  - apply canvas_ok_new.
Qed.

End PoolFacts.

(** ** Every step keeps the invariant *)

Section PoolSteps.

Context {E : Env}.

Variables (cap : nat) (t : Time.Time) (level : Z).

Ltac proj :=
  cbn [pc workers chunks_closed errc canvas trace
       log set_worker set_pc set_errc set_canvas close_chunks] in *.

Ltac tr_app :=
  rewrite ?handoffs_app, ?fetches_app, ?draws_app, ?reports_app,
    ?report_errs_app, ?count_app, ?length_app;
  cbn [handoffs fetches draws reports report_errs flat_map app List.length];
  rewrite ?app_nil_r, ?count_one, ?Nat.add_0_r.

Lemma Inv_handoff (s : pool) (i : nat) (x y : Z) :
  Inv cap t level s ->
  pc s = PSelect x y ->
  nth_error (workers s) i = Some WIdle ->
  Inv cap t level
    (log (EHandoff x y)
       (set_worker i (WHas x y) (set_pc (next_select level x y) s))).
Proof.
  intros [Hlen Hpc Hsent Hhas Hgot Hws Hev Herr Hcl Hdone Hj Hcv] Hp Hi.
  rewrite Hp in *.
  pose proof (todo_next level x y (proj1 Hpc) (proj2 Hpc)) as Hnext.
  destruct Hsent as (rest & Hrest & ->).
  split; proj; tr_app.
  - now rewrite length_set_nth.
  - destruct (next_select_cases level x y (proj1 Hpc) (proj2 Hpc))
      as [(x' & y' & -> & Hx' & Hy')| ->]; [now split|exact I].
  - exists (todo level (next_select level x y)). split.
    + rewrite <- app_assoc, <- Hrest. cbn [app]. f_equal. symmetry.
      exact Hnext.
    + destruct (next_select_cases level x y (proj1 Hpc) (proj2 Hpc))
        as [(x' & y' & -> & _)| ->]; reflexivity.
  - intros c. tr_app. specialize (Hhas c).
    pose proof (wsum_set_nth (has c) i (WHas x y) WIdle _ Hi) as Hw.
    cbn [has] in Hw. lia.
  - intros c. tr_app. specialize (Hgot c).
    pose proof (wsum_set_nth (got c) i (WHas x y) WIdle _ Hi) as Hw.
    cbn [got] in Hw. lia.
  - apply Forall_set_nth; [assumption|exact I].
  - apply Forall_app. split; [assumption|]. repeat constructor.
  - destruct (next_select_cases level x y (proj1 Hpc) (proj2 Hpc))
      as [(x' & y' & -> & _)| ->]; assumption.
  - rewrite Hcl.
    destruct (next_select_cases level x y (proj1 Hpc) (proj2 Hpc))
      as [(x' & y' & -> & _)| ->]; reflexivity.
  - pose proof (wsum_set_nth done_n i (WHas x y) WIdle _ Hi) as Hw.
    cbn in Hw. destruct Hdone as [Hd1 Hd2]. split; [lia|].
    intros Hc. specialize (Hd2 Hc). lia.
  - destruct (next_select_cases level x y (proj1 Hpc) (proj2 Hpc))
      as [(x' & y' & -> & _)| ->]; exact I.
  - assumption.
Qed.


Lemma Inv_take_err (s : pool) (x y : Z) (err : error) (q : list error) :
  Inv cap t level s ->
  pc s = PSelect x y ->
  errc s = err :: q ->
  Inv cap t level (set_errc q (set_pc (PFailed err) s)).
Proof.
  intros [Hlen Hpc Hsent Hhas Hgot Hws Hev Herr Hcl Hdone Hj Hcv] Hp Hq.
  rewrite Hp in *.
  pose proof (todo_next level x y (proj1 Hpc) (proj2 Hpc)) as Hnext.
  destruct Hsent as (rest & Hrest & ->).
  split; proj; try assumption.
  - exists (remaining level x y). split; [assumption|].
    rewrite Hnext. discriminate.
  - now rewrite <- Hq.
Qed.

Lemma Inv_main_failed (s : pool) (err : error) :
  Inv cap t level s ->
  pc s = PFailed err ->
  Inv cap t level (close_chunks (set_pc (PFailedClosed err) s)).
Proof.
  intros [Hlen Hpc Hsent Hhas Hgot Hws Hev Herr Hcl Hdone Hj Hcv] Hp.
  rewrite Hp in *.
  split; proj; try assumption; try reflexivity.
  split; [apply Hdone|discriminate].
Qed.

Lemma Inv_main_failed_closed (s : pool) (err : error) :
  Inv cap t level s ->
  pc s = PFailedClosed err ->
  Inv cap t level (set_pc (PRetEarly err) s).
Proof.
  intros [Hlen Hpc Hsent Hhas Hgot Hws Hev Herr Hcl Hdone Hj Hcv] Hp.
  rewrite Hp in *.
  split; proj; try assumption; try reflexivity.
Qed.

Lemma Inv_main_loop_done (s : pool) :
  Inv cap t level s ->
  pc s = PLoopDone ->
  Inv cap t level (close_chunks (set_pc PWait s)).
Proof.
  intros [Hlen Hpc Hsent Hhas Hgot Hws Hev Herr Hcl Hdone Hj Hcv] Hp.
  rewrite Hp in *.
  split; proj; try assumption; try reflexivity.
  split; [apply Hdone|discriminate].
Qed.

Lemma Inv_main_wait (s : pool) :
  Inv cap t level s ->
  pc s = PWait ->
  forallb is_done (workers s) = true ->
  Inv cap t level
    (set_errc (tl (errc s)) (set_pc (PRetJoined (hd_error (errc s))) s)).
Proof.
  intros [Hlen Hpc Hsent Hhas Hgot Hws Hev Herr Hcl Hdone Hj Hcv] Hp Hall.
  rewrite Hp in *.
  split; proj; try assumption; try reflexivity.
  - now rewrite Herr.
  - now apply forallb_done.
Qed.

Lemma not_joined (s : pool) (i : nat) (w : worker) :
  Inv cap t level s ->
  nth_error (workers s) i = Some w ->
  is_done w = false ->
  match pc s with PRetJoined _ => False | _ => True end.
Proof.
  intros HI Hi Hw. pose proof (inv_joined _ _ _ _ HI) as Hj.
  destruct (pc s); try exact I.
  rewrite Forall_forall in Hj. apply nth_error_In in Hi.
  rewrite (Hj w Hi) in Hw. discriminate.
Qed.

Lemma Inv_work_exit (s : pool) (i : nat) :
  Inv cap t level s ->
  nth_error (workers s) i = Some WIdle ->
  chunks_closed s = true ->
  Inv cap t level (set_worker i WDone s).
Proof.
  intros HI Hi Hc. pose proof (not_joined s i WIdle HI Hi eq_refl) as Hnj.
  destruct HI as [Hlen Hpc Hsent Hhas Hgot Hws Hev Herr Hcl Hdone Hj Hcv].
  split; proj; try assumption.
  - now rewrite length_set_nth.
  - intros c. specialize (Hhas c).
    pose proof (wsum_set_nth (has c) i WDone WIdle _ Hi) as Hw.
    cbn [has] in Hw. lia.
  - intros c. specialize (Hgot c).
    pose proof (wsum_set_nth (got c) i WDone WIdle _ Hi) as Hw.
    cbn [got] in Hw. lia.
  - apply Forall_set_nth; [assumption|exact I].
  - pose proof (wsum_set_nth done_n i WDone WIdle _ Hi) as Hw.
    cbn in Hw. split; [lia|congruence].
  - destruct (pc s); try exact I. contradiction.
Qed.

Lemma Inv_work_fetch (s : pool) (i : nat) (x y : Z) :
  Inv cap t level s ->
  nth_error (workers s) i = Some (WHas x y) ->
  Inv cap t level
    (log (EFetch x y)
       (set_worker i
          match Chunk t level x y with
          | inl img => WImg x y img
          | inr err => WErr x y err
          end s)).
Proof.
  intros HI Hi. pose proof (not_joined s i _ HI Hi eq_refl) as Hnj.
  destruct HI as [Hlen Hpc Hsent Hhas Hgot Hws Hev Herr Hcl Hdone Hj Hcv].
  set (w := match Chunk t level x y with
            | inl img => WImg x y img
            | inr err => WErr x y err
            end).
  assert (Hw1 : forall c, has c w = 0%nat) by (intros c; subst w; now destruct (Chunk t level x y)).
  assert (Hw2 : forall c, got c w = hit c x y) by (intros c; subst w; now destruct (Chunk t level x y)).
  assert (Hw3 : done_n w = 0%nat) by (subst w; now destruct (Chunk t level x y)).
  assert (Hw4 : worker_ok t level w).
  { subst w. destruct (Chunk t level x y) eqn:Hc; exact Hc. }
  clearbody w.
  split; proj; tr_app; try assumption.
  - now rewrite length_set_nth.
  - intros c. tr_app. specialize (Hhas c).
    pose proof (wsum_set_nth (has c) i w _ _ Hi) as Hw.
    rewrite Hw1 in Hw. cbn [has] in Hw. lia.
  - intros c. tr_app. specialize (Hgot c).
    pose proof (wsum_set_nth (got c) i w _ _ Hi) as Hw.
    rewrite Hw2 in Hw. cbn [got] in Hw. lia.
  - now apply Forall_set_nth.
  - apply Forall_app. split; [assumption|]. repeat constructor.
  - pose proof (wsum_set_nth done_n i w _ _ Hi) as Hw.
    rewrite Hw3 in Hw. cbn in Hw. destruct Hdone as [Hd1 Hd2].
    split; [lia|]. intros Hc. specialize (Hd2 Hc). lia.
  - destruct (pc s); try exact I. contradiction.
Qed.

Lemma Inv_work_draw (s : pool) (i : nat) (x y : Z) (img : Img) :
  Inv cap t level s ->
  nth_error (workers s) i = Some (WImg x y img) ->
  Inv cap t level
    (log (EDraw x y)
       (set_worker i WIdle (set_canvas (draw (canvas s) x y img) s))).
Proof.
  intros HI Hi. pose proof (not_joined s i _ HI Hi eq_refl) as Hnj.
  destruct HI as [Hlen Hpc Hsent Hhas Hgot Hws Hev Herr Hcl Hdone Hj Hcv].
  assert (Hc : Chunk t level x y = inl img).
  { rewrite Forall_forall in Hws. apply (Hws _ (nth_error_In _ _ Hi)). }
  split; proj; tr_app; try assumption.
  - now rewrite length_set_nth.
  - intros c. tr_app. specialize (Hhas c).
    pose proof (wsum_set_nth (has c) i WIdle _ _ Hi) as Hw.
    cbn [has] in Hw. lia.
  - intros c. tr_app. specialize (Hgot c).
    pose proof (wsum_set_nth (got c) i WIdle _ _ Hi) as Hw.
    cbn [got] in Hw. lia.
  - apply Forall_set_nth; [assumption|exact I].
  - apply Forall_app. split; [assumption|].
    constructor; [now exists img|constructor].
  - pose proof (wsum_set_nth done_n i WIdle _ _ Hi) as Hw.
    cbn in Hw. destruct Hdone as [Hd1 Hd2].
    split; [lia|]. intros Hc'. specialize (Hd2 Hc'). lia.
  - destruct (pc s); try exact I. contradiction.
  - now apply canvas_ok_draw.
Qed.

Lemma Inv_work_report (s : pool) (i : nat) (x y : Z) (err : error) :
  Inv cap t level s ->
  nth_error (workers s) i = Some (WErr x y err) ->
  Inv cap t level
    (log (EReport x y err)
       (set_worker i WDone (set_errc (errc s ++ [err]) s))).
Proof.
  intros HI Hi. pose proof (not_joined s i _ HI Hi eq_refl) as Hnj.
  destruct HI as [Hlen Hpc Hsent Hhas Hgot Hws Hev Herr Hcl Hdone Hj Hcv].
  assert (Hc : Chunk t level x y = inr err).
  { rewrite Forall_forall in Hws. apply (Hws _ (nth_error_In _ _ Hi)). }
  split; proj; tr_app; try assumption.
  - now rewrite length_set_nth.
  - intros c. tr_app. specialize (Hhas c).
    pose proof (wsum_set_nth (has c) i WDone _ _ Hi) as Hw.
    cbn [has] in Hw. lia.
  - intros c. tr_app. specialize (Hgot c).
    pose proof (wsum_set_nth (got c) i WDone _ _ Hi) as Hw.
    cbn [got] in Hw. lia.
  - apply Forall_set_nth; [assumption|exact I].
  - apply Forall_app. split; [assumption|].
    constructor; [exact Hc|constructor].
  - destruct (pc s); try contradiction; rewrite <- Herr; reflexivity.
  - pose proof (wsum_set_nth done_n i WDone _ _ Hi) as Hw.
    cbn in Hw. destruct Hdone as [Hd1 Hd2].
    split; [lia|]. intros Hc'. specialize (Hd2 Hc'). lia.
  - destruct (pc s); try exact I. contradiction.
Qed.

(** Every enabled step keeps the invariant. *)
Lemma Inv_step (a : action) (s s' : pool) :
  Inv cap t level s ->
  pool_step cap t level a s = Some s' ->
  Inv cap t level s'.
Proof.
  intros HI Hs. destruct a as [i| | |i]; cbn [pool_step] in Hs.
  - destruct (pc s) as [x y| | | | | |] eqn:Hp; try discriminate.
    destruct (nth_error (workers s) i) as [[| | | |]|] eqn:Hi;
      try discriminate.
    destruct (chunks_closed s); [discriminate|].
    inversion Hs; subst. now apply Inv_handoff.
  - destruct (pc s) as [x y| | | | | |] eqn:Hp; try discriminate.
    destruct (errc s) as [|err q] eqn:Hq; [discriminate|].
    inversion Hs; subst. now apply (Inv_take_err s x y).
  - destruct (pc s) as [x y|err|err| | | |] eqn:Hp; try discriminate.
    + inversion Hs; subst. now apply Inv_main_failed.
    + inversion Hs; subst. now apply Inv_main_failed_closed.
    + inversion Hs; subst. now apply Inv_main_loop_done.
    + destruct (forallb is_done (workers s)) eqn:Hall; [|discriminate].
      inversion Hs; subst. now apply Inv_main_wait.
  - destruct (nth_error (workers s) i) as [[|x y|x y img|x y err|]|] eqn:Hi;
      try discriminate.
    + destruct (chunks_closed s) eqn:Hc; [|discriminate].
      inversion Hs; subst. now apply Inv_work_exit.
    + inversion Hs; subst. now apply Inv_work_fetch.
    + inversion Hs; subst. now apply Inv_work_draw.
    + destruct (List.length (errc s) <? cap)%nat; [|discriminate].
      inversion Hs; subst. now apply Inv_work_report.
Qed.

Lemma Inv_run (sched : list action) (s s' : pool) :
  Inv cap t level s ->
  pool_run cap t level sched s = Some s' ->
  Inv cap t level s'.
Proof.
  revert s. induction sched as [|a sched IH]; intros s HI Hr; cbn in Hr.
  - now inversion Hr; subst.
  - destruct (pool_step cap t level a s) as [s1|] eqn:Hs; [|discriminate].
    apply (IH s1); [now apply (Inv_step a s)|assumption].
Qed.

Lemma Inv_run_to_return (sched : list action) (s s' : pool) :
  Inv cap t level s ->
  run_to_return cap t level sched s = Some s' ->
  Inv cap t level s' /\ returned s' = true.
Proof.
  revert s. induction sched as [|a sched IH]; intros s HI Hr; cbn in Hr.
  - destruct (returned s) eqn:Hret; [|discriminate].
    inversion Hr; subst. now split.
  - destruct (returned s) eqn:Hret.
    + inversion Hr; subst. now split.
    + destruct (pool_step cap t level a s) as [s1|] eqn:Hs; [|discriminate].
      apply (IH s1); [now apply (Inv_step a s)|assumption].
Qed.

End PoolSteps.

(** ** The pool always returns *)

Section PoolProgress.

Context {E : Env}.

Variables (cap : nat) (t : Time.Time) (level : Z).

Ltac proj :=
  cbn [pc workers chunks_closed errc canvas trace
       log set_worker set_pc set_errc set_canvas close_chunks] in *.

Lemma workers_cases (ws : list worker) :
  (exists i w, nth_error ws i = Some w /\ busy w = true)
  \/ (exists i, nth_error ws i = Some WIdle)
  \/ Forall (fun w => w = WDone) ws.
Proof.
  induction ws as [|w ws IH].
  - right. right. constructor.
  - destruct (busy w) eqn:Hb.
    + left. now exists O, w.
    + destruct IH as [(i & w' & Hi & Hw)|[(i & Hi)|Hall]].
      * left. now exists (S i), w'.
      * right. left. now exists (S i).
      * destruct w; try discriminate.
        -- right. left. now exists O.
        -- right. right. now constructor.
Qed.

Lemma step_measure (a : action) (s s' : pool) :
  Inv cap t level s ->
  pool_step cap t level a s = Some s' ->
  (measure level s' < measure level s)%nat.
Proof.
  intros HI Hs. unfold measure.
  destruct a as [i| | |i]; cbn [pool_step] in Hs.
  - destruct (pc s) as [x y| | | | | |] eqn:Hp; try discriminate.
    destruct (nth_error (workers s) i) as [[| | | |]|] eqn:Hi;
      try discriminate.
    destruct (chunks_closed s); [discriminate|].
    inversion Hs; subst; proj.
    pose proof (inv_pc _ _ _ _ HI) as Hpc. rewrite Hp in Hpc.
    pose proof (todo_next level x y (proj1 Hpc) (proj2 Hpc)) as Hnext.
    pose proof (wsum_set_nth weight i (WHas x y) _ _ Hi) as Hw.
    cbn [weight] in Hw. cbn [phase]. rewrite Hnext. cbn [List.length].
    destruct (next_select_cases level x y (proj1 Hpc) (proj2 Hpc))
      as [(x' & y' & -> & _)| ->]; cbn [phase todo List.length]; lia.
  - destruct (pc s) as [x y| | | | | |] eqn:Hp; try discriminate.
    destruct (errc s) as [|err q] eqn:Hq; [discriminate|].
    inversion Hs; subst; proj. cbn [phase]. lia.
  - destruct (pc s) as [x y|err|err| | | |] eqn:Hp; try discriminate.
    + inversion Hs; subst; proj. cbn [phase]. lia.
    + inversion Hs; subst; proj. cbn [phase]. lia.
    + inversion Hs; subst; proj. cbn [phase]. lia.
    + destruct (forallb is_done (workers s)) eqn:Hall; [|discriminate].
      inversion Hs; subst; proj. cbn [phase]. lia.
  - destruct (nth_error (workers s) i) as [[|x y|x y img|x y err|]|] eqn:Hi;
      try discriminate.
    + destruct (chunks_closed s) eqn:Hc; [|discriminate].
      inversion Hs; subst; proj.
      pose proof (wsum_set_nth weight i WDone _ _ Hi) as Hw.
      cbn [weight] in Hw. lia.
    + inversion Hs; subst; proj.
      pose proof (wsum_set_nth weight i
                    match Chunk t level x y with
                    | inl img => WImg x y img
                    | inr err => WErr x y err
                    end _ _ Hi) as Hw.
      destruct (Chunk t level x y); cbn [weight] in Hw; lia.
    + inversion Hs; subst; proj.
      pose proof (wsum_set_nth weight i WIdle _ _ Hi) as Hw.
      cbn [weight] in Hw. lia.
    + destruct (List.length (errc s) <? cap)%nat; [|discriminate].
      inversion Hs; subst; proj.
      pose proof (wsum_set_nth weight i WDone _ _ Hi) as Hw.
      cbn [weight] in Hw. lia.
Qed.

(** The buffer of [errc] has room for the error of every worker. *)
Lemma errc_has_room (s : pool) (i : nat) (x y : Z) (err : error) :
  Inv cap t level s ->
  nth_error (workers s) i = Some (WErr x y err) ->
  (List.length (errc s) <? cap)%nat = true.
Proof.
  intros HI Hi. apply Nat.ltb_lt.
  pose proof (wsum_done_lt _ _ _ Hi eq_refl) as Hlt.
  pose proof (not_joined cap t level s i _ HI Hi eq_refl) as Hnj.
  destruct HI as [Hlen Hpc Hsent Hhas Hgot Hws Hev Herr Hcl Hdone Hj Hcv].
  destruct Hdone as [Hd _].
  assert (Hle : (List.length (errc s) <= List.length (report_errs (trace s)))%nat).
  { destruct (pc s); try contradiction;
      try (rewrite <- Herr; cbn [List.length]; lia). }
  lia.
Qed.

(** No deadlock: while [Image] has not returned, some step is enabled. *)
Lemma progress (s : pool) :
  (1 <= cap)%nat ->
  Inv cap t level s ->
  returned s = false ->
  exists a s', pool_step cap t level a s = Some s'.
Proof.
  intros Hcap HI Hret. unfold returned in Hret.
  destruct (workers_cases (workers s))
    as [(i & w & Hi & Hb)|[(i & Hi)|Hall]].
  - exists (Work i). cbn [pool_step]. rewrite Hi.
    destruct w as [|x y|x y img|x y err|]; try discriminate; eauto.
    rewrite (errc_has_room s i x y err HI Hi). eauto.
  - pose proof (inv_closed _ _ _ _ HI) as Hcl.
    destruct (pc s) as [x y|err|err| | | |] eqn:Hp; try discriminate.
    + exists (Handoff i). cbn [pool_step]. rewrite Hp, Hi, Hcl. eauto.
    + exists Main. cbn [pool_step]. rewrite Hp. eauto.
    + exists Main. cbn [pool_step]. rewrite Hp. eauto.
    + exists Main. cbn [pool_step]. rewrite Hp. eauto.
    + exists (Work i). cbn [pool_step]. rewrite Hi, Hcl. eauto.
  - destruct (pc s) as [x y|err|err| | | |] eqn:Hp; try discriminate.
    + exists TakeErr. cbn [pool_step]. rewrite Hp.
      destruct HI as [Hlen Hpc Hsent Hhas Hgot Hws Hev Herr Hcl Hdone Hj Hcv].
      rewrite Hp in *. destruct Hdone as [_ Hd]. specialize (Hd Hcl).
      rewrite (wsum_done_all _ Hall), Hlen, <- Herr in Hd.
      destruct (errc s); [cbn in Hd; lia|eauto].
    + exists Main. cbn [pool_step]. rewrite Hp. eauto.
    + exists Main. cbn [pool_step]. rewrite Hp. eauto.
    + exists Main. cbn [pool_step]. rewrite Hp. eauto.
    + exists Main. cbn [pool_step]. rewrite Hp.
      apply forallb_done in Hall. rewrite Hall. eauto.
Qed.


(** No schedule runs longer than the measure of its first state. *)
Lemma run_bounded (sched : list action) (s s' : pool) :
  Inv cap t level s ->
  pool_run cap t level sched s = Some s' ->
  (List.length sched + measure level s' <= measure level s)%nat.
Proof.
  revert s. induction sched as [|a sched IH]; intros s HI Hr; cbn in Hr.
  - inversion Hr; subst. cbn. lia.
  - destruct (pool_step cap t level a s) as [s1|] eqn:Hs; [|discriminate].
    pose proof (step_measure a s s1 HI Hs).
    specialize (IH s1 (Inv_step cap t level a s s1 HI Hs) Hr).
    cbn [List.length]. lia.
Qed.

End PoolProgress.

(** ** What the invariant says at the return *)

Section PoolReturn.

Context {E : Env}.

Variables (cap : nat) (t : Time.Time) (level : Z).

Lemma count_grid_le (c : coord) : (count c (grid level) <= 1)%nat.
Proof. apply count_NoDup, NoDup_grid. Qed.

Lemma handoffs_le_grid (s : pool) (c : coord) :
  Inv cap t level s ->
  (count c (handoffs (trace s)) <= count c (grid level))%nat.
Proof.
  intros HI. destruct (inv_sent _ _ _ _ HI) as (rest & Hrest & _).
  rewrite <- Hrest, count_app. lia.
Qed.

Lemma fetches_le_grid (s : pool) (c : coord) :
  Inv cap t level s ->
  (count c (fetches (trace s)) <= count c (grid level))%nat.
Proof.
  intros HI. pose proof (handoffs_le_grid s c HI).
  pose proof (inv_has _ _ _ _ HI c). lia.
Qed.

(** No chunk is fetched twice, and only chunks of the grid are fetched. *)
Lemma fetches_once (s : pool) :
  Inv cap t level s ->
  NoDup (fetches (trace s)) /\ incl (fetches (trace s)) (grid level).
Proof.
  intros HI. split.
  - apply count_NoDup. intros c.
    pose proof (fetches_le_grid s c HI). pose proof (count_grid_le c). lia.
  - intros c Hin. apply count_in. apply count_in in Hin.
    pose proof (fetches_le_grid s c HI). lia.
Qed.

Lemma reported_chunk (s : pool) (err : error) :
  Inv cap t level s ->
  List.In err (report_errs (trace s)) ->
  exists x y,
    List.In (x, y) (grid level) /\ Chunk t level x y = inr err
    /\ ~ List.In (x, y) (draws (trace s)).
Proof.
  intros HI Hin. destruct (report_errs_in _ _ Hin) as (x & y & Hev).
  exists x, y.
  pose proof (inv_events _ _ _ _ HI) as Hok. rewrite Forall_forall in Hok.
  pose proof (reports_in _ _ _ _ Hev) as Hr. apply count_in in Hr.
  pose proof (inv_got _ _ _ _ HI (x, y)) as Hg.
  pose proof (fetches_le_grid s (x, y) HI) as Hf.
  pose proof (count_grid_le (x, y)) as H1.
  repeat split.
  - apply count_in. lia.
  - exact (Hok _ Hev).
  - intros Hd. apply count_in in Hd. lia.
Qed.

Lemma returned_err (s : pool) :
  Inv cap t level s ->
  returned s = true ->
  out_err (outcome_of_pool s) = hd_error (report_errs (trace s)).
Proof.
  intros HI Hret. pose proof (inv_errc _ _ _ _ HI) as Herr.
  unfold returned in Hret. cbn [outcome_of_pool out_err].
  destruct (pc s); try discriminate.
  - now rewrite <- Herr.
  - apply Herr.
Qed.

(** After the join every chunk of the grid has been fetched, and each was
    drawn or reported. *)
Lemma joined_counts (s : pool) (eo : option error) (c : coord) :
  Inv cap t level s ->
  pc s = PRetJoined eo ->
  count c (fetches (trace s)) = count c (grid level)
  /\ count c (grid level)
     = (count c (draws (trace s)) + count c (reports (trace s)))%nat.
Proof.
  intros HI Hp.
  pose proof (inv_joined _ _ _ _ HI) as Hj. rewrite Hp in Hj.
  destruct (inv_sent _ _ _ _ HI) as (rest & Hrest & Hr). rewrite Hp in Hr.
  subst rest. rewrite app_nil_r in Hrest.
  pose proof (inv_has _ _ _ _ HI c) as Hh.
  pose proof (inv_got _ _ _ _ HI c) as Hg.
  rewrite (wsum_all_done (has c) _ Hj eq_refl) in Hh.
  rewrite (wsum_all_done (got c) _ Hj eq_refl) in Hg.
  rewrite Hrest in Hh. lia.
Qed.

Lemma early_not_all (s : pool) (err : error) :
  Inv cap t level s ->
  pc s = PRetEarly err ->
  handoffs (trace s) <> grid level.
Proof.
  intros HI Hp Heq.
  destruct (inv_sent _ _ _ _ HI) as (rest & Hrest & Hr). rewrite Hp in Hr.
  apply Hr. rewrite Heq in Hrest.
  apply (f_equal (@List.length coord)) in Hrest.
  rewrite length_app in Hrest. destruct rest; [reflexivity|cbn in Hrest; lia].
Qed.

Lemma reports_nil (tr : list event) : report_errs tr = [] -> reports tr = [].
Proof.
  intros H. apply length_zero_iff_nil.
  rewrite <- report_errs_length, H. reflexivity.
Qed.

(** A return without error: the join has happened, and the fetched and
    the drawn chunks are those of the grid, each once. *)
Lemma returned_ok (s : pool) :
  Inv cap t level s ->
  returned s = true ->
  out_err (outcome_of_pool s) = None ->
  Permutation (fetches (trace s)) (grid level)
  /\ (forall c, List.In c (grid level) -> List.In c (draws (trace s)))
  /\ Forall (fun w => w = WDone) (workers s).
Proof.
  intros HI Hret Hnone. pose proof (inv_errc _ _ _ _ HI) as Herr.
  pose proof (inv_joined _ _ _ _ HI) as Hj.
  unfold returned in Hret. cbn [outcome_of_pool out_err] in Hnone.
  destruct (pc s) as [| | | | | |eo] eqn:Hp; try discriminate.
  subst eo. destruct Herr as [Hhd _].
  assert (Hnil : report_errs (trace s) = []).
  { destruct (report_errs (trace s)); [reflexivity|discriminate]. }
  apply reports_nil in Hnil.
  repeat split.
  - apply (Permutation_count_occ coord_eq_dec). intros c.
    apply (joined_counts s None c HI Hp).
  - intros c Hin. apply count_in. apply count_in in Hin.
    destruct (joined_counts s None c HI Hp) as [_ H2].
    rewrite Hnil in H2. cbn in H2. fold (count c (grid level)) in *. lia.
  - exact Hj.
Qed.


(** When every chunk of the grid is served, no return carries an error. *)
Lemma returned_served (s : pool) :
  Inv cap t level s ->
  returned s = true ->
  served t level (grid level) ->
  out_err (outcome_of_pool s) = None.
Proof.
  intros HI Hret Hs. rewrite (returned_err s HI Hret).
  destruct (report_errs (trace s)) as [|err errs] eqn:Hre; [reflexivity|].
  exfalso.
  destruct (reported_chunk s err HI) as (x & y & Hg & Hce & _).
  - rewrite Hre. now left.
  - destruct (Hs (x, y) Hg) as [img Himg]. cbn in Himg. congruence.
Qed.

End PoolReturn.

(** ** The three paths of Image *)

Section ImageCases.

Context {E : Env}.

Lemma grid_one : grid 1 = [(0, 0)].
Proof. reflexivity. Qed.


(** Which path a returning call took, and what it returned. *)
Lemma Image_cases (Workers : Z) (t : Time.Time) (level : Z)
    (sched : list action) (o : outcome) :
  Image Workers t level sched = Returns o ->
  (norm_level level = 1
   /\ o = match Chunk t 1 0 0 with
          | inl img => {| out_img := Some img; out_err := None;
                          out_trace := [EFetch 0 0]; out_workers := [] |}
          | inr err => {| out_img := None; out_err := Some err;
                          out_trace := [EFetch 0 0]; out_workers := [] |}
          end)
  \/ (2 <= norm_level level
      /\ norm_workers Workers (norm_level level) = 1
      /\ o = (let sp := seq_pass t (norm_level level)
                          (grid (norm_level level))
                          (fresh (norm_level level)) in
              {| out_img := fst (fst sp); out_err := snd (fst sp);
                 out_trace := st_trace (snd sp); out_workers := [] |}))
  \/ (2 <= norm_level level
      /\ norm_workers Workers (norm_level level) <> 1
      /\ exists s,
           run_to_return (pool_size Workers (norm_level level)) t
             (norm_level level) sched
             (pool_init (pool_size Workers (norm_level level))
                (norm_level level) (st_canvas (fresh (norm_level level))))
           = Some s
           /\ Inv (pool_size Workers (norm_level level)) t
                (norm_level level) s
           /\ returned s = true
           /\ o = outcome_of_pool s).
Proof.
  intros H. pose proof (norm_level_ge level) as Hge.
  destruct (Z.eq_dec (norm_level level) 1) as [H1|H1].
  - left. split; [assumption|].
    rewrite Image_direct in H by assumption. now inversion H.
  - destruct (Z.eq_dec (norm_workers Workers (norm_level level)) 1)
      as [Hw|Hw].
    + right. left. split; [lia|]. split; [assumption|].
      rewrite Image_seq in H by assumption. now inversion H.
    + right. right. split; [lia|]. split; [assumption|].
      rewrite Image_pool in H by assumption.
      fold (pool_size Workers (norm_level level)) in H.
      destruct (run_to_return _ _ _ _ _) as [s|] eqn:Hr; [|discriminate].
      exists s.
      destruct (Inv_run_to_return _ _ _ _ _ _
                  (Inv_init _ t (norm_level level) ltac:(lia)) Hr)
        as [HI Hret].
      split; [reflexivity|]. split; [exact HI|]. split; [exact Hret|].
      now inversion H.
Qed.


(** The sequential path, by cases on the first chunk that fails. *)
Lemma seq_outcome (t : Time.Time) (level : Z) :
  let sp := seq_pass t level (grid level) (fresh level) in
  (served t level (grid level)
   /\ exists cv,
        sp = ((Some cv, None),
              {| st_canvas := cv;
                 st_trace := flat_map fetch_draw (grid level) |})
        /\ canvas_ok t level cv (grid level))
  \/ (exists pre x y err post cv,
        grid level = pre ++ (x, y) :: post
        /\ served t level pre
        /\ Chunk t level x y = inr err
        /\ sp = ((None, Some err),
                 {| st_canvas := cv;
                    st_trace := flat_map fetch_draw pre ++ [EFetch x y] |})).
Proof.
  intros sp. subst sp.
  destruct (first_failure t level (grid level))
    as [Hs|(pre & x & y & err & post & Hg & Hpre & Hc)].
  - left. split; [assumption|].
    destruct (seq_pass_served t level (grid level) (fresh level) [] Hs
                (canvas_ok_new t level)) as (cv & Heq & Hok).
    exists cv. now split.
  - right. exists pre, x, y, err, post.
    destruct (seq_pass_failed t level pre post x y err (fresh level) Hpre Hc)
      as (cv & Heq).
    exists cv. rewrite Hg. repeat split; assumption.
Qed.



End ImageCases.

(** * Main theorems *)

Section Claims.

Context {E : Env}.

(** C7. Level 1: [Image] calls [Chunk] once, at (0, 0), and returns what
    it returned: the decoded chunk itself with a nil error, or a nil image
    with the error of the fetch; nothing is drawn, no worker is spawned,
    whatever [Workers] and the scheduler are. *)
Theorem level_one_direct :
  forall (Workers : Z) (t : Time.Time) (sched : list action),
    Image Workers t 1 sched
    = Returns
        match Chunk t 1 0 0 with
        | inl img => {| out_img := Some img; out_err := None;
                        out_trace := [EFetch 0 0]; out_workers := [] |}
        | inr err => {| out_img := None; out_err := Some err;
                        out_trace := [EFetch 0 0]; out_workers := [] |}
        end.
Proof.
  intros Workers t sched. apply Image_direct. reflexivity.
Qed.

(** C9. A level that is zero or negative is replaced by [DefaultLevel],
    which is 4: [Image] and [LatestImage] behave on it as on level 4, and
    return no error for the level. *)
Theorem nonpositive_level_is_default :
  forall (Workers : Z) (t : Time.Time) (level : Z) (offsetTime : bool)
         (sched : list action),
    level <= 0 ->
    DefaultLevel = 4
    /\ Image Workers t level sched = Image Workers t DefaultLevel sched
    /\ LatestImage Workers level offsetTime sched
       = LatestImage Workers DefaultLevel offsetTime sched.
Proof.
  intros Workers t level offsetTime sched Hl.
  assert (Hn : norm_level level = norm_level DefaultLevel).
  { rewrite norm_level_default by assumption. reflexivity. }
  split; [reflexivity|]. split.
  - unfold Image. rewrite Hn. reflexivity.
  - unfold LatestImage. rewrite Hn. reflexivity.
Qed.



End Claims.

(** ** The order of the grid *)




Section ClaimsSeq.

Context {E : Env}.


End ClaimsSeq.

Section ClaimsPool.

Context {E : Env}.



(** C5. For a level of 2 or more, on the sequential path and on the pool
    alike, no coordinate is handed to [Chunk] twice during a call of
    [Image] and only coordinates of the grid are; a call that returns no
    error has fetched every coordinate of the grid exactly once; and
    when every chunk is served the call returns no error. *)
Theorem exactly_once_dispatch :
  forall (Workers : Z) (t : Time.Time) (level : Z) (sched : list action)
         (o : outcome),
    2 <= level ->
    Image Workers t level sched = Returns o ->
    NoDup (fetches (out_trace o))
    /\ incl (fetches (out_trace o)) (grid level)
    /\ (out_err o = None -> Permutation (fetches (out_trace o)) (grid level))
    /\ (served t level (grid level) -> out_err o = None).
Proof.
  intros Workers t level sched o Hl Hret.
  destruct (Image_cases _ _ _ _ _ Hret)
    as [(H1 & ->)|[(H2 & Hw & ->)|(H2 & Hw & s & Hr & HI & Hrs & ->)]];
    rewrite norm_level_pos in * by lia; [lia| |].
  - (* sequential *)
    cbv zeta.
    destruct (seq_outcome t level)
      as [(Hs & cv & Heq & Hok)
         |(pre & x & y & err & post & cv & Hg & Hpre & Hc & Heq)];
      cbv zeta in Heq; rewrite Heq; cbn [fst snd out_trace out_err st_trace].
    + rewrite fetches_fetch_draw.
      split; [apply NoDup_grid|]. split; [apply incl_refl|].
      split; [reflexivity|reflexivity].
    + rewrite fetches_app, fetches_fetch_draw. cbn [fetches flat_map app].
      assert (Hpre' : grid level = (pre ++ [(x, y)]) ++ post)
        by (rewrite <- app_assoc; exact Hg).
      split; [|split; [|split; [discriminate|]]].
      * pose proof (NoDup_grid level) as Hnd. rewrite Hpre' in Hnd.
        now apply NoDup_app_remove_r in Hnd.
      * rewrite Hpre'. apply incl_appl, incl_refl.
      * intros Hs. destruct (Hs (x, y)) as [img Himg].
        -- rewrite Hg. apply in_or_app. right. now left.
        -- cbn in Himg. congruence.
  - (* pool *)
    cbn [outcome_of_pool out_trace].
    destruct (fetches_once _ _ _ s HI) as [Hnd Hincl].
    split; [assumption|]. split; [assumption|]. split.
    + intros Hnone. now destruct (returned_ok _ _ _ s HI Hrs Hnone).
    + intros Hs. now apply (returned_served _ _ _ s HI Hrs).
Qed.


End ClaimsPool.

(** ** Around the join *)

Section Joining.

Context {E : Env}.

Variables (cap : nat) (t : Time.Time) (level : Z).

Ltac stepped :=
  eexists; split; [reflexivity|];
  cbn [pc workers chunks_closed errc canvas trace
       log set_worker set_pc set_errc set_canvas close_chunks];
  rewrite handoffs_app; cbn [handoffs flat_map]; rewrite app_nil_r;
  now repeat split.

(** A return after every coordinate was handed off is the return of line
    147: it comes after [wg.Wait()], every worker has finished. *)
Lemma joined_all_done (s : pool) :
  Inv cap t level s ->
  returned s = true ->
  handoffs (trace s) = grid level ->
  Forall (fun w => w = WDone) (workers s).
Proof.
  intros HI Hret Hall. pose proof (inv_joined _ _ _ _ HI) as Hj.
  unfold returned in Hret.
  destruct (pc s) as [| | | | |err|eo] eqn:Hp; try discriminate.
  - now destruct (early_not_all cap t level s err HI Hp).
  - exact Hj.
Qed.

(** Once [chunks] is closed, the workers still running can all finish:
    each ends after the chunk it holds, and no chunk is handed off any
    more. *)
Lemma workers_finish (s : pool) :
  Inv cap t level s ->
  chunks_closed s = true ->
  exists sched s',
    pool_run cap t level sched s = Some s'
    /\ Forall (fun w => w = WDone) (workers s')
    /\ pc s' = pc s
    /\ handoffs (trace s') = handoffs (trace s).
Proof.
  remember (measure level s) as n eqn:Hn.
  revert s Hn. induction n as [n IH] using lt_wf_ind. intros s Hn HI Hcl.
  destruct (workers_cases (workers s))
    as [(i & w & Hi & Hb)|[(i & Hi)|Hall]].
  - assert (Hs : exists s1, pool_step cap t level (Work i) s = Some s1
                            /\ chunks_closed s1 = true /\ pc s1 = pc s
                            /\ handoffs (trace s1) = handoffs (trace s)).
    { cbn [pool_step]. rewrite Hi.
      destruct w as [|x y|x y img|x y err|]; try discriminate.
      - stepped.
      - stepped.
      - rewrite (errc_has_room cap t level s i x y err HI Hi). stepped. }
    destruct Hs as (s1 & Hs & Hcl1 & Hpc1 & Hh1).
    destruct (IH (measure level s1)) with (s := s1)
      as (sched & s' & Hr & Hd & Hpc & Hh); try reflexivity; try assumption.
    + subst n. now apply (step_measure cap t level (Work i)).
    + now apply (Inv_step cap t level (Work i) s).
    + exists (Work i :: sched), s'. cbn [pool_run]. rewrite Hs.
      repeat split; congruence.
  - assert (Hs : pool_step cap t level (Work i) s
                 = Some (set_worker i WDone s))
      by (cbn [pool_step]; now rewrite Hi, Hcl).
    destruct (IH (measure level (set_worker i WDone s)))
      with (s := set_worker i WDone s)
      as (sched & s' & Hr & Hd & Hpc & Hh); try reflexivity; try assumption.
    + subst n. now apply (step_measure cap t level (Work i)).
    + now apply (Inv_step cap t level (Work i) s).
    + exists (Work i :: sched), s'. cbn [pool_run]. rewrite Hs.
      repeat split; assumption.
  - exists [], s. now repeat split.
Qed.

(** No chunk is fetched twice, also by the workers that run on after
    [Image] has returned. *)
Lemma fetch_once_always (sched : list action) (s : pool) :
  0 < level ->
  pool_run cap t level sched (pool_init cap level (st_canvas (fresh level)))
  = Some s ->
  NoDup (fetches (trace s)) /\ incl (fetches (trace s)) (grid level).
Proof.
  intros Hl Hr. apply (fetches_once cap t level).
  apply (Inv_run cap t level sched
           (pool_init cap level (st_canvas (fresh level))) s);
    [now apply Inv_init|assumption].
Qed.

End Joining.

(** ** Go's [int]

    [image.NewRGBA] allocates [4 * w * h] bytes for a canvas of [w] x [h],
    and the length of a slice is an [int]: for every level whose canvas can
    be allocated, each product [Image] computes is below the largest
    [int], whatever the width of [int]. *)
Lemma products_fit (maxint level x y : Z) :
  0 < level ->
  4 * (level * Width) * (level * Height) <= maxint ->
  0 <= x < level -> 0 <= y < level ->
  level * level <= maxint
  /\ level * Width <= maxint /\ level * Height <= maxint
  /\ (x + 1) * Width <= maxint /\ (y + 1) * Height <= maxint.
Proof. unfold Height, Width. intros. nia. Qed.

(** * The theorems on test environments *)

Lemma result_of_returns {E : Env} (e : exec outcome) :
  Demo.is_returns e = true -> e = Returns (Demo.result_of e).
Proof. destruct e; try discriminate. reflexivity. Qed.

Lemma state_of_some {E : Env} (d : pool) (o : option pool) :
  Demo.is_some o = true -> o = Some (Demo.state_of d o).
Proof. destruct o; try discriminate. reflexivity. Qed.


Lemma Image_good :
  Image (E := Demo.good) 2 Demo.t0 2 Demo.sched_good = Returns Demo.out_good.
Proof.
  assert (H : Demo.is_returns
                (Image (E := Demo.good) 2 Demo.t0 2 Demo.sched_good) = true)
    by (vm_compute; reflexivity).
  exact (result_of_returns _ H).
Qed.

Lemma Image_leak :
  Image (E := Demo.bad00) 2 Demo.t0 2 Demo.sched_leak = Returns Demo.out_leak.
Proof.
  assert (H : Demo.is_returns
                (Image (E := Demo.bad00) 2 Demo.t0 2 Demo.sched_leak) = true)
    by (vm_compute; reflexivity).
  exact (result_of_returns _ H).
Qed.

Lemma Image_seq_bad :
  Image (E := Demo.bad10) 1 Demo.t0 2 [] = Returns Demo.out_seq.
Proof.
  assert (H : Demo.is_returns (Image (E := Demo.bad10) 1 Demo.t0 2 []) = true)
    by (vm_compute; reflexivity).
  exact (result_of_returns _ H).
Qed.

Lemma run_leak :
  run_to_return (E := Demo.bad00) 2 Demo.t0 2 Demo.sched_leak
    (pool_init 2 2 (st_canvas (fresh 2))) = Some Demo.s_leak.
Proof.
  assert (H : Demo.is_some
                (run_to_return (E := Demo.bad00) 2 Demo.t0 2 Demo.sched_leak
                   (pool_init 2 2 (st_canvas (fresh 2)))) = true)
    by (vm_compute; reflexivity).
  exact (state_of_some _ _ H).
Qed.

Lemma run_after :
  pool_run (E := Demo.bad00) 2 Demo.t0 2 [Work 1; Work 1; Work 1] Demo.s_leak
  = Some Demo.s_after.
Proof.
  assert (H : Demo.is_some
                (pool_run (E := Demo.bad00) 2 Demo.t0 2
                   [Work 1; Work 1; Work 1] Demo.s_leak) = true)
    by (vm_compute; reflexivity).
  exact (state_of_some _ _ H).
Qed.

(** C2, on the code.  Level 2, two workers, chunk (0, 0) fails: under the
    schedule [Demo.sched_leak] [Image] returns the error of (0, 0) from
    line 140 while worker 1 still holds chunk (1, 0), not yet fetched; run
    on, that worker fetches the chunk, draws it into the canvas [Image]
    has returned, and only then ends. *)
Theorem early_exit_skips_join :
  Image (E := Demo.bad00) 2 Demo.t0 2 Demo.sched_leak = Returns Demo.out_leak
  /\ out_err Demo.out_leak
     = Some ("png: invalid format: " ++ Demo.url 2 0 0)%string
  /\ out_workers Demo.out_leak = [WDone; WHas 1 0]
  /\ run_to_return (E := Demo.bad00) 2 Demo.t0 2 Demo.sched_leak
       (pool_init 2 2 (st_canvas (fresh 2))) = Some Demo.s_leak
  /\ pc Demo.s_leak
     = @PRetEarly Demo.bad00
         ("png: invalid format: " ++ Demo.url 2 0 0)%string
  /\ pool_run (E := Demo.bad00) 2 Demo.t0 2 [Work 1; Work 1; Work 1]
       Demo.s_leak = Some Demo.s_after
  /\ image.At (canvas Demo.s_leak) 600 10 = 0
  /\ image.At (canvas Demo.s_after) 600 10 = 962
  /\ fetches (trace Demo.s_after) = [(0, 0); (1, 0)]
  /\ workers Demo.s_after = [WDone; WDone].
Proof.
  split; [exact Image_leak|].
  split; [vm_compute; reflexivity|].
  split; [vm_compute; reflexivity|].
  split; [exact run_leak|].
  split; [vm_compute; reflexivity|].
  split; [exact run_after|].
  repeat split; vm_compute; reflexivity.
Qed.



(** C5 on a run of the pool in which every chunk is served. *)
Lemma exactly_once_dispatch_witness :
  2 <= 2
  /\ NoDup (fetches (out_trace Demo.out_good))
  /\ incl (fetches (out_trace Demo.out_good)) (grid 2)
  /\ (out_err Demo.out_good = None ->
      Permutation (fetches (out_trace Demo.out_good)) (grid 2))
  /\ (served (E := Demo.good) Demo.t0 2 (grid 2) ->
      out_err Demo.out_good = None).
Proof.
  split; [lia|].
  apply (exactly_once_dispatch (E := Demo.good) 2 Demo.t0 2 Demo.sched_good
           Demo.out_good).
  - lia.
  - exact Image_good.
Defined.


(** C9 at level -3. *)
Lemma nonpositive_level_is_default_witness :
  -3 <= 0
  /\ DefaultLevel = 4
  /\ Image (E := Demo.good) 2 Demo.t0 (-3) [] = Image 2 Demo.t0 DefaultLevel []
  /\ LatestImage (E := Demo.good) 2 (-3) true []
     = LatestImage 2 DefaultLevel true [].
Proof.
  split; [lia|].
  apply (nonpositive_level_is_default (E := Demo.good) 2 Demo.t0 (-3) true []).
  lia.
Defined.


(** C4 on the two runs in which one chunk fails: the error returned is
    the error of that chunk, on the sequential path and on the pool. *)
Example first_error_wins_runs :
  out_err Demo.out_seq
  = Some ("png: invalid format: " ++ Demo.url 2 1 0)%string
  /\ out_err Demo.out_leak
     = Some ("png: invalid format: " ++ Demo.url 2 0 0)%string.
Proof. split; vm_compute; reflexivity. Qed.

(** C8 on the instant 2016-07-18 09:30:00 UTC, presented in a zone ten
    hours ahead. *)
Example ChunkUrl_example :
  ChunkUrl Demo.t0 4 550 1 2
  = "http://himawari8.nict.go.jp/img/D531106/4d/550/2016/07/18/093000_1_2.png"%string.
Proof. vm_compute. reflexivity. Qed.

(** * Further properties of the pool *)

Section CallFacts.

Context {E : Env}.

Lemma in_call_Inv (Workers : Z) (t : Time.Time) (level : Z) (s : pool) :
  in_call Workers t level s ->
  2 <= norm_level level
  /\ (2 <= pool_size Workers (norm_level level))%nat
  /\ Inv (pool_size Workers (norm_level level)) t (norm_level level) s.
Proof.
  intros (H1 & Hw & sched & Hr).
  pose proof (norm_level_ge level) as Hge.
  assert (H2 : 2 <= norm_level level) by lia.
  split; [assumption|]. split.
  - unfold pool_size.
    pose proof (norm_workers_ge Workers (norm_level level) H2). lia.
  - apply (Inv_run _ _ _ sched
             (pool_start (pool_size Workers (norm_level level))
                (norm_level level)) s); [|assumption].
    apply Inv_init. lia.
Qed.

Lemma returned_closed (cap : nat) (t : Time.Time) (level : Z) (s : pool) :
  Inv cap t level s -> returned s = true -> chunks_closed s = true.
Proof.
  intros HI Hret. rewrite (inv_closed _ _ _ _ HI).
  unfold returned in Hret. destruct (pc s); try discriminate; reflexivity.
Qed.

(** A worker that has not ended can move once [chunks] is closed. *)
Lemma worker_can_step (cap : nat) (t : Time.Time) (level : Z) (s : pool) :
  Inv cap t level s ->
  chunks_closed s = true ->
  ~ all_done (workers s) ->
  can_step cap t level s.
Proof.
  intros HI Hcl Hnd.
  destruct (workers_cases (workers s))
    as [(i & w & Hi & Hb)|[(i & Hi)|Hall]].
  - exists (Work i). cbn [pool_step]. rewrite Hi.
    destruct w as [|x y|x y img|x y err|]; try discriminate; eauto.
    rewrite (errc_has_room cap t level s i x y err HI Hi). eauto.
  - exists (Work i). cbn [pool_step]. rewrite Hi, Hcl. eauto.
  - contradiction.
Qed.

Lemma all_done_dec (ws : list worker) : all_done ws \/ ~ all_done ws.
Proof.
  destruct (workers_cases ws) as [(i & w & Hi & Hb)|[(i & Hi)|Hall]].
  - right. intros Hall. unfold all_done in Hall. rewrite Forall_forall in Hall.
    rewrite (Hall w (nth_error_In _ _ Hi)) in Hb. discriminate.
  - right. intros Hall. unfold all_done in Hall. rewrite Forall_forall in Hall.
    pose proof (Hall _ (nth_error_In _ _ Hi)). discriminate.
  - now left.
Qed.

(** X1. The pool of a call never deadlocks and blocks no goroutine for
    ever: in every state it reaches, a step is enabled, unless [Image] has
    returned and every worker has ended. *)
Theorem pool_never_stuck :
  forall (Workers : Z) (t : Time.Time) (level : Z) (s : pool),
    in_call Workers t level s ->
    can_step (pool_size Workers (norm_level level)) t (norm_level level) s
    \/ (returned s = true /\ all_done (workers s)).
Proof.
  intros Workers t level s Hc.
  destruct (in_call_Inv _ _ _ _ Hc) as (H2 & Hcap & HI).
  destruct (returned s) eqn:Hret.
  - destruct (all_done_dec (workers s)) as [Hd|Hnd].
    + right. now split.
    + left. apply worker_can_step; try assumption.
      exact (returned_closed _ _ _ _ HI Hret).
  - left. apply progress; [lia|assumption|assumption].
Qed.

Lemma length_grid (level : Z) :
  0 <= level -> Z.of_nat (List.length (grid level)) = level * level.
Proof.
  intros Hl. unfold grid.
  assert (H : forall ys,
             Z.of_nat (List.length (flat_map (fun y => row level y 0) ys))
             = Z.of_nat (List.length ys) * level).
  { induction ys as [|y ys IH]; [reflexivity|].
    cbn [flat_map List.length]. rewrite length_app, Nat2Z.inj_add, IH.
    unfold row. rewrite length_map, length_zrange. lia. }
  rewrite H, length_zrange. lia.
Qed.

(** X2. Every run of the pool of a call is finite: a schedule of enabled
    steps, continued after the return of [Image] or not, has at most
    [4 * level * level + workers + 3] steps. *)
Theorem pool_runs_bounded :
  forall (Workers : Z) (t : Time.Time) (level : Z) (sched : list action)
         (s : pool),
    norm_level level <> 1 ->
    pool_run (pool_size Workers (norm_level level)) t (norm_level level)
      sched (pool_start (pool_size Workers (norm_level level))
               (norm_level level)) = Some s ->
    Z.of_nat (List.length sched)
    <= 4 * (norm_level level * norm_level level)
       + Z.of_nat (pool_size Workers (norm_level level)) + 3.
Proof.
  intros Workers t level sched s H1 Hr.
  pose proof (norm_level_ge level) as Hge.
  pose proof (run_bounded _ _ _ sched _ s
                (Inv_init _ t (norm_level level) ltac:(lia)) Hr) as Hb.
  unfold pool_start, measure, pool_init, first_select in Hb.
  destruct (Z.ltb_spec 0 (norm_level level)); [|lia].
  cbn [pc workers phase] in Hb.
  rewrite wsum_repeat, <- grid_remaining in Hb by lia. cbn [weight] in Hb.
  pose proof (length_grid (norm_level level) ltac:(lia)). lia.
Qed.

(** X3. The buffer of [errc] is never full when a worker wants to send:
    in every state of the pool of a call a worker that holds an error can
    send it at once, and at most one error per worker is ever sent. *)
Theorem errc_never_blocks :
  forall (Workers : Z) (t : Time.Time) (level : Z) (s : pool),
    in_call Workers t level s ->
    (forall i x y err,
        nth_error (workers s) i = Some (WErr x y err) ->
        exists s',
          pool_step (pool_size Workers (norm_level level)) t
            (norm_level level) (Work i) s = Some s')
    /\ (List.length (report_errs (trace s))
        <= pool_size Workers (norm_level level))%nat
    /\ (List.length (errc s)
        <= pool_size Workers (norm_level level))%nat.
Proof.
  intros Workers t level s Hc.
  destruct (in_call_Inv _ _ _ _ Hc) as (H2 & Hcap & HI).
  assert (Hrep : (List.length (report_errs (trace s))
                  <= pool_size Workers (norm_level level))%nat).
  { destruct (inv_done _ _ _ _ HI) as [Hd _].
    pose proof (wsum_done_le (workers s)).
    rewrite (inv_len _ _ _ _ HI) in *. lia. }
  split; [|split; [assumption|]].
  - intros i x y err Hi. cbn [pool_step]. rewrite Hi.
    rewrite (errc_has_room _ t (norm_level level) s i x y err HI Hi). eauto.
  - pose proof (inv_errc _ _ _ _ HI) as Herr.
    destruct (pc s); try (rewrite Herr; assumption);
      try (rewrite <- Herr in Hrep; cbn [List.length] in Hrep; lia).
    destruct Herr as [_ ->].
    destruct (report_errs (trace s)); cbn [tl List.length] in *; lia.
Qed.

End CallFacts.

Section CallFacts2.

Context {E : Env}.

(** X4. The return of line 147 joins the pool: when [Image] returns
    after every coordinate of the grid was handed off, and whenever it
    returns a nil error, every worker has ended before the return. *)
Theorem normal_return_joins :
  forall (Workers : Z) (t : Time.Time) (level : Z) (sched : list action)
         (o : outcome),
    Image Workers t level sched = Returns o ->
    (handoffs (out_trace o) = grid (norm_level level) ->
     all_done (out_workers o))
    /\ (out_err o = None -> all_done (out_workers o)).
Proof.
  intros Workers t level sched o Hret.
  destruct (Image_cases _ _ _ _ _ Hret)
    as [(H1 & ->)|[(H2 & Hw & ->)|(H2 & Hw & s & Hr & HI & Hrs & ->)]].
  - split; intros _; destruct (Chunk t 1 0 0); constructor.
  - split; intros _; constructor.
  - cbn [outcome_of_pool out_trace out_workers]. split.
    + intros Hall. exact (joined_all_done _ _ _ s HI Hrs Hall).
    + intros Hnone.
      now destruct (returned_ok _ _ _ s HI Hrs Hnone) as (_ & _ & Hd).
Qed.

Lemma step_keeps_handoffs (cap : nat) (t : Time.Time) (level : Z)
    (a : action) (s s' : pool) :
  (forall x y, pc s <> PSelect x y) ->
  pool_step cap t level a s = Some s' ->
  handoffs (trace s') = handoffs (trace s)
  /\ (forall x y, pc s' <> PSelect x y)
  /\ (List.length (fetches (trace s')) + wsum holds (workers s')
      = List.length (fetches (trace s)) + wsum holds (workers s))%nat.
Proof.
  intros Hp Hs.
  set (g := holds).
  destruct a as [i| | |i]; cbn [pool_step] in Hs.
  - destruct (pc s) as [x y| | | | | |] eqn:Hpc; try discriminate.
    now destruct (Hp x y).
  - destruct (pc s) as [x y| | | | | |] eqn:Hpc; try discriminate.
    now destruct (Hp x y).
  - destruct (pc s) as [x y|err|err| | | |] eqn:Hpc; try discriminate.
    + inversion Hs; subst. cbn. now repeat split.
    + inversion Hs; subst. cbn. now repeat split.
    + inversion Hs; subst. cbn. now repeat split.
    + destruct (forallb is_done (workers s)); [|discriminate].
      inversion Hs; subst. cbn. now repeat split.
  - destruct (nth_error (workers s) i) as [[|x y|x y img|x y err|]|] eqn:Hi;
      try discriminate.
    + destruct (chunks_closed s); [|discriminate].
      inversion Hs; subst.
      cbn [trace pc workers set_worker].
      pose proof (wsum_set_nth g i WDone _ _ Hi) as Hw. cbn in Hw.
      repeat split; [assumption|lia].
    + inversion Hs; subst.
      cbn [trace pc workers set_worker log].
      rewrite handoffs_app, fetches_app, length_app. cbn [handoffs fetches flat_map app List.length].
      rewrite app_nil_r.
      pose proof (wsum_set_nth g i
                    match Chunk t level x y with
                    | inl img => WImg x y img
                    | inr err => WErr x y err
                    end _ _ Hi) as Hw.
      repeat split; [assumption|].
      destruct (Chunk t level x y); cbn in Hw; lia.
    + inversion Hs; subst.
      cbn [trace pc workers set_worker set_canvas log].
      rewrite handoffs_app, fetches_app, length_app. cbn [handoffs fetches flat_map app List.length].
      rewrite app_nil_r.
      pose proof (wsum_set_nth g i WIdle _ _ Hi) as Hw. cbn in Hw.
      repeat split; [assumption|lia].
    + destruct (List.length (errc s) <? cap)%nat; [|discriminate].
      inversion Hs; subst.
      cbn [trace pc workers set_worker set_errc log].
      rewrite handoffs_app, fetches_app, length_app. cbn [handoffs fetches flat_map app List.length].
      rewrite app_nil_r.
      pose proof (wsum_set_nth g i WDone _ _ Hi) as Hw. cbn in Hw.
      repeat split; [assumption|lia].
Qed.


(** X5. Fail-fast: once the goroutine of [Image] has left its loop, be it
    through an error taken by the select or at the end of the grid, no
    further chunk is handed to a worker, whatever happens next; the
    workers fetch at most the chunks they hold at that moment. *)
Theorem no_dispatch_after_loop :
  forall (cap : nat) (t : Time.Time) (level : Z) (sched : list action)
         (s s' : pool),
    (forall x y, pc s <> PSelect x y) ->
    pool_run cap t level sched s = Some s' ->
    handoffs (trace s') = handoffs (trace s)
    /\ (List.length (fetches (trace s'))
        <= List.length (fetches (trace s)) + wsum holds (workers s))%nat.
Proof.
  intros cap t level sched. induction sched as [|a sched IH];
    intros s s' Hp Hr; cbn [pool_run] in Hr.
  - inversion Hr; subst. split; [reflexivity|lia].
  - destruct (pool_step cap t level a s) as [s1|] eqn:Hs; [|discriminate].
    destruct (step_keeps_handoffs cap t level a s s1 Hp Hs)
      as (Hh & Hp1 & Hf).
    destruct (IH s1 s' Hp1 Hr) as [Hh' Hf'].
    split; [congruence|lia].
Qed.

(** X6. In every state of the pool of a call the chunks handed off so far
    are a prefix of the grid in row-major order; a chunk is fetched only
    after it was handed off, and drawn or reported only after it was
    fetched, never both and never twice. *)
Theorem dispatch_order :
  forall (Workers : Z) (t : Time.Time) (level : Z) (s : pool),
    in_call Workers t level s ->
    (exists rest, handoffs (trace s) ++ rest = grid (norm_level level))
    /\ forall c,
         (count c (fetches (trace s)) <= count c (handoffs (trace s)))%nat
         /\ (count c (draws (trace s)) + count c (reports (trace s))
             <= count c (fetches (trace s)))%nat
         /\ (count c (fetches (trace s)) <= 1)%nat.
Proof.
  intros Workers t level s Hc.
  destruct (in_call_Inv _ _ _ _ Hc) as (H2 & Hcap & HI).
  split.
  - destruct (inv_sent _ _ _ _ HI) as (rest & Hrest & _). now exists rest.
  - intros c.
    pose proof (inv_has _ _ _ _ HI c). pose proof (inv_got _ _ _ _ HI c).
    pose proof (fetches_le_grid _ _ _ s c HI).
    pose proof (count_grid_le (norm_level level) c). lia.
Qed.



(** X11. Whether a call succeeds depends on the chunks alone, not on the
    number of workers or the scheduling: a return of [Image] carries a nil
    error exactly when every chunk of the grid is served; and an error it
    returns is always the error of a chunk of the grid that fails. *)
Theorem error_iff_some_chunk_fails :
  forall (Workers : Z) (t : Time.Time) (level : Z) (sched : list action)
         (o : outcome),
    Image Workers t level sched = Returns o ->
    (out_err o = None
     <-> served t (norm_level level) (grid (norm_level level)))
    /\ forall err,
         out_err o = Some err ->
         exists x y,
           List.In (x, y) (grid (norm_level level))
           /\ Chunk t (norm_level level) x y = inr err.
Proof.
  intros Workers t level sched o Hret.
  destruct (Image_cases _ _ _ _ _ Hret)
    as [(H1 & ->)|[(H2 & Hw & ->)|(H2 & Hw & s & Hr & HI & Hrs & ->)]].
  - rewrite H1, grid_one. destruct (Chunk t 1 0 0) as [img|e] eqn:Hc;
      cbn [out_err]; split.
    + split; [|reflexivity]. intros _ c [<-|[]]. now exists img.
    + discriminate.
    + split; [discriminate|]. intros Hs.
      destruct (Hs (0, 0) (or_introl eq_refl)) as [img Himg].
      cbn in Himg. congruence.
    + intros err Heq. inversion Heq; subst. exists 0, 0.
      split; [now left|assumption].
  - cbv zeta.
    destruct (seq_outcome t (norm_level level))
      as [(Hs & cv & Heq & Hok)
         |(pre & x & y & e & post & cv & Hg & Hpre & Hc & Heq)];
      cbv zeta in Heq; rewrite Heq; cbn [fst snd out_err]; split.
    + split; [intros _; assumption|reflexivity].
    + discriminate.
    + split; [discriminate|]. intros Hs.
      destruct (Hs (x, y)) as [img Himg].
      * rewrite Hg. apply in_or_app. right. now left.
      * cbn in Himg. congruence.
    + intros err Heq'. inversion Heq'; subst. exists x, y.
      split; [|assumption]. rewrite Hg. apply in_or_app. right. now left.
  - split.
    + split.
      * intros Hnone.
        destruct (returned_ok _ _ _ s HI Hrs Hnone) as (_ & Hdrawn & _).
        intros [x y] Hin.
        pose proof (inv_events _ _ _ _ HI) as Hok.
        rewrite Forall_forall in Hok.
        exact (Hok _ (draws_in _ _ _ (Hdrawn _ Hin))).
      * intros Hs. exact (returned_served _ _ _ s HI Hrs Hs).
    + intros err Heq. rewrite (returned_err _ _ _ s HI Hrs) in Heq.
      destruct (reported_chunk _ _ _ s err HI) as (x & y & Hg & Hc & _).
      * destruct (report_errs (trace s)); [discriminate|].
        inversion Heq; subst. now left.
      * now exists x, y.
Qed.

End CallFacts2.

(** * The canvas as a function of the chunks *)


Section RenderFacts.

Context {E : Env}.





End RenderFacts.

Section RenderRuns.

Context {E : Env}.



(** A run up to the return is a run. *)
Lemma run_to_return_run (cap : nat) (t : Time.Time) (level : Z)
    (sched : list action) (s s' : pool) :
  run_to_return cap t level sched s = Some s' ->
  exists pre, pool_run cap t level pre s = Some s'.
Proof.
  revert s. induction sched as [|a sched IH]; intros s Hr;
    cbn [run_to_return] in Hr.
  - destruct (returned s); [|discriminate]. inversion Hr; subst.
    now exists [].
  - destruct (returned s).
    + inversion Hr; subst. now exists [].
    + destruct (pool_step cap t level a s) as [s1|] eqn:Hs; [|discriminate].
      destruct (IH s1 Hr) as [pre Hpre].
      exists (a :: pre). cbn [pool_run]. now rewrite Hs.
Qed.




End RenderRuns.

(** * Time and the URLs *)

Lemma ChunkUrl_stamp (t : Time.Time) (level width x y : Z) :
  ChunkUrl t level width x y = url_template level width (Time.unix t) x y.
Proof.
  unfold ChunkUrl. rewrite Format_stamp. unfold url_template.
  cbn [Fmt.Sprintf Fmt.extra].
  repeat (rewrite ?append_assoc; cbn [append]).
  reflexivity.
Qed.

Section Instants.

Context {E : Env}.

Lemma Chunk_instant (t1 t2 : Time.Time) (level x y : Z) :
  Time.unix t1 = Time.unix t2 ->
  Chunk t1 level x y = Chunk t2 level x y.
Proof.
  intros H. unfold Chunk. now rewrite !ChunkUrl_stamp, H.
Qed.

Lemma pool_step_instant (cap : nat) (t1 t2 : Time.Time) (level : Z)
    (a : action) (s : pool) :
  Time.unix t1 = Time.unix t2 ->
  pool_step cap t1 level a s = pool_step cap t2 level a s.
Proof.
  intros H. destruct a as [i| | |i]; cbn [pool_step]; try reflexivity.
  destruct (nth_error (workers s) i) as [[|x y|x y img|x y err|]|];
    try reflexivity.
  now rewrite (Chunk_instant t1 t2 level x y H).
Qed.

Lemma run_to_return_instant (cap : nat) (t1 t2 : Time.Time) (level : Z)
    (sched : list action) (s : pool) :
  Time.unix t1 = Time.unix t2 ->
  run_to_return cap t1 level sched s = run_to_return cap t2 level sched s.
Proof.
  intros H. revert s. induction sched as [|a sched IH]; intros s;
    cbn [run_to_return]; [reflexivity|].
  rewrite (pool_step_instant cap t1 t2 level a s H).
  destruct (returned s); [reflexivity|].
  destruct (pool_step cap t2 level a s); [apply IH|reflexivity].
Qed.

Lemma seq_pass_instant (t1 t2 : Time.Time) (level : Z) (cs : list (Z * Z))
    (s : store) :
  Time.unix t1 = Time.unix t2 ->
  seq_pass t1 level cs s = seq_pass t2 level cs s.
Proof.
  intros H. revert s. induction cs as [|[x y] cs IH]; intros s;
    cbn [seq_pass]; [reflexivity|].
  rewrite (Chunk_instant t1 t2 level x y H).
  destruct (Chunk t2 level x y); [apply IH|reflexivity].
Qed.

Lemma Image_instant (Workers : Z) (t1 t2 : Time.Time) (level : Z)
    (sched : list action) :
  Time.unix t1 = Time.unix t2 ->
  Image Workers t1 level sched = Image Workers t2 level sched.
Proof.
  intros H. unfold Image.
  rewrite (Chunk_instant t1 t2 (norm_level level) 0 0 H).
  rewrite !Image_sequential_pass.
  rewrite (seq_pass_instant t1 t2 _ _ _ H).
  rewrite (run_to_return_instant _ t1 t2 _ _ _ H).
  reflexivity.
Qed.

(** X12. [Image] depends on its time through the instant only, counted in
    whole seconds: two times of the same instant, whatever their
    locations and nanoseconds, give the same requests and the same
    result under every schedule. *)
Theorem Image_depends_on_instant :
  forall (Workers : Z) (t1 t2 : Time.Time) (level : Z)
         (sched : list action),
    Time.unix t1 = Time.unix t2 ->
    Image Workers t1 level sched = Image Workers t2 level sched
    /\ forall x y,
         ChunkUrl t1 (norm_level level) Width x y
         = ChunkUrl t2 (norm_level level) Width x y.
Proof.
  intros Workers t1 t2 level sched H. split.
  - now apply Image_instant.
  - intros x y. now rewrite !ChunkUrl_stamp, H.
Qed.

(** X13. With [offsetTime] set, [LatestImage] loads the image of the
    instant of [Latest] moved by the difference between the local offset
    and the offset of Sydney, so the chunks it requests carry that moved
    instant in their URLs; when the two offsets are equal it is
    [LatestImage] without [offsetTime]. *)
Theorem LatestImage_offset :
  forall (Workers : Z) (level : Z) (sched : list action) (t : Time.Time)
         (himaOff : Z),
    Latest = inl t ->
    sydneyOff = Some himaOff ->
    LatestImage Workers level true sched
    = Image Workers (Time.Add t (localOff - himaOff)) level sched
    /\ (forall x y,
          Chunk (Time.Add t (localOff - himaOff)) (norm_level level) x y
          = http_png (url_template (norm_level level) Width
                        (Time.unix t + (localOff - himaOff)) x y))
    /\ (localOff = himaOff ->
        LatestImage Workers level true sched
        = LatestImage Workers level false sched).
Proof.
  intros Workers level sched t himaOff Hl Hs.
  assert (Hn : forall tt, Image Workers tt (norm_level level) sched
                          = Image Workers tt level sched).
  { intros tt. unfold Image.
    assert (Hnn : norm_level (norm_level level) = norm_level level).
    { pose proof (norm_level_ge level). apply norm_level_pos. lia. }
    now rewrite Hnn. }
  assert (H1 : LatestImage Workers level true sched
               = Image Workers (Time.Add t (localOff - himaOff)) level sched).
  { unfold LatestImage, TimeWithOffset. rewrite Hl, Hs. apply Hn. }
  split; [exact H1|]. split.
  - intros x y. unfold Chunk. now rewrite ChunkUrl_stamp.
  - intros Heq. rewrite H1. unfold LatestImage. rewrite Hl, Hn.
    apply Image_instant. cbn. lia.
Qed.

End Instants.

(** * Decimal numbers and the URLs of different chunks *)

Lemma digit_cases (d : Z) :
  0 <= d < 10 ->
  Digits.is_digit (Fmt.digit d) = true /\ Digits.digit_val (Fmt.digit d) = d.
Proof.
  intros H.
  assert (Hd : d = 0 \/ d = 1 \/ d = 2 \/ d = 3 \/ d = 4 \/ d = 5 \/ d = 6
               \/ d = 7 \/ d = 8 \/ d = 9) by lia.
  repeat (destruct Hd as [->|Hd]; [now split|]). subst. now split.
Qed.

Lemma utoa_aux_digits (fuel : nat) (u : Z) (acc : string) :
  0 <= u -> Digits.all_digits acc = true ->
  Digits.all_digits (Fmt.utoa_aux fuel u acc) = true.
Proof.
  revert u acc. induction fuel as [|fuel IH]; intros u acc Hu Hacc;
    cbn [Fmt.utoa_aux]; [assumption|].
  assert (Hm : 0 <= u mod 10 < 10) by (apply Z.mod_pos_bound; lia).
  assert (Hacc' : Digits.all_digits (String (Fmt.digit (u mod 10)) acc)
                  = true).
  { cbn [Digits.all_digits]. rewrite (proj1 (digit_cases _ Hm)), Hacc.
    reflexivity. }
  destruct (u <? 10); [assumption|].
  apply IH; [apply Z.div_pos; lia|assumption].
Qed.

Lemma utoa_aux_val (fuel : nat) (u : Z) (acc : string) :
  0 <= u < 2 ^ Z.of_nat fuel ->
  Digits.val (Fmt.utoa_aux fuel u acc)
  = u * 10 ^ Z.of_nat (String.length acc) + Digits.val acc.
Proof.
  revert u acc. induction fuel as [|fuel IH]; intros u acc Hu;
    cbn [Fmt.utoa_aux].
  - cbn in Hu. assert (u = 0) as -> by lia. lia.
  - assert (Hm : 0 <= u mod 10 < 10) by (apply Z.mod_pos_bound; lia).
    assert (Hv : Digits.val (String (Fmt.digit (u mod 10)) acc)
                 = u mod 10 * 10 ^ Z.of_nat (String.length acc)
                   + Digits.val acc).
    { cbn [Digits.val]. now rewrite (proj2 (digit_cases _ Hm)). }
    destruct (Z.ltb_spec u 10) as [Hlt|Hge].
    + rewrite Hv. rewrite Z.mod_small by lia. reflexivity.
    + rewrite IH.
      * rewrite Hv. cbn [String.length].
        rewrite Nat2Z.inj_succ, Z.pow_succ_r by lia.
        pose proof (Z.div_mod u 10 ltac:(lia)) as Hdm.
        set (k := 10 ^ Z.of_nat (String.length acc)) in *.
        rewrite Hdm at 3. ring.
      * rewrite Nat2Z.inj_succ, Z.pow_succ_r in Hu by lia.
        split; [apply Z.div_pos; lia|].
        apply Z.div_lt_upper_bound; lia.
Qed.

Lemma utoa_val (u : Z) : 0 <= u -> Digits.val (Fmt.utoa u) = u.
Proof.
  intros Hu. unfold Fmt.utoa. rewrite utoa_aux_val.
  - cbn. lia.
  - split; [assumption|].
    destruct (Z.eq_dec u 0) as [->|Hne]; [reflexivity|].
    rewrite Nat2Z.inj_succ, Z2Nat.id by apply Z.log2_nonneg.
    apply Z.log2_spec. lia.
Qed.

Lemma utoa_digits (u : Z) :
  0 <= u -> Digits.all_digits (Fmt.utoa u) = true.
Proof. intros Hu. now apply utoa_aux_digits. Qed.

Lemma itoa_nonneg (u : Z) : 0 <= u -> Fmt.itoa u = Fmt.utoa u.
Proof.
  intros Hu. unfold Fmt.itoa. destruct (Z.ltb_spec u 0); [lia|reflexivity].
Qed.

Lemma utoa_inj (u v : Z) :
  0 <= u -> 0 <= v -> Fmt.utoa u = Fmt.utoa v -> u = v.
Proof.
  intros Hu Hv H. rewrite <- (utoa_val u Hu), <- (utoa_val v Hv).
  now rewrite H.
Qed.

Lemma append_cancel_l (p a b : string) :
  (p ++ a)%string = (p ++ b)%string -> a = b.
Proof.
  induction p as [|c p IH]; cbn; intros H; [assumption|].
  inversion H. now apply IH.
Qed.

(** Two strings of digits followed by the same character, not a digit:
    the character marks where each ends. *)
Lemma digits_sep (c : ascii) (a a' r r' : string) :
  Digits.is_digit c = false ->
  Digits.all_digits a = true -> Digits.all_digits a' = true ->
  (a ++ String c r)%string = (a' ++ String c r')%string ->
  a = a' /\ r = r'.
Proof.
  intros Hc. revert a'. induction a as [|d a IH]; intros [|d' a'] Ha Ha' H;
    cbn in *.
  - inversion H. now split.
  - inversion H; subst. apply andb_true_iff in Ha'. destruct Ha' as [Hd _].
    congruence.
  - inversion H; subst. apply andb_true_iff in Ha. destruct Ha as [Hd _].
    congruence.
  - inversion H; subst.
    apply andb_true_iff in Ha, Ha'. destruct Ha as [_ Ha], Ha' as [_ Ha'].
    destruct (IH a' Ha Ha' H2) as [-> ->]. now split.
Qed.

Lemma ChunkUrl_inj :
  forall (t : Time.Time) (width level x y level' x' y' : Z),
    0 <= level -> 0 <= x -> 0 <= y ->
    0 <= level' -> 0 <= x' -> 0 <= y' ->
    ChunkUrl t level width x y = ChunkUrl t level' width x' y' ->
    level = level' /\ x = x' /\ y = y'.
Proof.
  intros t width level x y level' x' y' Hl Hx Hy Hl' Hx' Hy' H.
  rewrite !ChunkUrl_stamp in H. unfold url_template in H.
  apply append_cancel_l in H.
  rewrite (itoa_nonneg level), (itoa_nonneg level'), (itoa_nonneg x),
    (itoa_nonneg x'), (itoa_nonneg y), (itoa_nonneg y') in H by assumption.
  cbn [append] in H.
  destruct (digits_sep "d" _ _ _ _ eq_refl (utoa_digits level Hl)
              (utoa_digits level' Hl') H) as [Hlev Hrest].
  apply utoa_inj in Hlev; try assumption. subst level'.
  inversion Hrest as [Hrest']. clear Hrest.
  apply append_cancel_l in Hrest'. inversion Hrest' as [H1]. clear Hrest'.
  apply append_cancel_l in H1. inversion H1 as [H2]. clear H1.
  destruct (digits_sep "_" _ _ _ _ eq_refl (utoa_digits x Hx)
              (utoa_digits x' Hx') H2) as [Hxx Hrest].
  apply utoa_inj in Hxx; try assumption. subst x'.
  destruct (digits_sep "." _ _ _ _ eq_refl (utoa_digits y Hy)
              (utoa_digits y' Hy') Hrest) as [Hyy _].
  apply utoa_inj in Hyy; try assumption. now subst y'.
Qed.

(** X14. The URLs of different chunks differ: for one time and one width
    [ChunkUrl] is injective in the level and the coordinates (each zero
    or more), so the server is never asked one file for two chunks. *)
Theorem ChunkUrl_injective :
  forall (t : Time.Time) (width level x y level' x' y' : Z),
    0 <= level -> 0 <= x -> 0 <= y ->
    0 <= level' -> 0 <= x' -> 0 <= y' ->
    ChunkUrl t level width x y = ChunkUrl t level' width x' y' ->
    level = level' /\ x = x' /\ y = y'.
Proof. exact ChunkUrl_inj. Qed.

Section RequestFacts.

Context {E : Env}.

(** The fetches of a returning call, on every path. *)
Lemma Image_fetches (Workers : Z) (t : Time.Time) (level : Z)
    (sched : list action) (o : outcome) :
  Image Workers t level sched = Returns o ->
  NoDup (fetches (out_trace o))
  /\ incl (fetches (out_trace o)) (grid (norm_level level)).
Proof.
  intros Hret.
  destruct (Image_cases _ _ _ _ _ Hret)
    as [(H1 & ->)|[(H2 & Hw & ->)|(H2 & Hw & s & Hr & HI & Hrs & ->)]].
  - rewrite H1, grid_one.
    assert (Hf : fetches
                   (out_trace
                      match Chunk t 1 0 0 with
                      | inl img => {| out_img := Some img; out_err := None;
                                      out_trace := [EFetch 0 0];
                                      out_workers := [] |}
                      | inr err => {| out_img := None; out_err := Some err;
                                      out_trace := [EFetch 0 0];
                                      out_workers := [] |}
                      end) = [(0, 0)])
      by (now destruct (Chunk t 1 0 0)).
    rewrite Hf. split; [repeat constructor; intros []|apply incl_refl].
  - cbv zeta.
    destruct (seq_outcome t (norm_level level))
      as [(Hs & cv & Heq & Hok)
         |(pre & x & y & e & post & cv & Hg & Hpre & Hc & Heq)];
      cbv zeta in Heq; rewrite Heq; cbn [fst snd out_trace st_trace].
    + rewrite fetches_fetch_draw. split; [apply NoDup_grid|apply incl_refl].
    + rewrite fetches_app, fetches_fetch_draw. cbn [fetches flat_map app].
      assert (Hpre' : grid (norm_level level) = (pre ++ [(x, y)]) ++ post)
        by (rewrite <- app_assoc; exact Hg).
      split.
      * pose proof (NoDup_grid (norm_level level)) as Hnd.
        rewrite Hpre' in Hnd. now apply NoDup_app_remove_r in Hnd.
      * rewrite Hpre'. apply incl_appl, incl_refl.
  - exact (fetches_once _ _ _ s HI).
Qed.

Lemma NoDup_map_on {A B : Type} (f : A -> B) (l : list A) :
  (forall a b, List.In a l -> List.In b l -> f a = f b -> a = b) ->
  NoDup l -> NoDup (map f l).
Proof.
  intros Hinj Hnd. induction Hnd as [|a l Ha Hnd IH]; cbn; constructor.
  - intros Hin. apply in_map_iff in Hin. destruct Hin as (b & Hb & Hin).
    assert (b = a) by (apply Hinj; [now right|now left|assumption]).
    now subst.
  - apply IH. intros b c Hb Hc. apply Hinj; now right.
Qed.

(** X15. The requests of a call: every URL [Image] asks for is the URL of
    a chunk of the grid, at the normalized level, with width 550 and the
    instant in UTC; and no URL is asked for twice. *)
Theorem requests_distinct :
  forall (Workers : Z) (t : Time.Time) (level : Z) (sched : list action)
         (o : outcome),
    Image Workers t level sched = Returns o ->
    NoDup (requests t (norm_level level) (out_trace o))
    /\ forall u,
         List.In u (requests t (norm_level level) (out_trace o)) ->
         exists x y,
           0 <= x < norm_level level /\ 0 <= y < norm_level level
           /\ u = url_template (norm_level level) 550 (Time.unix t) x y.
Proof.
  intros Workers t level sched o Hret.
  destruct (Image_fetches _ _ _ _ _ Hret) as [Hnd Hincl].
  pose proof (norm_level_ge level) as Hge.
  unfold requests. split.
  - apply NoDup_map_on; [|assumption].
    intros [x y] [x' y'] Hin Hin' Hu. cbn [fst snd] in Hu.
    apply Hincl, in_grid in Hin. apply Hincl, in_grid in Hin'.
    destruct (ChunkUrl_inj t Width (norm_level level) x y
                (norm_level level) x' y') as (_ & -> & ->);
      try lia; [assumption|reflexivity].
  - intros u Hin. apply in_map_iff in Hin.
    destruct Hin as ([x y] & <- & Hin). apply Hincl, in_grid in Hin.
    exists x, y. cbn [fst snd]. rewrite ChunkUrl_stamp.
    repeat split; try lia.
Qed.

End RequestFacts.

(** * The date of [latest.json] and the URLs *)

(** ** The calendar *)

(** The year of the era from the day of the era, in the computation of
    [Time.civil]. *)
Lemma yoe_of_doe (yoe doy : Z) :
  0 <= yoe < 400 ->
  0 <= doy <= 365 ->
  (doy = 365 ->
   (yoe + 1) mod 4 = 0 /\ ((yoe + 1) mod 100 <> 0 \/ yoe = 399)) ->
  (365 * yoe + yoe / 4 - yoe / 100 + doy
   - (365 * yoe + yoe / 4 - yoe / 100 + doy) / 1460
   + (365 * yoe + yoe / 4 - yoe / 100 + doy) / 36524
   - (365 * yoe + yoe / 4 - yoe / 100 + doy) / 146096) / 365 = yoe.
Proof. intros Hy Hd Hl. Z.div_mod_to_equations. lia. Qed.

(** [Time.civil] on a day given by its era, its year of the era (years
    begin in March), its month counted from March and its day. *)
Lemma civil_of_parts (era yoe mp d : Z) :
  0 <= yoe < 400 ->
  0 <= mp <= 11 ->
  1 <= d <= (153 * (mp + 1) + 2) / 5 - (153 * mp + 2) / 5 ->
  (mp = 11 -> d <= 29) ->
  (mp = 11 -> d = 29 ->
   (yoe + 1) mod 4 = 0 /\ ((yoe + 1) mod 100 <> 0 \/ yoe = 399)) ->
  Time.civil (era * 146097 + (365 * yoe + yoe / 4 - yoe / 100)
              + ((153 * mp + 2) / 5 + d - 1) - 719468)
  = (yoe + era * 400 + (if mp <? 10 then 0 else 1),
     if mp <? 10 then mp + 3 else mp - 9, d).
Proof.
  intros Hy Hm Hd Hf Hl.
  set (doy := (153 * mp + 2) / 5 + d - 1).
  assert (Hdoy : 0 <= doy <= 365)
    by (subst doy; Z.div_mod_to_equations; lia).
  assert (Hleap : doy = 365 ->
                  (yoe + 1) mod 4 = 0
                  /\ ((yoe + 1) mod 100 <> 0 \/ yoe = 399)).
  { intros H365. apply Hl; subst doy; Z.div_mod_to_equations; lia. }
  set (doe := 365 * yoe + yoe / 4 - yoe / 100 + doy).
  assert (Hdoe : 0 <= doe < 146097).
  { subst doe. Z.div_mod_to_equations. lia. }
  unfold Time.civil.
  replace (era * 146097 + (365 * yoe + yoe / 4 - yoe / 100) + doy - 719468
           + 719468) with (doe + era * 146097) by (subst doe; lia).
  rewrite Z.div_add by lia.
  rewrite (Z.div_small doe) by lia.
  replace (doe + era * 146097 - (0 + era) * 146097) with doe by lia.
  assert (Hyoe : (doe - doe / 1460 + doe / 36524 - doe / 146096) / 365 = yoe)
    by (subst doe; now apply yoe_of_doe).
  rewrite Hyoe.
  replace (doe - (365 * yoe + yoe / 4 - yoe / 100)) with doy
    by (subst doe; lia).
  assert (Hmp : (5 * doy + 2) / 153 = mp)
    by (subst doy; Z.div_mod_to_equations; lia).
  rewrite Hmp.
  replace (doy - (153 * mp + 2) / 5 + 1) with d by (subst doy; lia).
  destruct (Z.ltb_spec mp 10) as [Hlt|Hge].
  - destruct (Z.leb_spec (mp + 3) 2); [lia|].
    apply f_equal2; [apply f_equal2|]; lia.
  - destruct (Z.leb_spec (mp - 9) 2); [|lia].
    apply f_equal2; [apply f_equal2|]; lia.
Qed.

Lemma isLeap_spec (y : Z) :
  0 <= y ->
  Parse.isLeap y = true
  <-> y mod 4 = 0 /\ (y mod 100 <> 0 \/ y mod 400 = 0).
Proof.
  intros Hy. unfold Parse.isLeap.
  rewrite !Z.rem_mod_nonneg by lia.
  rewrite andb_true_iff, orb_true_iff, negb_true_iff, !Z.eqb_eq, Z.eqb_neq.
  tauto.
Qed.

Lemma month_cases (m : Z) :
  1 <= m <= 12 ->
  m = 1 \/ m = 2 \/ m = 3 \/ m = 4 \/ m = 5 \/ m = 6 \/ m = 7 \/ m = 8
  \/ m = 9 \/ m = 10 \/ m = 11 \/ m = 12.
Proof. lia. Qed.

(** Evaluates the tables and the tests of a given month. *)
Ltac month_consts :=
  repeat match goal with
    | |- context [Parse.daysBefore ?a] =>
        let v := eval vm_compute in (Parse.daysBefore a) in
        lazymatch v with Z0 => idtac | Zpos _ => idtac end;
        change (Parse.daysBefore a) with v
    | H : context [Parse.daysBefore ?a] |- _ =>
        let v := eval vm_compute in (Parse.daysBefore a) in
        lazymatch v with Z0 => idtac | Zpos _ => idtac end;
        change (Parse.daysBefore a) with v in H
    | |- context [Z.leb ?a ?b] =>
        let v := eval vm_compute in (Z.leb a b) in
        lazymatch v with true => idtac | false => idtac end;
        change (Z.leb a b) with v
    | |- context [Z.eqb ?a ?b] =>
        let v := eval vm_compute in (Z.eqb a b) in
        lazymatch v with true => idtac | false => idtac end;
        change (Z.eqb a b) with v
    | H : context [Z.eqb ?a ?b] |- _ =>
        let v := eval vm_compute in (Z.eqb a b) in
        lazymatch v with true => idtac | false => idtac end;
        change (Z.eqb a b) with v in H
    end;
  cbv beta iota delta [andb] in *.

(** The days of a date, by era, year of the era and month from March. *)
Lemma daysTo_parts (y m d : Z) :
  0 <= y -> 1 <= m <= 12 ->
  let y' := if m <=? 2 then y - 1 else y in
  let mp := if m <=? 2 then m + 9 else m - 3 in
  Parse.daysTo y m d
  = (y' / 400) * 146097
    + (365 * (y' mod 400) + (y' mod 400) / 4 - (y' mod 400) / 100)
    + ((153 * mp + 2) / 5 + d - 1) - 719468.
Proof.
  intros Hy Hm. unfold Parse.daysTo, Parse.daysSinceEpoch.
  assert (HL := isLeap_spec y Hy).
  destruct (Parse.isLeap y) eqn:EL.
  - assert (HL' : y mod 4 = 0 /\ (y mod 100 <> 0 \/ y mod 400 = 0))
      by now apply HL.
    clear HL.
    destruct (month_cases m Hm) as [H|H];
      repeat (destruct H as [->|H];
              [month_consts; Z.div_mod_to_equations; lia|]);
      subst m; month_consts; Z.div_mod_to_equations; lia.
  - assert (HL' : ~ (y mod 4 = 0 /\ (y mod 100 <> 0 \/ y mod 400 = 0)))
      by (intros H; apply HL in H; discriminate).
    clear HL.
    destruct (month_cases m Hm) as [H|H];
      repeat (destruct H as [->|H];
              [month_consts; Z.div_mod_to_equations; lia|]);
      subst m; month_consts; Z.div_mod_to_equations; lia.
Qed.

(** [Time.civil] gives back the date of which [Parse.daysTo] counts the
    days. *)
Lemma civil_daysTo (y m d : Z) :
  0 <= y -> 1 <= m <= 12 -> 1 <= d <= Parse.daysIn m y ->
  Time.civil (Parse.daysTo y m d) = (y, m, d).
Proof.
  intros Hy Hm Hd. rewrite daysTo_parts by assumption.
  assert (HL := isLeap_spec y Hy).
  unfold Parse.daysIn in Hd.
  set (y' := if m <=? 2 then y - 1 else y).
  set (mp := if m <=? 2 then m + 9 else m - 3).
  assert (Hy' : 0 <= y' mod 400 < 400) by (apply Z.mod_pos_bound; lia).
  rewrite civil_of_parts.
  - subst y' mp.
    destruct (Z.leb_spec m 2).
    + destruct (Z.ltb_spec (m + 9) 10); [lia|].
      apply f_equal2; [apply f_equal2|]; Z.div_mod_to_equations; lia.
    + destruct (Z.ltb_spec (m - 3) 10); [|lia].
      apply f_equal2; [apply f_equal2|]; Z.div_mod_to_equations; lia.
  - assumption.
  - subst mp. destruct (Z.leb_spec m 2); lia.
  - subst mp.
    destruct (Parse.isLeap y);
      destruct (month_cases m Hm) as [H|H];
      repeat (destruct H as [->|H];
              [month_consts; Z.div_mod_to_equations; lia|]);
      subst m; month_consts; Z.div_mod_to_equations; lia.
  - subst mp. intros H11.
    assert (m = 2) as -> by (destruct (Z.leb_spec m 2); lia).
    destruct (Parse.isLeap y); month_consts; lia.
  - subst mp y'. intros H11 H29.
    assert (m = 2) as -> by (destruct (Z.leb_spec m 2); lia).
    subst d.
    destruct (Parse.isLeap y) eqn:EL; [|month_consts; lia].
    assert (HL' : y mod 4 = 0 /\ (y mod 100 <> 0 \/ y mod 400 = 0))
      by now apply HL.
    month_consts. Z.div_mod_to_equations. lia.
Qed.

(** ** Numbers written and read *)

Lemma utoa_aux_more (fuel k : nat) (u : Z) (acc : string) :
  0 <= u < 2 ^ Z.of_nat (S fuel) ->
  Fmt.utoa_aux (S fuel + k) u acc = Fmt.utoa_aux (S fuel) u acc.
Proof.
  revert u acc. induction fuel as [|fuel IH]; intros u acc Hu.
  - change (2 ^ Z.of_nat 1) with 2 in Hu.
    cbn [Nat.add Fmt.utoa_aux].
    destruct (Z.ltb_spec u 10); [reflexivity|lia].
  - change (S (S fuel) + k)%nat with (S (S fuel + k)).
    cbn [Fmt.utoa_aux]. destruct (Z.ltb_spec u 10); [reflexivity|].
    change (Fmt.utoa_aux (S fuel + k) (u / 10)
              (String (Fmt.digit (u mod 10)) acc)
            = Fmt.utoa_aux (S fuel) (u / 10)
                (String (Fmt.digit (u mod 10)) acc)).
    apply IH.
    rewrite Nat2Z.inj_succ, Z.pow_succ_r in Hu by lia.
    split; [apply Z.div_pos; lia|].
    apply Z.div_lt_upper_bound; lia.
Qed.

Lemma utoa_aux_app (fuel : nat) (u : Z) (acc : string) :
  Fmt.utoa_aux fuel u acc = (Fmt.utoa_aux fuel u "" ++ acc)%string.
Proof.
  revert u acc. induction fuel as [|fuel IH]; intros u acc;
    cbn [Fmt.utoa_aux]; [reflexivity|].
  destruct (u <? 10); [reflexivity|].
  rewrite (IH _ (String _ acc)), (IH _ (String _ "")).
  now rewrite append_assoc.
Qed.

Lemma utoa_lt10 (u : Z) :
  0 <= u < 10 -> Fmt.utoa u = String (Fmt.digit u) "".
Proof.
  intros Hu. unfold Fmt.utoa. cbn [Fmt.utoa_aux].
  rewrite Z.mod_small by lia.
  destruct (Z.ltb_spec u 10); [reflexivity|lia].
Qed.

Lemma utoa_ge10 (u : Z) :
  10 <= u ->
  Fmt.utoa u
  = (Fmt.utoa (u / 10) ++ String (Fmt.digit (u mod 10)) "")%string.
Proof.
  intros Hu. unfold Fmt.utoa at 1. cbn [Fmt.utoa_aux].
  destruct (Z.ltb_spec u 10); [lia|].
  rewrite utoa_aux_app. f_equal.
  assert (Hv : 1 <= u / 10) by (apply Z.div_le_lower_bound; lia).
  assert (Hlog : Z.log2 (u / 10) < Z.log2 u).
  { apply Z.log2_lt_pow2; [lia|].
    assert (H2 : u < 2 ^ Z.succ (Z.log2 u)) by (apply Z.log2_spec; lia).
    rewrite Z.pow_succ_r in H2 by apply Z.log2_nonneg.
    apply Z.div_lt_upper_bound; lia. }
  assert (Hl0 : 0 <= Z.log2 (u / 10)) by apply Z.log2_nonneg.
  unfold Fmt.utoa.
  replace (Z.to_nat (Z.log2 u))
    with (S (Z.to_nat (Z.log2 (u / 10)))
          + (Z.to_nat (Z.log2 u) - S (Z.to_nat (Z.log2 (u / 10)))))%nat
    by lia.
  apply utoa_aux_more.
  rewrite Nat2Z.inj_succ, Z2Nat.id by lia.
  split; [lia|]. apply Z.log2_spec. lia.
Qed.

Lemma appendInt_2 (v : Z) :
  0 <= v < 100 ->
  Fmt.appendInt v 2
  = String (Fmt.digit (v / 10)) (String (Fmt.digit (v mod 10)) "").
Proof.
  intros Hv. unfold Fmt.appendInt.
  destruct (Z.ltb_spec v 0); [lia|]. rewrite Z.abs_eq by lia.
  destruct (Z.lt_ge_cases v 10) as [Hlt|Hge].
  - rewrite utoa_lt10, Z.div_small, Z.mod_small by lia. reflexivity.
  - rewrite utoa_ge10, utoa_lt10 by (Z.div_mod_to_equations; lia).
    reflexivity.
Qed.

Lemma appendInt_4 (v : Z) :
  0 <= v < 10000 ->
  Fmt.appendInt v 4
  = String (Fmt.digit (v / 1000))
      (String (Fmt.digit (v / 100 mod 10))
         (String (Fmt.digit (v / 10 mod 10))
            (String (Fmt.digit (v mod 10)) ""))).
Proof.
  intros Hv. unfold Fmt.appendInt.
  destruct (Z.ltb_spec v 0); [lia|]. rewrite Z.abs_eq by lia.
  assert (H1 : v / 10 / 10 = v / 100)
    by (rewrite Z.div_div by lia; reflexivity).
  assert (H2 : v / 100 / 10 = v / 1000)
    by (rewrite Z.div_div by lia; reflexivity).
  destruct (Z.lt_ge_cases v 10) as [Hlt|Hge].
  { rewrite utoa_lt10 by lia.
    rewrite (Z.div_small v 1000), (Z.div_small v 100), (Z.div_small v 10),
      (Z.mod_small v 10) by lia.
    reflexivity. }
  rewrite utoa_ge10 by lia.
  destruct (Z.lt_ge_cases v 100) as [Hlt|Hge2].
  { rewrite utoa_lt10 by (Z.div_mod_to_equations; lia).
    rewrite (Z.div_small v 1000), (Z.div_small v 100) by lia.
    rewrite (Z.mod_small (v / 10) 10) by (Z.div_mod_to_equations; lia).
    reflexivity. }
  rewrite utoa_ge10 by (Z.div_mod_to_equations; lia). rewrite H1.
  destruct (Z.lt_ge_cases v 1000) as [Hlt|Hge3].
  { rewrite utoa_lt10 by (Z.div_mod_to_equations; lia).
    rewrite (Z.div_small v 1000) by lia.
    rewrite (Z.mod_small (v / 100) 10) by (Z.div_mod_to_equations; lia).
    reflexivity. }
  rewrite utoa_ge10 by (Z.div_mod_to_equations; lia). rewrite H2.
  rewrite utoa_lt10 by (Z.div_mod_to_equations; lia).
  reflexivity.
Qed.

(** A digit is the character of its value. *)
Lemma digit_of_val (c : ascii) :
  Digits.is_digit c = true ->
  Fmt.digit (Digits.digit_val c) = c /\ 0 <= Digits.digit_val c < 10.
Proof.
  destruct c as [[] [] [] [] [] [] [] []]; intros H;
    try discriminate H; split; try reflexivity; cbv; split; congruence.
Qed.

Lemma getnum_digits (a b : Z) (fixed : bool) (r : string) :
  0 <= a < 10 -> 0 <= b < 10 ->
  Parse.getnum (String (Fmt.digit a) (String (Fmt.digit b) r)) fixed
  = Some (a * 10 + b, r).
Proof.
  intros Ha Hb. unfold Parse.getnum.
  destruct (digit_cases a Ha) as [-> ->].
  destruct (digit_cases b Hb) as [-> ->]. reflexivity.
Qed.

(** [getnum] reads a number that [appendInt] wrote with two digits. *)
Lemma getnum_appendInt (v : Z) (fixed : bool) (r : string) :
  0 <= v < 100 ->
  Parse.getnum (Fmt.appendInt v 2 ++ r) fixed = Some (v, r).
Proof.
  intros Hv. rewrite appendInt_2 by assumption. cbn [append].
  rewrite getnum_digits by (Z.div_mod_to_equations; lia).
  do 2 f_equal. Z.div_mod_to_equations. lia.
Qed.

(** [getyear] reads a year that [appendInt] wrote with four digits. *)
Lemma getyear_appendInt (v : Z) (r : string) :
  0 <= v < 10000 ->
  Parse.getyear (Fmt.appendInt v 4 ++ r) = Some (v, r).
Proof.
  intros Hv. rewrite appendInt_4 by assumption. cbn [append].
  unfold Parse.getyear.
  assert (H3 : 0 <= v / 1000 < 10) by (Z.div_mod_to_equations; lia).
  assert (H2 : 0 <= v / 100 mod 10 < 10) by (Z.div_mod_to_equations; lia).
  assert (H1 : 0 <= v / 10 mod 10 < 10) by (Z.div_mod_to_equations; lia).
  assert (H0 : 0 <= v mod 10 < 10) by (Z.div_mod_to_equations; lia).
  cbn [Digits.all_digits Digits.val String.length].
  destruct (digit_cases _ H3) as [-> ->].
  destruct (digit_cases _ H2) as [-> ->].
  destruct (digit_cases _ H1) as [-> ->].
  destruct (digit_cases _ H0) as [-> ->].
  cbn [andb]. do 2 f_equal.
  change (10 ^ Z.of_nat 3) with 1000. change (10 ^ Z.of_nat 2) with 100.
  change (10 ^ Z.of_nat 1) with 10. change (10 ^ Z.of_nat 0) with 1.
  Z.div_mod_to_equations. lia.
Qed.

(** ** From the date to the URLs *)

Lemma daysIn_le (m y : Z) : 1 <= m <= 12 -> 28 <= Parse.daysIn m y <= 31.
Proof.
  intros Hm. unfold Parse.daysIn.
  destruct (Parse.isLeap y);
    destruct (month_cases m Hm) as [H|H];
    repeat (destruct H as [->|H]; [month_consts; lia|]);
    subst m; month_consts; lia.
Qed.

(** The steps of the loop of [Parse] on the elements and the literal
    characters of [date_layout]. *)
Lemma scan_year (rest value : string) (f : Parse.fields) :
  Parse.scan (String "2" (String "0" (String "0" (String "6" rest)))) value f
  = match Parse.getyear value with
    | Some (n, v) =>
        Parse.scan rest v
          {| Parse.year := n; Parse.month := Parse.month f;
             Parse.day := Parse.day f; Parse.hour := Parse.hour f;
             Parse.min := Parse.min f; Parse.sec := Parse.sec f;
             Parse.nsec := Parse.nsec f |}
    | None => None
    end.
Proof. reflexivity. Qed.

Lemma scan_month (rest value : string) (f : Parse.fields) :
  Parse.scan (String "0" (String "1" rest)) value f
  = match Parse.getnum value true with
    | Some (n, v) =>
        if (n <=? 0) || (12 <? n) then None
        else Parse.scan rest v
               {| Parse.year := Parse.year f; Parse.month := n;
                  Parse.day := Parse.day f; Parse.hour := Parse.hour f;
                  Parse.min := Parse.min f; Parse.sec := Parse.sec f;
                  Parse.nsec := Parse.nsec f |}
    | None => None
    end.
Proof. reflexivity. Qed.

Lemma scan_day (rest value : string) (f : Parse.fields) :
  Parse.scan (String "0" (String "2" rest)) value f
  = match Parse.getnum value true with
    | Some (n, v) =>
        Parse.scan rest v
          {| Parse.year := Parse.year f; Parse.month := Parse.month f;
             Parse.day := n; Parse.hour := Parse.hour f;
             Parse.min := Parse.min f; Parse.sec := Parse.sec f;
             Parse.nsec := Parse.nsec f |}
    | None => None
    end.
Proof. reflexivity. Qed.

Lemma scan_hour (rest value : string) (f : Parse.fields) :
  Parse.scan (String "1" (String "5" rest)) value f
  = match Parse.getnum value false with
    | Some (n, v) =>
        if (n <? 0) || (24 <=? n) then None
        else Parse.scan rest v
               {| Parse.year := Parse.year f; Parse.month := Parse.month f;
                  Parse.day := Parse.day f; Parse.hour := n;
                  Parse.min := Parse.min f; Parse.sec := Parse.sec f;
                  Parse.nsec := Parse.nsec f |}
    | None => None
    end.
Proof. reflexivity. Qed.

Lemma scan_minute (rest value : string) (f : Parse.fields) :
  Parse.scan (String "0" (String "4" rest)) value f
  = match Parse.getnum value true with
    | Some (n, v) =>
        if (n <? 0) || (60 <=? n) then None
        else Parse.scan rest v
               {| Parse.year := Parse.year f; Parse.month := Parse.month f;
                  Parse.day := Parse.day f; Parse.hour := Parse.hour f;
                  Parse.min := n; Parse.sec := Parse.sec f;
                  Parse.nsec := Parse.nsec f |}
    | None => None
    end.
Proof. reflexivity. Qed.

Lemma scan_second (rest value : string) (f : Parse.fields) :
  Parse.scan (String "0" (String "5" rest)) value f
  = match Parse.getnum value true with
    | Some (n, v) =>
        if (n <? 0) || (60 <=? n) then None
        else Parse.scan rest (snd (Parse.fraction v))
               {| Parse.year := Parse.year f; Parse.month := Parse.month f;
                  Parse.day := Parse.day f; Parse.hour := Parse.hour f;
                  Parse.min := Parse.min f; Parse.sec := n;
                  Parse.nsec := fst (Parse.fraction v) |}
    | None => None
    end.
Proof. reflexivity. Qed.

Lemma scan_dash (rest value : string) (f : Parse.fields) :
  Parse.scan (String "-" rest) value f
  = match value with
    | String c v => if Ascii.eqb c "-" then Parse.scan rest v f else None
    | EmptyString => None
    end.
Proof. reflexivity. Qed.

Lemma scan_colon (rest value : string) (f : Parse.fields) :
  Parse.scan (String ":" rest) value f
  = match value with
    | String c v => if Ascii.eqb c ":" then Parse.scan rest v f else None
    | EmptyString => None
    end.
Proof. reflexivity. Qed.

Lemma scan_space (rest value : string) (f : Parse.fields) :
  Parse.scan (String " " rest) value f
  = match value with
    | String c _ =>
        if Ascii.eqb c " " then Parse.scan rest (Parse.cutspace value) f
        else None
    | EmptyString => Parse.scan rest value f
    end.
Proof. reflexivity. Qed.

Lemma scan_end (value : string) (f : Parse.fields) :
  Parse.scan "" value f
  = match value with EmptyString => Some f | _ => None end.
Proof. reflexivity. Qed.

(** The loop of [Parse] on a date written in the layout. *)
Lemma scan_date_string (y m d h mi s : Z) :
  0 <= y < 10000 -> 1 <= m <= 12 -> 0 <= d < 100 ->
  0 <= h < 24 -> 0 <= mi < 60 -> 0 <= s < 60 ->
  Parse.scan date_layout (date_string y m d h mi s) Parse.unset
  = Some {| Parse.year := y; Parse.month := m; Parse.day := d;
            Parse.hour := h; Parse.min := mi; Parse.sec := s;
            Parse.nsec := 0 |}.
Proof.
  intros Hy Hm Hd Hh Hmi Hs. unfold date_layout, date_string.
  rewrite scan_year, getyear_appendInt by lia.
  rewrite scan_dash. cbn [append Ascii.eqb Bool.eqb andb].
  rewrite scan_month, getnum_appendInt by lia.
  destruct (Z.leb_spec m 0); [lia|]. destruct (Z.ltb_spec 12 m); [lia|].
  cbn [orb].
  rewrite scan_dash. cbn [append Ascii.eqb Bool.eqb andb].
  rewrite scan_day, getnum_appendInt by lia.
  rewrite scan_space. cbn [append Ascii.eqb Bool.eqb andb Parse.cutspace].
  assert (Hcut : forall r, Parse.cutspace (Fmt.appendInt h 2 ++ r)
                           = (Fmt.appendInt h 2 ++ r)%string).
  { intros r. rewrite appendInt_2 by lia. cbn [append].
    assert (Hc : h / 10 = 0 \/ h / 10 = 1 \/ h / 10 = 2)
      by (Z.div_mod_to_equations; lia).
    destruct Hc as [->|[->| ->]]; reflexivity. }
  rewrite Hcut.
  rewrite scan_hour, getnum_appendInt by lia.
  destruct (Z.ltb_spec h 0); [lia|]. destruct (Z.leb_spec 24 h); [lia|].
  cbn [orb].
  rewrite scan_colon. cbn [append Ascii.eqb Bool.eqb andb].
  rewrite scan_minute, getnum_appendInt by lia.
  destruct (Z.ltb_spec mi 0); [lia|]. destruct (Z.leb_spec 60 mi); [lia|].
  cbn [orb].
  rewrite scan_colon. cbn [append Ascii.eqb Bool.eqb andb].
  rewrite <- (append_nil_r (Fmt.appendInt s 2)).
  rewrite scan_second, getnum_appendInt by lia.
  destruct (Z.ltb_spec s 0); [lia|]. destruct (Z.leb_spec 60 s); [lia|].
  reflexivity.
Qed.

(** The date and the time of day of an instant counted from a day. *)
Lemma utc_stamp_Date (y m d h mi s ns : Z) :
  0 <= y -> 1 <= m <= 12 -> 1 <= d <= Parse.daysIn m y ->
  0 <= h < 24 -> 0 <= mi < 60 -> 0 <= s < 60 ->
  utc_stamp (Time.unix (Parse.Date y m d h mi s ns))
  = date_stamp y m d h mi s.
Proof.
  intros Hy Hm Hd Hh Hmi Hs. unfold utc_stamp, date_stamp, Parse.Date.
  cbn [Time.unix].
  set (D := Parse.daysTo y m d).
  replace ((D * 86400 + h * 3600 + mi * 60 + s) / 86400) with D
    by (Z.div_mod_to_equations; lia).
  replace ((D * 86400 + h * 3600 + mi * 60 + s) mod 86400 / 3600) with h
    by (Z.div_mod_to_equations; lia).
  replace ((D * 86400 + h * 3600 + mi * 60 + s) mod 3600 / 60) with mi
    by (Z.div_mod_to_equations; lia).
  replace ((D * 86400 + h * 3600 + mi * 60 + s) mod 60) with s
    by (Z.div_mod_to_equations; lia).
  subst D. rewrite civil_daysTo by assumption. reflexivity.
Qed.

Lemma url_template_with (level width secs x y : Z) :
  url_template level width secs x y
  = url_with level width (utc_stamp secs) x y.
Proof. reflexivity. Qed.

Lemma Parse_date_string (y m d h mi s : Z) :
  0 <= y <= 9999 -> 1 <= m <= 12 -> 1 <= d <= Parse.daysIn m y ->
  0 <= h < 24 -> 0 <= mi < 60 -> 0 <= s < 60 ->
  Parse.Parse date_layout (date_string y m d h mi s)
  = Some (Parse.Date y m d h mi s 0).
Proof.
  intros Hy Hm Hd Hh Hmi Hs.
  assert (H31 := daysIn_le m y Hm).
  unfold Parse.Parse. rewrite scan_date_string by lia.
  cbn [Parse.year Parse.month Parse.day Parse.hour Parse.min Parse.sec
       Parse.nsec].
  destruct (Z.ltb_spec m 0); [lia|]. destruct (Z.ltb_spec d 0); [lia|].
  destruct (Z.ltb_spec d 1); [lia|].
  destruct (Z.ltb_spec (Parse.daysIn m y) d); [lia|]. reflexivity.
Qed.

(** ** From an accepted date back to its characters *)

Lemma getnum_two (n : Z) (r : string) (a b : ascii) :
  Digits.is_digit a = true -> Digits.is_digit b = true ->
  n = Digits.digit_val a * 10 + Digits.digit_val b ->
  0 <= n < 100 /\ String a (String b r) = (Fmt.appendInt n 2 ++ r)%string.
Proof.
  intros Ha Hb ->.
  destruct (digit_of_val a Ha) as [Ea Ra].
  destruct (digit_of_val b Hb) as [Eb Rb].
  split; [lia|]. rewrite appendInt_2 by lia. cbn [append].
  replace ((Digits.digit_val a * 10 + Digits.digit_val b) / 10)
    with (Digits.digit_val a) by (Z.div_mod_to_equations; lia).
  replace ((Digits.digit_val a * 10 + Digits.digit_val b) mod 10)
    with (Digits.digit_val b) by (Z.div_mod_to_equations; lia).
  now rewrite Ea, Eb.
Qed.

(** What [getnum] accepts when two digits are asked for. *)
Lemma getnum_fixed_sound (s : string) (n : Z) (r : string) :
  Parse.getnum s true = Some (n, r) ->
  0 <= n < 100 /\ s = (Fmt.appendInt n 2 ++ r)%string.
Proof.
  unfold Parse.getnum. destruct s as [|a [|b r']]; try discriminate.
  - destruct (Digits.is_digit a); discriminate.
  - destruct (Digits.is_digit a) eqn:Ha; [|discriminate].
    destruct (Digits.is_digit b) eqn:Hb; [|discriminate].
    intros H. injection H as Hn <-. now apply getnum_two.
Qed.

(** What [getnum] accepts when one digit is enough. *)
Lemma getnum_sound (s : string) (n : Z) (r : string) :
  Parse.getnum s false = Some (n, r) ->
  0 <= n < 100
  /\ (s = (Fmt.appendInt n 2 ++ r)%string
      \/ (n < 10 /\ s = (Fmt.itoa n ++ r)%string)).
Proof.
  unfold Parse.getnum. destruct s as [|a r0]; [discriminate|].
  destruct (Digits.is_digit a) eqn:Ha; [|discriminate].
  assert (H1 : forall r1, Some (Digits.digit_val a, r1) = Some (n, r) ->
                 0 <= n < 100
                 /\ (String a r1 = (Fmt.appendInt n 2 ++ r)%string
                     \/ (n < 10 /\ String a r1 = (Fmt.itoa n ++ r)%string))).
  { intros r1 H. injection H as <- <-.
    destruct (digit_of_val a Ha) as [Ea Ra].
    split; [lia|]. right. split; [lia|].
    rewrite itoa_nonneg, utoa_lt10 by lia. now rewrite Ea. }
  destruct r0 as [|b r']; [apply H1|].
  destruct (Digits.is_digit b) eqn:Hb; [|apply H1].
  intros H. injection H as Hn <-.
  destruct (getnum_two n r' a b Ha Hb (eq_sym Hn)) as [Hr He].
  split; [assumption|]. now left.
Qed.

(** What [getyear] accepts. *)
Lemma getyear_sound (s : string) (n : Z) (r : string) :
  Parse.getyear s = Some (n, r) ->
  0 <= n < 10000 /\ s = (Fmt.appendInt n 4 ++ r)%string.
Proof.
  unfold Parse.getyear. destruct s as [|a [|b [|c [|d r']]]]; try discriminate.
  cbn [Digits.all_digits Digits.val String.length].
  destruct (Digits.is_digit a) eqn:Ha; [|discriminate].
  destruct (Digits.is_digit b) eqn:Hb; [|discriminate].
  destruct (Digits.is_digit c) eqn:Hc; [|discriminate].
  destruct (Digits.is_digit d) eqn:Hd; [|discriminate].
  cbn [andb]. intros H. injection H as Hn <-.
  change (10 ^ Z.of_nat 3) with 1000 in Hn.
  change (10 ^ Z.of_nat 2) with 100 in Hn.
  change (10 ^ Z.of_nat 1) with 10 in Hn.
  change (10 ^ Z.of_nat 0) with 1 in Hn.
  destruct (digit_of_val a Ha) as [Ea Ra].
  destruct (digit_of_val b Hb) as [Eb Rb].
  destruct (digit_of_val c Hc) as [Ec Rc].
  destruct (digit_of_val d Hd) as [Ed Rd].
  split; [lia|]. rewrite appendInt_4 by lia. cbn [append].
  replace (n / 1000) with (Digits.digit_val a)
    by (Z.div_mod_to_equations; lia).
  replace (n / 100 mod 10) with (Digits.digit_val b)
    by (Z.div_mod_to_equations; lia).
  replace (n / 10 mod 10) with (Digits.digit_val c)
    by (Z.div_mod_to_equations; lia).
  replace (n mod 10) with (Digits.digit_val d)
    by (Z.div_mod_to_equations; lia).
  now rewrite Ea, Eb, Ec, Ed.
Qed.

(** The fraction of a second is less than a second. *)
Lemma val_bound (s : string) :
  Digits.all_digits s = true ->
  0 <= Digits.val s < 10 ^ Z.of_nat (String.length s).
Proof.
  induction s as [|c s IH]; cbn [Digits.all_digits Digits.val String.length].
  - intros _. cbn. lia.
  - intros H. apply andb_true_iff in H as [Hc Hs].
    destruct (digit_of_val c Hc) as [_ Rc]. specialize (IH Hs).
    rewrite Nat2Z.inj_succ, Z.pow_succ_r by lia. nia.
Qed.

Lemma span_digits_digits (s : string) :
  Digits.all_digits (fst (Parse.span_digits s)) = true.
Proof.
  induction s as [|c s IH]; cbn [Parse.span_digits]; [reflexivity|].
  destruct (Digits.is_digit c) eqn:Hc; [|reflexivity].
  cbn [fst Digits.all_digits]. now rewrite Hc, IH.
Qed.

Lemma substring_digits (n : nat) (s : string) :
  Digits.all_digits s = true ->
  Digits.all_digits (substring 0 n s) = true
  /\ (String.length (substring 0 n s) <= n)%nat.
Proof.
  revert s. induction n as [|n IH]; intros s Hs.
  - destruct s; cbn; split; (reflexivity || lia).
  - destruct s as [|c s]; cbn [substring].
    + split; [reflexivity|cbn; lia].
    + cbn [Digits.all_digits] in Hs. apply andb_true_iff in Hs as [Hc Hs].
      destruct (IH s Hs) as [H1 H2].
      cbn [Digits.all_digits String.length]. rewrite Hc, H1.
      split; [reflexivity|lia].
Qed.

Lemma fraction_bound (v : string) :
  0 <= fst (Parse.fraction v) < 1000000000.
Proof.
  unfold Parse.fraction.
  destruct v as [|p [|d r]]; cbn [fst]; try lia.
  destruct (Parse.commaOrPeriod p && Digits.is_digit d); cbn [fst]; [|lia].
  destruct (substring_digits 9 _ (span_digits_digits (String d r)))
    as [Hd Hl].
  set (ds := substring 0 9 (fst (Parse.span_digits (String d r)))) in *.
  pose proof (val_bound ds Hd) as Hv.
  assert (Hp : 10 ^ Z.of_nat (String.length ds)
               * 10 ^ Z.of_nat (9 - String.length ds) = 1000000000).
  { rewrite <- Z.pow_add_r by lia.
    replace (Z.of_nat (String.length ds) + Z.of_nat (9 - String.length ds))
      with 9 by lia.
    reflexivity. }
  assert (Hq : 0 < 10 ^ Z.of_nat (9 - String.length ds))
    by (apply Z.pow_pos_nonneg; lia).
  nia.
Qed.

Lemma span_digits_all (s : string) :
  snd (Parse.span_digits s) = ""%string -> Digits.all_digits s = true.
Proof.
  induction s as [|c s IH]; cbn [Parse.span_digits]; [reflexivity|].
  destruct (Digits.is_digit c) eqn:Hc; cbn [snd]; [|discriminate].
  intros H. cbn [Digits.all_digits]. now rewrite Hc, IH.
Qed.

(** What may follow the seconds: nothing, or a period or a comma and
    digits. *)
Lemma fraction_end (v : string) :
  snd (Parse.fraction v) = ""%string ->
  v = ""%string
  \/ exists p ds,
       v = String p ds /\ Parse.commaOrPeriod p = true
       /\ ds <> ""%string /\ Digits.all_digits ds = true.
Proof.
  unfold Parse.fraction. destruct v as [|p [|d r]]; cbn [snd].
  - now left.
  - discriminate.
  - destruct (Parse.commaOrPeriod p) eqn:Hp; cbn [andb]; [|discriminate].
    destruct (Digits.is_digit d) eqn:Hd; cbn [snd]; [|discriminate].
    intros H. right. exists p, (String d r).
    repeat split; try assumption; [discriminate|].
    now apply span_digits_all.
Qed.

Section LatestFacts.

Context {E : Env}.

Open Scope string_scope.

(** X16. A date of [latest.json] written as [2006-01-02 15:04:05], for a
    day that exists in a year of four digits, is accepted by [Latest], and
    the chunks of the time it gives are asked for under that same date and
    time, written [2006/01/02/150405]. *)
Theorem Latest_date_in_url :
  forall (y m d h mi s : Z) (perr : error),
    0 <= y <= 9999 -> 1 <= m <= 12 -> 1 <= d <= Parse.daysIn m y ->
    0 <= h < 24 -> 0 <= mi < 60 -> 0 <= s < 60 ->
    exists t,
      Latest_of (date_string y m d h mi s) perr = inl t
      /\ Time.nsec t = 0
      /\ forall level x yy,
           ChunkUrl t level Width x yy
           = url_with level Width (date_stamp y m d h mi s) x yy
           /\ Chunk t level x yy
              = http_png (url_with level Width (date_stamp y m d h mi s)
                            x yy).
Proof.
  intros y m d h mi s perr Hy Hm Hd Hh Hmi Hs.
  exists (Parse.Date y m d h mi s 0). split; [|split].
  - unfold Latest_of. now rewrite Parse_date_string.
  - reflexivity.
  - intros level x yy.
    assert (HU : ChunkUrl (Parse.Date y m d h mi s 0) level Width x yy
                 = url_with level Width (date_stamp y m d h mi s) x yy).
    { rewrite ChunkUrl_stamp, url_template_with.
      rewrite utc_stamp_Date by (assumption || lia). reflexivity. }
    split; [exact HU|]. unfold Chunk. now rewrite HU.
Qed.

(** X17. [Latest] accepts only dates that exist: an accepted value begins
    with a year of four digits, a month and a day of that month, each of
    two digits, then spaces, the hour in one or two digits, the minute
    and the second in two, and at most a fraction of a second.  The time
    is that date and time in UTC, never another day, and the URLs of its
    chunks carry it. *)
Theorem Latest_reads_a_date :
  forall (date : string) (perr : error) (t : Time.Time),
    Latest_of date perr = inl t ->
    exists y m d h mi s rest hh tail,
      (0 <= y <= 9999 /\ 1 <= m <= 12 /\ 1 <= d <= Parse.daysIn m y)
      /\ (0 <= h < 24 /\ 0 <= mi < 60 /\ 0 <= s < 60)
      /\ date = Fmt.appendInt y 4 ++ "-" ++ Fmt.appendInt m 2 ++ "-" ++
                Fmt.appendInt d 2 ++ " " ++ rest
      /\ Parse.cutspace rest
         = hh ++ ":" ++ Fmt.appendInt mi 2 ++ ":" ++ Fmt.appendInt s 2 ++ tail
      /\ (hh = Fmt.appendInt h 2 \/ (h < 10 /\ hh = Fmt.itoa h))
      /\ (tail = ""
          \/ exists p ds,
               tail = String p ds /\ Parse.commaOrPeriod p = true
               /\ ds <> "" /\ Digits.all_digits ds = true)
      /\ t = Parse.Date y m d h mi s (Time.nsec t)
      /\ 0 <= Time.nsec t < 1000000000
      /\ forall level x yy,
           ChunkUrl t level Width x yy
           = url_with level Width (date_stamp y m d h mi s) x yy.
Proof.
  intros date perr t. unfold Latest_of, Parse.Parse.
  destruct (Parse.scan date_layout date Parse.unset) as [f|] eqn:Hscan;
    [|discriminate].
  unfold date_layout in Hscan.
  rewrite scan_year in Hscan.
  destruct (Parse.getyear date) as [[y v1]|] eqn:Ey; [|discriminate].
  apply getyear_sound in Ey as [Hy ->].
  rewrite scan_dash in Hscan. destruct v1 as [|c1 v2]; [discriminate|].
  destruct (Ascii.eqb c1 "-") eqn:Ec1; [|discriminate].
  apply Ascii.eqb_eq in Ec1 as ->.
  rewrite scan_month in Hscan.
  destruct (Parse.getnum v2 true) as [[m v3]|] eqn:Em; [|discriminate].
  apply getnum_fixed_sound in Em as [Hm100 ->].
  destruct (Z.leb_spec m 0) as [|Hm1]; [discriminate|].
  destruct (Z.ltb_spec 12 m) as [|Hm12]; [discriminate|].
  cbn [orb] in Hscan.
  rewrite scan_dash in Hscan. destruct v3 as [|c2 v4]; [discriminate|].
  destruct (Ascii.eqb c2 "-") eqn:Ec2; [|discriminate].
  apply Ascii.eqb_eq in Ec2 as ->.
  rewrite scan_day in Hscan.
  destruct (Parse.getnum v4 true) as [[d v5]|] eqn:Ed; [|discriminate].
  apply getnum_fixed_sound in Ed as [Hd100 ->].
  rewrite scan_space in Hscan.
  destruct v5 as [|c3 rest].
  { rewrite scan_hour in Hscan. discriminate. }
  destruct (Ascii.eqb c3 " ") eqn:Ec3; [|discriminate].
  apply Ascii.eqb_eq in Ec3 as ->.
  change (Parse.cutspace (String " " rest)) with (Parse.cutspace rest)
    in Hscan.
  rewrite scan_hour in Hscan.
  destruct (Parse.getnum (Parse.cutspace rest) false) as [[h v7]|] eqn:Eh;
    [|discriminate].
  apply getnum_sound in Eh as [Hh100 Ehh].
  destruct (Z.ltb_spec h 0) as [|Hh0]; [discriminate|].
  destruct (Z.leb_spec 24 h) as [|Hh24]; [discriminate|].
  cbn [orb] in Hscan.
  rewrite scan_colon in Hscan. destruct v7 as [|c4 v8]; [discriminate|].
  destruct (Ascii.eqb c4 ":") eqn:Ec4; [|discriminate].
  apply Ascii.eqb_eq in Ec4 as ->.
  rewrite scan_minute in Hscan.
  destruct (Parse.getnum v8 true) as [[mi v9]|] eqn:Emi; [|discriminate].
  apply getnum_fixed_sound in Emi as [Hmi100 ->].
  destruct (Z.ltb_spec mi 0) as [|Hmi0]; [discriminate|].
  destruct (Z.leb_spec 60 mi) as [|Hmi60]; [discriminate|].
  cbn [orb] in Hscan.
  rewrite scan_colon in Hscan. destruct v9 as [|c5 v10]; [discriminate|].
  destruct (Ascii.eqb c5 ":") eqn:Ec5; [|discriminate].
  apply Ascii.eqb_eq in Ec5 as ->.
  rewrite scan_second in Hscan.
  destruct (Parse.getnum v10 true) as [[s tail]|] eqn:Es; [|discriminate].
  apply getnum_fixed_sound in Es as [Hs100 ->].
  destruct (Z.ltb_spec s 0) as [|Hs0]; [discriminate|].
  destruct (Z.leb_spec 60 s) as [|Hs60]; [discriminate|].
  cbn [orb] in Hscan.
  rewrite scan_end in Hscan.
  destruct (snd (Parse.fraction tail)) eqn:Etail; [|discriminate].
  injection Hscan as <-.
  cbn [Parse.year Parse.month Parse.day Parse.hour Parse.min Parse.sec
       Parse.nsec Parse.unset].
  destruct (Z.ltb_spec m 0); [lia|].
  destruct (Z.ltb_spec d 0) as [|Hd0]; [lia|].
  destruct (Z.ltb_spec d 1) as [|Hd1]; [discriminate|].
  destruct (Z.ltb_spec (Parse.daysIn m y) d) as [|Hdin]; [discriminate|].
  cbn [orb]. intros Ht. injection Ht as <-.
  assert (Hshape :
    exists hh,
      Parse.cutspace rest
      = hh ++ ":" ++ Fmt.appendInt mi 2 ++ ":" ++ Fmt.appendInt s 2 ++ tail
      /\ (hh = Fmt.appendInt h 2 \/ (h < 10 /\ hh = Fmt.itoa h))).
  { destruct Ehh as [-> | [Hlt ->]].
    - exists (Fmt.appendInt h 2). split; [reflexivity|now left].
    - exists (Fmt.itoa h). split; [reflexivity|now right]. }
  destruct Hshape as [hh [Hrest Hhh]].
  exists y, m, d, h, mi, s, rest, hh, tail.
  split; [lia|]. split; [lia|]. split; [reflexivity|].
  split; [exact Hrest|]. split; [exact Hhh|].
  split; [now apply fraction_end|].
  split; [reflexivity|].
  split; [apply fraction_bound|].
  intros level x yy.
  rewrite ChunkUrl_stamp, url_template_with.
  rewrite utc_stamp_Date by lia. reflexivity.
Qed.

End LatestFacts.

Section LatestCalls.

Context {E : Env}.

Lemma Image_norm_level (Workers : Z) (t : Time.Time) (level : Z)
    (sched : list action) :
  Image Workers t (norm_level level) sched = Image Workers t level sched.
Proof.
  unfold Image.
  assert (Hnn : norm_level (norm_level level) = norm_level level).
  { pose proof (norm_level_ge level). apply norm_level_pos. lia. }
  now rewrite Hnn.
Qed.

(** X18. From the date of [latest.json] to the requests of [LatestImage]:
    when [Latest] reads a date written as [2006-01-02 15:04:05], a call
    without [offsetTime] is the call of [Image] at that date and time in
    UTC, and every URL it asks for is the URL of a chunk of the grid
    under that date, written [2006/01/02/150405]. *)
Theorem LatestImage_requests_dated :
  forall (Workers level : Z) (sched : list action) (y m d h mi s : Z)
         (perr : error),
    0 <= y <= 9999 -> 1 <= m <= 12 -> 1 <= d <= Parse.daysIn m y ->
    0 <= h < 24 -> 0 <= mi < 60 -> 0 <= s < 60 ->
    Latest = Latest_of (date_string y m d h mi s) perr ->
    LatestImage Workers level false sched
    = Image Workers (Parse.Date y m d h mi s 0) level sched
    /\ forall o,
         LatestImage Workers level false sched = Returns o ->
         forall u,
           List.In u (requests (Parse.Date y m d h mi s 0)
                        (norm_level level) (out_trace o)) ->
           exists x yy,
             0 <= x < norm_level level /\ 0 <= yy < norm_level level
             /\ u = url_with (norm_level level) 550
                      (date_stamp y m d h mi s) x yy.
Proof.
  intros Workers level sched y m d h mi s perr Hy Hm Hd Hh Hmi Hs HL.
  assert (H1 : LatestImage Workers level false sched
               = Image Workers (Parse.Date y m d h mi s 0) level sched).
  { unfold LatestImage. rewrite HL. unfold Latest_of.
    rewrite Parse_date_string by assumption. apply Image_norm_level. }
  split; [exact H1|].
  intros o Hret u Hin. rewrite H1 in Hret.
  destruct (Image_fetches _ _ _ _ _ Hret) as [_ Hincl].
  unfold requests in Hin. apply in_map_iff in Hin.
  destruct Hin as ([x yy] & <- & Hin). apply Hincl, in_grid in Hin.
  exists x, yy. cbn [fst snd].
  rewrite ChunkUrl_stamp, url_template_with.
  rewrite utc_stamp_Date by (assumption || lia).
  repeat split; lia.
Qed.

End LatestCalls.

(** * The further properties on test environments *)

Lemma leak_in_call :
  in_call (E := Demo.bad00) 2 Demo.t0 2 Demo.s_leak.
Proof.
  split; [discriminate|]. split; [discriminate|].
  destruct (run_to_return_run _ _ _ _ _ _ run_leak) as [pre Hpre].
  exists pre. exact Hpre.
Qed.

Lemma leak_pc :
  pc Demo.s_leak
  = @PRetEarly Demo.bad00 ("png: invalid format: " ++ Demo.url 2 0 0)%string.
Proof. vm_compute. reflexivity. Qed.

(** X1 on the pool that returned early. *)
Lemma pool_never_stuck_witness :
  in_call (E := Demo.bad00) 2 Demo.t0 2 Demo.s_leak
  /\ (can_step (pool_size 2 (norm_level 2)) Demo.t0 (norm_level 2)
        Demo.s_leak
      \/ (returned Demo.s_leak = true /\ all_done (workers Demo.s_leak))).
Proof.
  split; [exact leak_in_call|].
  exact (pool_never_stuck (E := Demo.bad00) 2 Demo.t0 2 Demo.s_leak
           leak_in_call).
Defined.

Lemma run_leak_whole :
  pool_run (E := Demo.bad00) 2 Demo.t0 2 Demo.sched_leak
    (pool_init 2 2 (st_canvas (fresh 2))) = Some Demo.s_run.
Proof.
  assert (H : Demo.is_some
                (pool_run (E := Demo.bad00) 2 Demo.t0 2 Demo.sched_leak
                   (pool_init 2 2 (st_canvas (fresh 2)))) = true)
    by (vm_compute; reflexivity).
  exact (state_of_some _ _ H).
Qed.

(** X2 on the seven steps of the run that returns early. *)
Lemma pool_runs_bounded_witness :
  norm_level 2 <> 1
  /\ pool_run (E := Demo.bad00) (pool_size 2 (norm_level 2)) Demo.t0
       (norm_level 2) Demo.sched_leak
       (pool_start (pool_size 2 (norm_level 2)) (norm_level 2))
     = Some Demo.s_run
  /\ Z.of_nat (List.length Demo.sched_leak)
     <= 4 * (norm_level 2 * norm_level 2)
        + Z.of_nat (pool_size 2 (norm_level 2)) + 3.
Proof.
  split; [discriminate|]. split; [exact run_leak_whole|].
  apply (pool_runs_bounded (E := Demo.bad00) 2 Demo.t0 2 Demo.sched_leak
           Demo.s_run).
  - discriminate.
  - exact run_leak_whole.
Defined.

(** X3 on the pool that returned early. *)
Lemma errc_never_blocks_witness :
  in_call (E := Demo.bad00) 2 Demo.t0 2 Demo.s_leak
  /\ (forall i x y err,
         nth_error (workers Demo.s_leak) i = Some (WErr x y err) ->
         exists s',
           pool_step (E := Demo.bad00) (pool_size 2 (norm_level 2)) Demo.t0
             (norm_level 2) (Work i) Demo.s_leak = Some s')
  /\ (List.length (report_errs (trace Demo.s_leak))
      <= pool_size 2 (norm_level 2))%nat
  /\ (List.length (errc Demo.s_leak) <= pool_size 2 (norm_level 2))%nat.
Proof.
  split; [exact leak_in_call|].
  exact (errc_never_blocks (E := Demo.bad00) 2 Demo.t0 2 Demo.s_leak
           leak_in_call).
Defined.

(** X4 on the call that succeeds. *)
Lemma normal_return_joins_witness :
  Image (E := Demo.good) 2 Demo.t0 2 Demo.sched_good = Returns Demo.out_good
  /\ (handoffs (out_trace Demo.out_good) = grid (norm_level 2) ->
      all_done (out_workers Demo.out_good))
  /\ (out_err Demo.out_good = None -> all_done (out_workers Demo.out_good)).
Proof.
  split; [exact Image_good|].
  exact (normal_return_joins (E := Demo.good) 2 Demo.t0 2 Demo.sched_good
           Demo.out_good Image_good).
Defined.

(** X5 on the pool that returned early and the rest of worker 1. *)
Lemma no_dispatch_after_loop_witness :
  (forall x y, pc Demo.s_leak <> PSelect x y)
  /\ pool_run (E := Demo.bad00) 2 Demo.t0 2 [Work 1; Work 1; Work 1]
       Demo.s_leak = Some Demo.s_after
  /\ handoffs (trace Demo.s_after) = handoffs (trace Demo.s_leak)
  /\ (List.length (fetches (trace Demo.s_after))
      <= List.length (fetches (trace Demo.s_leak))
         + wsum holds (workers Demo.s_leak))%nat.
Proof.
  assert (Hpc : forall x y, pc Demo.s_leak <> PSelect x y)
    by (intros x y; rewrite leak_pc; discriminate).
  split; [exact Hpc|]. split; [exact run_after|].
  exact (no_dispatch_after_loop (E := Demo.bad00) 2 Demo.t0 2
           [Work 1; Work 1; Work 1] Demo.s_leak Demo.s_after Hpc run_after).
Defined.

(** X6 on the pool that returned early. *)
Lemma dispatch_order_witness :
  in_call (E := Demo.bad00) 2 Demo.t0 2 Demo.s_leak
  /\ (exists rest, handoffs (trace Demo.s_leak) ++ rest = grid (norm_level 2))
  /\ forall c,
       (count c (fetches (trace Demo.s_leak))
        <= count c (handoffs (trace Demo.s_leak)))%nat
       /\ (count c (draws (trace Demo.s_leak))
           + count c (reports (trace Demo.s_leak))
           <= count c (fetches (trace Demo.s_leak)))%nat
       /\ (count c (fetches (trace Demo.s_leak)) <= 1)%nat.
Proof.
  split; [exact leak_in_call|].
  exact (dispatch_order (E := Demo.bad00) 2 Demo.t0 2 Demo.s_leak
           leak_in_call).
Defined.





(** X11 on the call whose chunk (0, 0) fails. *)
Lemma error_iff_some_chunk_fails_witness :
  Image (E := Demo.bad00) 2 Demo.t0 2 Demo.sched_leak
  = Returns Demo.out_leak
  /\ (out_err Demo.out_leak = None
      <-> served (E := Demo.bad00) Demo.t0 (norm_level 2)
            (grid (norm_level 2)))
  /\ forall err,
       out_err Demo.out_leak = Some err ->
       exists x y,
         List.In (x, y) (grid (norm_level 2))
         /\ Chunk (E := Demo.bad00) Demo.t0 (norm_level 2) x y = inr err.
Proof.
  split; [exact Image_leak|].
  exact (error_iff_some_chunk_fails (E := Demo.bad00) 2 Demo.t0 2
           Demo.sched_leak Demo.out_leak Image_leak).
Defined.

(** X12 on one instant in the zone of Sydney and in UTC. *)
Lemma Image_depends_on_instant_witness :
  Time.unix Demo.t0 = Time.unix Demo.t0_utc
  /\ Image (E := Demo.good) 2 Demo.t0 2 Demo.sched_good
     = Image (E := Demo.good) 2 Demo.t0_utc 2 Demo.sched_good
  /\ forall x y,
       ChunkUrl Demo.t0 (norm_level 2) Width x y
       = ChunkUrl Demo.t0_utc (norm_level 2) Width x y.
Proof.
  split; [reflexivity|].
  apply (Image_depends_on_instant (E := Demo.good) 2 Demo.t0 Demo.t0_utc 2
           Demo.sched_good).
  reflexivity.
Defined.

(** X13 on the server whose latest image is of 2016-07-18 09:30:00 UTC,
    seen from a zone two hours east of Greenwich. *)
Lemma LatestImage_offset_witness :
  Latest (E := Demo.good) = inl Demo.t0_utc
  /\ sydneyOff (Env := Demo.good) = Some 36000
  /\ LatestImage (E := Demo.good) 2 2 true Demo.sched_good
     = Image (E := Demo.good) 2
         (Time.Add Demo.t0_utc (localOff (Env := Demo.good) - 36000)) 2
         Demo.sched_good
  /\ (forall x y,
         Chunk (E := Demo.good)
           (Time.Add Demo.t0_utc (localOff (Env := Demo.good) - 36000))
           (norm_level 2) x y
         = http_png (Env := Demo.good)
             (url_template (norm_level 2) Width
                (Time.unix Demo.t0_utc
                 + (localOff (Env := Demo.good) - 36000)) x y))
  /\ (localOff (Env := Demo.good) = 36000 ->
      LatestImage (E := Demo.good) 2 2 true Demo.sched_good
      = LatestImage (E := Demo.good) 2 2 false Demo.sched_good).
Proof.
  split; [reflexivity|]. split; [reflexivity|].
  apply (LatestImage_offset (E := Demo.good) 2 2 Demo.sched_good
           Demo.t0_utc 36000); reflexivity.
Defined.

(** X14 on two chunks of level 4. *)
Lemma ChunkUrl_injective_witness :
  0 <= 4 /\ 0 <= 1 /\ 0 <= 3
  /\ ChunkUrl Demo.t0 4 Width 1 3 = ChunkUrl Demo.t0 4 Width 1 3
  /\ (4 = 4 /\ 1 = 1 /\ 3 = 3).
Proof.
  split; [lia|]. split; [lia|]. split; [lia|]. split; [reflexivity|].
  apply (ChunkUrl_injective Demo.t0 Width 4 1 3 4 1 3); try lia.
  reflexivity.
Defined.

(** X15 on the call that succeeds. *)
Lemma requests_distinct_witness :
  Image (E := Demo.good) 2 Demo.t0 2 Demo.sched_good = Returns Demo.out_good
  /\ NoDup (requests Demo.t0 (norm_level 2) (out_trace Demo.out_good))
  /\ forall u,
       List.In u (requests Demo.t0 (norm_level 2) (out_trace Demo.out_good)) ->
       exists x y,
         0 <= x < norm_level 2 /\ 0 <= y < norm_level 2
         /\ u = url_template (norm_level 2) 550 (Time.unix Demo.t0) x y.
Proof.
  split; [exact Image_good|].
  exact (requests_distinct (E := Demo.good) 2 Demo.t0 2 Demo.sched_good
           Demo.out_good Image_good).
Defined.

(** X16 on the date of the test server. *)
Lemma Latest_date_in_url_witness :
  0 <= 2016 <= 9999 /\ 1 <= 7 <= 12 /\ 1 <= 18 <= Parse.daysIn 7 2016
  /\ 0 <= 9 < 24 /\ 0 <= 30 < 60 /\ 0 <= 0 < 60
  /\ exists t,
       Latest_of (E := Demo.good) (date_string 2016 7 18 9 30 0)
         Demo.bad_date = inl t
       /\ Time.nsec t = 0
       /\ forall level x yy,
            ChunkUrl t level Width x yy
            = url_with level Width (date_stamp 2016 7 18 9 30 0) x yy
            /\ Chunk (E := Demo.good) t level x yy
               = http_png (Env := Demo.good)
                   (url_with level Width (date_stamp 2016 7 18 9 30 0)
                      x yy).
Proof.
  assert (Hd : 1 <= 18 <= Parse.daysIn 7 2016)
    by (change (Parse.daysIn 7 2016) with 31; lia).
  split; [lia|]. split; [lia|]. split; [exact Hd|].
  split; [lia|]. split; [lia|]. split; [lia|].
  apply (Latest_date_in_url (E := Demo.good) 2016 7 18 9 30 0 Demo.bad_date);
    (exact Hd || lia).
Defined.

(** X17 on the date of the test server. *)
Lemma Latest_reads_a_date_witness :
  Latest_of (E := Demo.good) Demo.date Demo.bad_date = inl Demo.t0_utc
  /\ exists y m d h mi s rest hh tail,
       (0 <= y <= 9999 /\ 1 <= m <= 12 /\ 1 <= d <= Parse.daysIn m y)
       /\ (0 <= h < 24 /\ 0 <= mi < 60 /\ 0 <= s < 60)
       /\ Demo.date
          = (Fmt.appendInt y 4 ++ "-" ++ Fmt.appendInt m 2 ++ "-" ++
             Fmt.appendInt d 2 ++ " " ++ rest)%string
       /\ Parse.cutspace rest
          = (hh ++ ":" ++ Fmt.appendInt mi 2 ++ ":" ++
             Fmt.appendInt s 2 ++ tail)%string
       /\ (hh = Fmt.appendInt h 2 \/ (h < 10 /\ hh = Fmt.itoa h))
       /\ (tail = ""%string
           \/ exists p ds,
                tail = String p ds /\ Parse.commaOrPeriod p = true
                /\ ds <> ""%string /\ Digits.all_digits ds = true)
       /\ Demo.t0_utc = Parse.Date y m d h mi s (Time.nsec Demo.t0_utc)
       /\ 0 <= Time.nsec Demo.t0_utc < 1000000000
       /\ forall level x yy,
            ChunkUrl Demo.t0_utc level Width x yy
            = url_with level Width (date_stamp y m d h mi s) x yy.
Proof.
  assert (H : Latest_of (E := Demo.good) Demo.date Demo.bad_date
              = inl Demo.t0_utc) by reflexivity.
  split; [exact H|].
  exact (Latest_reads_a_date (E := Demo.good) Demo.date Demo.bad_date
           Demo.t0_utc H).
Defined.

(** X18 on the test server, whose latest date is [Demo.date]. *)
Lemma LatestImage_requests_dated_witness :
  0 <= 2016 <= 9999 /\ 1 <= 7 <= 12 /\ 1 <= 18 <= Parse.daysIn 7 2016
  /\ 0 <= 9 < 24 /\ 0 <= 30 < 60 /\ 0 <= 0 < 60
  /\ Latest (E := Demo.good)
     = Latest_of (E := Demo.good) (date_string 2016 7 18 9 30 0)
         Demo.bad_date
  /\ LatestImage (E := Demo.good) 2 2 false Demo.sched_good
     = Image (E := Demo.good) 2 (Parse.Date 2016 7 18 9 30 0 0) 2
         Demo.sched_good
  /\ forall o,
       LatestImage (E := Demo.good) 2 2 false Demo.sched_good = Returns o ->
       forall u,
         List.In u (requests (Parse.Date 2016 7 18 9 30 0 0)
                      (norm_level 2) (out_trace o)) ->
         exists x yy,
           0 <= x < norm_level 2 /\ 0 <= yy < norm_level 2
           /\ u = url_with (norm_level 2) 550
                    (date_stamp 2016 7 18 9 30 0) x yy.
Proof.
  assert (Hd : 1 <= 18 <= Parse.daysIn 7 2016)
    by (change (Parse.daysIn 7 2016) with 31; lia).
  assert (HL : Latest (E := Demo.good)
               = Latest_of (E := Demo.good) (date_string 2016 7 18 9 30 0)
                   Demo.bad_date)
    by reflexivity.
  split; [lia|]. split; [lia|]. split; [exact Hd|].
  split; [lia|]. split; [lia|]. split; [lia|]. split; [exact HL|].
  apply (LatestImage_requests_dated (E := Demo.good) 2 2 Demo.sched_good
           2016 7 18 9 30 0 Demo.bad_date); (exact Hd || exact HL || lia).
Defined.
